(** * L2-norm based KV-cache compression: [l2_compress]

    A shallow embedding of the function [l2_compress] of
    [notebooks/basic_example.ipynb] together with the part of the PyTorch
    tensor interface it calls ([size], [norm], [squeeze], [argsort],
    [unsqueeze], [expand], [gather] and basic slicing).

    Tensors are records holding their shape and their entries as nested
    lists.  The entries are kept abstract ([scalar]); the two numeric kernels
    the function delegates to PyTorch, the Euclidean norm of one vector and
    the sort of one vector, are parameters of the development.  [keep_ratio]
    is a Python number: an exact one ([int] or [Fraction], as the default
    [keep_ratio = 1]) or a [float], a binary64 number whose product with
    [seq_len] is rounded as IEEE 754 prescribes ([SpecFloat]). *)

From Stdlib Require Import ZArith QArith Qround Qpower Lia SpecFloat.
From stdpp Require Import base option list sorting gmap.

Local Open Scope Z_scope.
Local Open Scope nat_scope.

(** Mapping over one axis of a nested list. *)
Abbreviation lmap := (fmap (M := list)).

(** ** Exceptions and the error monad *)

(** The exceptions the modelled calls can raise.  [ExpandLeadingDim] is the
    [RuntimeError] of [Tensor.expand] when [-1] is given for a leading,
    non-existing dimension; [GatherShape] the one of [torch.gather] when the
    index is larger than the input away from the gathered axis;
    [GatherIndex] its out-of-bounds index error; [ExpandSize] the one of
    [expand] on an axis whose size is neither 1 nor the requested one.
    [NotASequence], [NotAPair] and [NotATensor] are the [TypeError]s of
    Python on a heap object of the wrong kind.  [OverflowError] and
    [ValueError] are raised by [math.ceil] on an infinite [float] and on
    NaN, and [OverflowError] by the conversion of an [int] that is too
    large to a [float]. *)
Inductive exn : Set :=
  | ExpandLeadingDim
  | ExpandSize
  | GatherShape
  | GatherIndex
  | NotASequence
  | NotAPair
  | NotATensor
  | OverflowError
  | ValueError.

Inductive result (A : Type) : Type :=
  | Ok (a : A)
  | Raise (e : exn).
Arguments Ok {A} a.
Arguments Raise {A} e.

Global Instance result_ret : MRet result := λ A a, Ok a.
Global Instance result_bind : MBind result := λ A B f m,
  match m with
  | Ok a => f a
  | Raise e => Raise e
  end.

Definition of_option {A} (e : exn) (o : option A) : result A :=
  match o with
  | Some a => Ok a
  | None => Raise e
  end.

(** The call returns a value. *)
Definition returns {A} (r : result A) : Prop :=
  match r with
  | Ok _ => True
  | Raise _ => False
  end.

(** ** Numbers *)

(** The value of [keep_ratio]: an exact number (a Python [int] or
    [Fraction]) or a [float], a binary64 number. *)
Inductive number : Type :=
  | Rat (q : Q)
  | Float (x : spec_float).
Coercion Rat : Q >-> number.
Bind Scope Q_scope with number.

(** Binary64 multiplication, rounded to nearest, ties to even. *)
Definition float_mul : spec_float → spec_float → spec_float :=
  SFmul 53 1024.

(** [float(n)] of an [int]: rounded to nearest, ties to even;
    [OverflowError] when the result is not finite. *)
Definition float_of_nat (n : nat) : result spec_float :=
  match binary_normalize 53 1024 (Z.of_nat n) 0 false with
  | S754_infinity _ => Raise OverflowError
  | x => Ok x
  end.

(** The rational a finite [float] stands for. *)
Definition float_value (x : spec_float) : Q :=
  match x with
  | S754_finite s m e => inject_Z (cond_Zopp s (Z.pos m)) * 2 ^ e
  | _ => 0
  end.

(** The rational a number stands for; NaN and the infinities stand for
    none. *)
Definition number_value (x : number) : option Q :=
  match x with
  | Rat q => Some q
  | Float S754_nan | Float (S754_infinity _) => None
  | Float x => Some (float_value x)
  end.

(** A [float] is taken from the binary64 format: its mantissa has at most
    53 bits and its exponent is in range. *)
Definition binary64 (x : number) : Prop :=
  match x with
  | Rat _ => True
  | Float x => valid_binary 53 1024 x = true
  end.

(** [m * 2^e] *)
Definition F2Q (m e : Z) : Q := inject_Z m * 2 ^ e.

(** Whether bits were shifted out of a mantissa. *)
Definition inexact (mrs : shr_record) : bool := shr_r mrs || shr_s mrs.

(** The [float] a decimal literal that stands for [num / den] is read as:
    the quotient, rounded once. *)
Definition float_literal (num den : Z) : spec_float :=
  SFdiv 53 1024 (binary_normalize 53 1024 num 0 false)
                (binary_normalize 53 1024 den 0 false).

(** [0.6], the [keep_ratio] of the notebook's call. *)
Definition float_0_6 : spec_float :=
  S754_finite false 5404319552844595 (-53).

(** [x * n] for an [int] [n]: exact on an exact [x]; on a [float] the
    [int] is converted and the product is rounded. *)
Definition mul_int (x : number) (n : nat) : result number :=
  match x with
  | Rat q => Ok (Rat (q * inject_Z (Z.of_nat n)))
  | Float x => y ← float_of_nat n; Ok (Float (float_mul x y))
  end.

(** [math.ceil(x)] *)
Definition ceil (x : number) : result Z :=
  match x with
  | Rat q => Ok (Qceiling q)
  | Float S754_nan => Raise ValueError
  | Float (S754_infinity _) => Raise OverflowError
  | Float x => Ok (Qceiling (float_value x))
  end.

(** ** Tensors *)

(** A rank-4 tensor of shape [(t_batch, t_heads, t_seq, t_dim)]; the entry at
    [b, h, t, d] is [t_data !! b !! h !! t !! d]. *)
Record tensor4 (A : Type) : Type := T4 {
  t_batch : nat;
  t_heads : nat;
  t_seq : nat;
  t_dim : nat;
  t_data : list (list (list (list A)))
}.
Arguments T4 {A}.
Arguments t_batch {A}.
Arguments t_heads {A}.
Arguments t_seq {A}.
Arguments t_dim {A}.
Arguments t_data {A}.

Record tensor3 (A : Type) : Type := T3 {
  t3_batch : nat;
  t3_heads : nat;
  t3_seq : nat;
  t3_data : list (list (list A))
}.
Arguments T3 {A}.
Arguments t3_batch {A}.
Arguments t3_heads {A}.
Arguments t3_seq {A}.
Arguments t3_data {A}.

Record tensor2 (A : Type) : Type := T2 {
  t2_batch : nat;
  t2_heads : nat;
  t2_data : list (list A)
}.
Arguments T2 {A}.
Arguments t2_batch {A}.
Arguments t2_heads {A}.
Arguments t2_data {A}.

(** [x.squeeze(-1)] of a rank-3 tensor has rank 2 or 3, and [unsqueeze(-1)]
    of that has rank 3 or 4. *)
Inductive tensor23 (A : Type) : Type :=
  | Rank2 (x : tensor2 A)
  | Rank3 (x : tensor3 A).
Arguments Rank2 {A}.
Arguments Rank3 {A}.

Inductive tensor34 (A : Type) : Type :=
  | Rank3u (x : tensor3 A)
  | Rank4u (x : tensor4 A).
Arguments Rank3u {A}.
Arguments Rank4u {A}.

(** The entries agree with the recorded shape. *)
Definition rect {A} (n m : nat) (rows : list (list A)) : Prop :=
  length rows = n ∧ Forall (λ r, length r = m) rows.

Definition rect4 {A} (B H S D : nat) (data : list (list (list (list A))))
    : Prop :=
  length data = B ∧
  Forall (λ hs, length hs = H ∧ Forall (rect S D) hs) data.

Definition wf4 {A} (x : tensor4 A) : Prop :=
  rect4 (t_batch x) (t_heads x) (t_seq x) (t_dim x) (t_data x).

Definition same_shape {A B} (x : tensor4 A) (y : tensor4 B) : Prop :=
  t_batch x = t_batch y ∧ t_heads x = t_heads y ∧
  t_seq x = t_seq y ∧ t_dim x = t_dim y.

(** [x.size(2)] *)
Definition size2 {A} (x : tensor4 A) : nat := t_seq x.

(** [x.numel()] *)
Definition numel {A} (x : tensor4 A) : nat :=
  t_batch x * t_heads x * t_seq x * t_dim x.

(** ** The tensor operations used by [l2_compress] *)

Section Torch.
Context {scalar : Type}.

(** [torch.norm(v, p=2)] of one vector of the last axis, in the tensor's
    own number format. *)
Variable l2norm : list scalar → scalar.

(** [v.argsort()] of one vector: the positions of [v] in sorted order.
    The call in [l2_compress] leaves [stable] at its default. *)
Variable argsort : list scalar → list nat.

(** [torch.norm(x, p=2, dim=-1)]: the last axis is reduced away. *)
Definition norm_last (x : tensor4 scalar) : tensor3 scalar :=
  T3 (t_batch x) (t_heads x) (t_seq x)
     (lmap (lmap (lmap l2norm)) (t_data x)).

(** [x.squeeze(-1)]: the last axis is dropped when, and only when, its
    size is 1. *)
Definition squeeze_last {A} (x : tensor3 A) : tensor23 A :=
  if decide (t3_seq x = 1)
  then Rank2 (T2 (t3_batch x) (t3_heads x) (lmap (@concat A) (t3_data x)))
  else Rank3 x.

(** [x.argsort(dim=-1)] *)
Definition argsort_last (x : tensor23 scalar) : tensor23 nat :=
  match x with
  | Rank2 x =>
      Rank2 (T2 (t2_batch x) (t2_heads x) (lmap argsort (t2_data x)))
  | Rank3 x =>
      Rank3 (T3 (t3_batch x) (t3_heads x) (t3_seq x)
                (lmap (lmap argsort) (t3_data x)))
  end.

(** [x.unsqueeze(-1)]: a new last axis of size 1. *)
Definition unsqueeze_last {A} (x : tensor23 A) : tensor34 A :=
  let single := λ a : A, [a] in
  match x with
  | Rank2 x =>
      Rank3u (T3 (t2_batch x) (t2_heads x) 1
                 (lmap (lmap single) (t2_data x)))
  | Rank3 x =>
      Rank4u (T4 (t3_batch x) (t3_heads x) (t3_seq x) 1
                 (lmap (lmap (lmap single)) (t3_data x)))
  end.

(** Broadcasting one row of a size-1 axis to [n] copies. *)
Definition expand_row {A} (n : nat) (r : list A) : list A :=
  match r with
  | [a] => replicate n a
  | _ => r
  end.

(** [x.expand(-1, -1, -1, n)].  Four sizes are given, so on a tensor of
    rank 3 the first [-1] names a leading dimension the tensor does not
    have, which PyTorch refuses. *)
Definition expand_last {A} (n : nat) (x : tensor34 A) : result (tensor4 A) :=
  match x with
  | Rank4u x =>
      if decide (t_dim x = 1)
      then Ok (T4 (t_batch x) (t_heads x) (t_seq x) n
                  (lmap (lmap (lmap (expand_row n))) (t_data x)))
      else if decide (t_dim x = n) then Ok x
      else Raise ExpandSize
  | Rank3u _ => Raise ExpandLeadingDim
  end.

(** One row of [torch.gather(input, 2, index)] within one (batch, head)
    slice: [out[t][d] = input[index[t][d]][d]]. *)
Definition gather_row {A} (rows : list (list A)) (irow : list nat)
    : option (list A) :=
  mapM (λ di : nat * nat, rows !! di.2 ≫= λ r : list A, r !! di.1)
       (imap pair irow).

Definition gather_slice {A} (rows : list (list A)) (idx : list (list nat))
    : option (list (list A)) :=
  mapM (gather_row rows) idx.

Definition gather_data {A} (input : list (list (list (list A))))
    (index : list (list (list (list nat))))
    : option (list (list (list (list A)))) :=
  mapM (λ p : list (list (list nat)) * list (list (list A)),
          mapM (λ q : list (list nat) * list (list A),
                  gather_slice q.2 q.1)
               (zip p.1 p.2))
       (zip index input).

(** [torch.gather(input, 2, index)]: the output has the shape of [index].
    An index without entries is answered at once, with no check; otherwise
    the index may not be larger than the input away from axis 2, and every
    index has to name a position of axis 2 of the input. *)
Definition gather {A} (input : tensor4 A) (index : tensor4 nat)
    : result (tensor4 A) :=
  if decide (numel index = 0)
  then Ok (T4 (t_batch index) (t_heads index) (t_seq index) (t_dim index)
              (lmap (lmap (lmap (λ _, []))) (t_data index)))
  else if decide (t_batch index ≤ t_batch input ∧
                  t_heads index ≤ t_heads input ∧
                  t_dim index ≤ t_dim input)
  then
    d ← of_option GatherIndex (gather_data (t_data input) (t_data index));
    Ok (T4 (t_batch index) (t_heads index) (t_seq index) (t_dim index) d)
  else Raise GatherShape.

(** The stop position of the Python slice [:k] on an axis of size [n]:
    a negative [k] counts from the end, and the result is clamped to
    [0..n]. *)
Definition slice_stop (k : Z) (n : nat) : nat :=
  Z.to_nat (if (k <? 0)%Z then Z.max 0 (k + Z.of_nat n)
            else Z.min k (Z.of_nat n)).

(** [x[:, :, :k, :]] *)
Definition slice_seq {A} (k : Z) (x : tensor4 A) : tensor4 A :=
  T4 (t_batch x) (t_heads x) (slice_stop k (t_seq x)) (t_dim x)
     (lmap (lmap (take (slice_stop k (t_seq x)))) (t_data x)).

(** [math.ceil(keep_ratio * n)], which may raise on a [float]. *)
Definition ceil_product (keep_ratio : number) (n : nat) : result Z :=
  product ← mul_int keep_ratio n; ceil product.

(** *** The function *)

(** One layer of the cache: the pair [(keys, values)]. *)
Definition layer_cache : Type := tensor4 scalar * tensor4 scalar.

Variable keep_ratio : number.
Variable prune_after : Z.
Variable skip_layers : list Z.

(** The body of the loop from [keys, values = kv] up to the test on
    [skip_layers]: the pair that would be stored for the layer. *)
Definition sorted_prefix (kv : layer_cache) : result layer_cache :=
  let '(keys, values) := kv in
  let token_dim := t_dim keys in
  tokens_to_keep ← ceil_product keep_ratio (size2 keys);
  let token_norms := norm_last keys in
  let sorted_indices := argsort_last (squeeze_last token_norms) in
  sorted_indices_expanded ←
    expand_last token_dim (unsqueeze_last sorted_indices);
  sorted_keys ← gather keys sorted_indices_expanded;
  sorted_values ← gather values sorted_indices_expanded;
  Ok (slice_seq tokens_to_keep sorted_keys,
      slice_seq tokens_to_keep sorted_values).

(** [for layer, kv in enumerate(past_key_values)], on the indices still to
    visit; [past_key_values] is the list the loop reads from and stores
    into. *)
Fixpoint for_layers (layers : list nat) (past_key_values : list layer_cache)
    : result (list layer_cache) :=
  match layers with
  | [] => Ok past_key_values
  | layer :: rest =>
      match past_key_values !! layer with
      | None => Ok past_key_values
      | Some kv =>
          if (Z.of_nat (size2 kv.1) <? prune_after)%Z
          then for_layers rest past_key_values
          else
            new ← sorted_prefix kv;
            for_layers rest
              (if decide (Z.of_nat layer ∈ skip_layers)
               then past_key_values
               else <[layer := new]> past_key_values)
      end
  end.

(** [list(past_key_values)] is a new list object with the same items; as a
    value it is the list itself (the objects are told apart in
    [l2_compress_heap] below). *)
Definition l2_compress (past_key_values : list layer_cache)
    : result (list layer_cache) :=
  let past_key_values := past_key_values in
  for_layers (seq 0 (length past_key_values)) past_key_values.

End Torch.

(** ** The function on the Python heap *)

(** Python passes references: [past_key_values] names a sequence object whose
    items name pair objects whose items name tensor objects.  The heap maps
    a location to the object stored there; the tensor operations of
    [sorted_prefix] are out of place and their results are stored at fresh
    locations. *)
Abbreviation loc := positive.

Inductive pyobj (scalar : Type) : Type :=
  | PyList (items : list loc)
  | PyTuple (items : list loc)
  | PyTensor (x : tensor4 scalar).
Arguments PyList {scalar}.
Arguments PyTuple {scalar}.
Arguments PyTensor {scalar}.

Abbreviation heap scalar := (gmap loc (pyobj scalar)).

Section Heap.
Context {scalar : Type}.
Variable l2norm : list scalar → scalar.
Variable argsort : list scalar → list nat.
Variable keep_ratio : number.
Variable prune_after : Z.
Variable skip_layers : list Z.

(** Computations that read and extend the heap and may raise. *)
Definition py (A : Type) : Type := heap scalar → result (A * heap scalar).

Definition py_ret {A} (a : A) : py A := λ h, Ok (a, h).
Definition py_bind {A B} (m : py A) (f : A → py B) : py B :=
  λ h, match m h with
       | Ok (a, h') => f a h'
       | Raise e => Raise e
       end.
Definition py_raise {A} (e : exn) : py A := λ _, Raise e.
Definition py_lift {A} (r : result A) : py A :=
  λ h, match r with
       | Ok a => Ok (a, h)
       | Raise e => Raise e
       end.

Notation "x ←ₚ m ; k" := (py_bind m (λ x, k))
  (at level 20, m at level 100, k at level 200, only parsing).

(** A new object at a location not yet in use. *)
Definition alloc (o : pyobj scalar) : py loc :=
  λ h, let l := fresh (dom h) in Ok (l, <[l := o]> h).

(** The items of a list or tuple. *)
Definition items_of (l : loc) : py (list loc) :=
  λ h, match h !! l with
       | Some (PyList items) | Some (PyTuple items) => Ok (items, h)
       | _ => Raise NotASequence
       end.

Definition tensor_of (l : loc) : py (tensor4 scalar) :=
  λ h, match h !! l with
       | Some (PyTensor x) => Ok (x, h)
       | _ => Raise NotATensor
       end.

(** [l[i] = v]: item assignment, which only a list supports. *)
Definition set_item (l : loc) (i : nat) (v : loc) : py unit :=
  λ h, match h !! l with
       | Some (PyList items) => Ok ((), <[l := PyList (<[i := v]> items)]> h)
       | _ => Raise NotASequence
       end.

(** The loop of [l2_compress] on the list object at [pkv]. *)
Fixpoint for_layers_heap (layers : list nat) (pkv : loc) : py unit :=
  match layers with
  | [] => py_ret ()
  | layer :: rest =>
      items ←ₚ items_of pkv;
      match items !! layer with
      | None => py_ret ()
      | Some kv =>
          pair ←ₚ items_of kv;
          first ←ₚ py_lift (of_option NotAPair (pair !! 0));
          kv0 ←ₚ tensor_of first;
          if (Z.of_nat (size2 kv0) <? prune_after)%Z
          then for_layers_heap rest pkv
          else
            match pair with
            | [keys; values] =>
                keys ←ₚ tensor_of keys;
                values ←ₚ tensor_of values;
                new ←ₚ py_lift
                  (sorted_prefix l2norm argsort keep_ratio (keys, values));
                if decide (Z.of_nat layer ∈ skip_layers)
                then for_layers_heap rest pkv
                else
                  new_keys ←ₚ alloc (PyTensor new.1);
                  new_values ←ₚ alloc (PyTensor new.2);
                  new ←ₚ alloc (PyTuple [new_keys; new_values]);
                  _ ←ₚ set_item pkv layer new;
                  for_layers_heap rest pkv
            | _ => py_raise NotAPair
            end
      end
  end.

(** [l2_compress] called with the object at [past_key_values]; the value
    is the location of the list it returns. *)
Definition l2_compress_heap (past_key_values : loc) : py loc :=
  items ←ₚ items_of past_key_values;
  past_key_values ←ₚ alloc (PyList items);
  _ ←ₚ for_layers_heap (seq 0 (length items)) past_key_values;
  py_ret past_key_values.

(** The cache a heap holds at a location: the value [l2_compress] is
    about. *)
Definition pair_at (h : heap scalar) (l : loc)
    : option (layer_cache (scalar := scalar)) :=
  match h !! l with
  | Some (PyList [k; v]) | Some (PyTuple [k; v]) =>
      match h !! k, h !! v with
      | Some (PyTensor keys), Some (PyTensor values) => Some (keys, values)
      | _, _ => None
      end
  | _ => None
  end.

Definition items_at (h : heap scalar) (l : loc) : option (list loc) :=
  match h !! l with
  | Some (PyList items) | Some (PyTuple items) => Some items
  | _ => None
  end.

Definition snapshot_at (h : heap scalar) (l : loc)
    : option (list layer_cache) :=
  match h !! l with
  | Some (PyList items) | Some (PyTuple items) => mapM (pair_at h) items
  | _ => None
  end.

End Heap.

(** * The vocabulary of the statements *)

Section Vocabulary.
Context {scalar : Type}.
Variable leb : scalar → scalar → bool.
Variable l2norm : list scalar → scalar.
Variable argsort : list scalar → list nat.

#[local] Abbreviation cache_layer := (layer_cache (scalar := scalar)).

(** ** Slices and orders *)

(** The slice of a tensor at one batch entry and head: its token rows. *)
Definition slice_at {A} (x : tensor4 A) (b h : nat)
    : option (list (list A)) :=
  t_data x !! b ≫= λ hs, hs !! h.

(** The token positions of one (batch, head) slice of the keys, in the
    order [argsort] puts their norms. *)
Definition sorted_order (krows : list (list scalar)) : list nat :=
  argsort (l2norm <$> krows).

(** The rows of a slice listed in the order [idx]. *)
Definition reorder `{!Inhabited A} (idx : list nat) (rows : list A)
    : list A :=
  (λ i, rows !!! i) <$> idx.

(** The value of [tokens_to_keep] in the turn for a layer of [n] tokens.
    Where [math.ceil] raises there is none, and 0 stands in. *)
Definition tokens_to_keep (keep_ratio : number) (n : nat) : Z :=
  match ceil_product keep_ratio n with
  | Ok k => k
  | Raise _ => 0%Z
  end.

(** The length of the prefix [sorted_prefix] keeps of [n] rows. *)
Definition kept (keep_ratio : number) (n : nat) : nat :=
  slice_stop (tokens_to_keep keep_ratio n) n.

(** The positions kept in one slice and those dropped. *)
Definition kept_order (keep_ratio : number) (krows : list (list scalar))
    : list nat :=
  take (kept keep_ratio (length krows)) (sorted_order krows).

Definition dropped_order (keep_ratio : number) (krows : list (list scalar))
    : list nat :=
  drop (kept keep_ratio (length krows)) (sorted_order krows).

(** The pair [sorted_prefix] computes for a well-shaped layer, slice by
    slice: keys and values listed in the sorted order of the key norms and
    cut to the kept length. *)
Definition compacted (keep_ratio : number) (kv : cache_layer) : cache_layer :=
  let n := kept keep_ratio (t_seq kv.1) in
  (T4 (t_batch kv.1) (t_heads kv.1) n (t_dim kv.1)
      (lmap (lmap (λ krows, take n (reorder (sorted_order krows) krows)))
            (t_data kv.1)),
   T4 (t_batch kv.1) (t_heads kv.1) n (t_dim kv.1)
      (zip_with (zip_with (λ krows vrows,
                   take n (reorder (sorted_order krows) vrows)))
                (t_data kv.1) (t_data kv.2))).

(** ** What [argsort] promises *)

(** Every position [argsort] returns is a position of its argument. *)
Definition argsort_in_range : Prop :=
  ∀ v, Forall (λ i, i < length v) (argsort v).

(** Position [i] of [v] holds a value that is at most the one at [j]. *)
Definition le_at (v : list scalar) (i j : nat) : Prop :=
  ∃ x y, v !! i = Some x ∧ v !! j = Some y ∧ leb x y = true.

(** On a vector without NaN [argsort] returns the positions of the vector,
    each once, in an order in which the values ascend. *)
Record sorts : Prop := {
  sorts_perm : ∀ v, argsort v ≡ₚ seq 0 (length v);
  sorts_ascending : ∀ v, StronglySorted (le_at v) (argsort v)
}.

(** Two values neither of which is below the other: [argsort] is free to
    put either first. *)
Definition tied (x y : scalar) : Prop := leb x y = true ∧ leb y x = true.

(** No two rows of a slice have tied norms. *)
Definition untied (krows : list (list scalar)) : Prop :=
  StronglySorted (λ x y, ¬ tied x y) (l2norm <$> krows).

(** No two tokens of a (batch, head) slice of the keys have tied norms. *)
Definition distinct_norms (keys : tensor4 scalar) : Prop :=
  Forall (Forall untied) (t_data keys).

(** Token [i] of a slice has a key norm at most that of token [j]. *)
Definition norm_le (krows : list (list scalar)) (i j : nat) : Prop :=
  le_at (l2norm <$> krows) i j.

(** ** The loop, turn by turn *)

Variable keep_ratio : number.
Variable prune_after : Z.
Variable skip_layers : list Z.

(** One turn of the loop, as the new item at index [i]. *)
Definition layer_step (i : nat) (kv : cache_layer) : result cache_layer :=
  if (Z.of_nat (size2 kv.1) <? prune_after)%Z then Ok kv
  else
    new ← sorted_prefix l2norm argsort keep_ratio kv;
    Ok (if decide (Z.of_nat i ∈ skip_layers) then kv else new).

(** [enumerate(l, start)] *)
Definition enumerate_from {A} (start : nat) (l : list A) : list (nat * A) :=
  zip (seq start (length l)) l.

(** The layers the loop leaves as they are. *)
Definition passes_through (i : nat) (kv : cache_layer) : Prop :=
  Z.of_nat i ∈ skip_layers ∨ (Z.of_nat (size2 kv.1) < prune_after)%Z.

Global Instance passes_through_dec i kv : Decision (passes_through i kv).
Proof. unfold passes_through. apply _. Defined.

(** The turn for a layer goes through [sorted_prefix]. *)
Definition visited (kv : cache_layer) : Prop :=
  (prune_after ≤ Z.of_nat (size2 kv.1))%Z.

(** Keys and values of every layer are of one shape. *)
Definition well_shaped (pkv : list cache_layer) : Prop :=
  Forall (λ kv, wf4 kv.1 ∧ wf4 kv.2 ∧ same_shape kv.1 kv.2) pkv.

(** No layer the loop visits holds exactly one token. *)
Definition no_single_token (pkv : list cache_layer) : Prop :=
  Forall (λ kv, visited kv → size2 kv.1 ≠ 1) pkv.

(** Where [keep_ratio] is a [float], every [seq_len] is below [2^53] and
    so converted to a [float] without rounding. *)
Definition float_sized (pkv : list cache_layer) : Prop :=
  match keep_ratio with
  | Rat _ => True
  | Float _ => Forall (λ kv, (Z.of_nat (size2 kv.1) < 2 ^ 53)%Z) pkv
  end.

(** [math.ceil(keep_ratio * keys.size(2))] returns on every layer the loop
    visits. *)
Definition ceil_returns (pkv : list cache_layer) : Prop :=
  Forall (λ kv, visited kv → returns (ceil_product keep_ratio (size2 kv.1)))
         pkv.

(** ** Heaps *)

(** Every object of [h] other than the one at [q] is still there in
    [h']. *)
Definition preserves (q : loc) (h h' : heap scalar) : Prop :=
  ∀ l o, l ≠ q → h !! l = Some o → h' !! l = Some o.

(** [t] names a pair that did not exist in [h], of two tensors that did
    not exist in [h] either. *)
Definition fresh_pair (h h' : heap scalar) (t : loc) : Prop :=
  h !! t = None ∧
  ∃ a b, h' !! t = Some (PyTuple [a; b]) ∧ h !! a = None ∧ h !! b = None.

(** How a run of the loop on the heap, started in [h] on the list [items]
    at [q], matches the loop on values. *)
Definition loop_post (q : loc) (h : heap scalar) (items : list loc)
    (pure : result (list cache_layer)) (run : result (unit * heap scalar))
    : Prop :=
  match pure with
  | Ok out =>
      ∃ h' items',
        run = Ok (tt, h') ∧
        h' !! q = Some (PyList items') ∧ (q ∉ items') ∧
        Forall2 (λ l kv, pair_at h' l = Some kv) items' out ∧
        preserves q h h' ∧
        (∀ i t, items' !! i = Some t →
                items !! i = Some t ∨ fresh_pair h h' t)
  | Raise e => run = Raise e
  end.

(** How a call on the heap [h] with the object at [p] matches the call on
    the value held there. *)
Definition call_post (h : heap scalar) (p : loc)
    (pure : result (list cache_layer)) (run : result (loc * heap scalar))
    : Prop :=
  match pure with
  | Ok out =>
      ∃ q h' items items',
        run = Ok (q, h') ∧
        h ⊆ h' ∧ h !! q = None ∧
        snapshot_at h' q = Some out ∧
        items_at h p = Some items ∧ h' !! q = Some (PyList items') ∧
        (∀ i t, items' !! i = Some t →
                items !! i = Some t ∨ fresh_pair h h' t)
  | Raise e => run = Raise e
  end.

End Vocabulary.

(** The list the call returns on a cache of well-shaped layers, none of
    them a visited layer of one token, when [math.ceil] returns. *)
Definition compressed {scalar} (l2norm : list scalar → scalar)
    (argsort : list scalar → list nat) (keep_ratio : number) (prune_after : Z)
    (skip_layers : list Z) (pkv : list (layer_cache (scalar := scalar)))
    : list (layer_cache (scalar := scalar)) :=
  imap (λ i kv, if decide (passes_through prune_after skip_layers i kv)
                then kv
                else compacted l2norm argsort keep_ratio kv) pkv.

(** ** Values larger than the keys *)

(** [values[:B, :H, :S, :D]] for the shape [(B, H, S, D)] of [keys]. *)
Definition crop_like {A B} (keys : tensor4 B) (values : tensor4 A)
    : tensor4 A :=
  T4 (t_batch keys) (t_heads keys) (t_seq keys) (t_dim keys)
     (take (t_batch keys)
        (lmap (λ hs, take (t_heads keys)
                 (lmap (λ rows, take (t_seq keys)
                          (lmap (take (t_dim keys)) rows)) hs))
              (t_data values))).

(** Both tensors are well formed and [values] is at least as large as
    [keys] on every axis. *)
Definition values_cover {A B} (kv : tensor4 A * tensor4 B) : Prop :=
  wf4 kv.1 ∧ wf4 kv.2 ∧
  t_batch kv.1 ≤ t_batch kv.2 ∧ t_heads kv.1 ≤ t_heads kv.2 ∧
  t_seq kv.1 ≤ t_seq kv.2 ∧ t_dim kv.1 ≤ t_dim kv.2.

(** The shape conditions can be decided by computation. *)
Section Decisions.
Context {scalar : Type}.

Global Instance returns_dec {A} (r : result A) : Decision (returns r).
Proof. destruct r; apply _. Defined.

Global Instance rect_dec {A} n m (rows : list (list A)) :
  Decision (rect n m rows).
Proof. unfold rect. apply _. Defined.

Global Instance rect4_dec {A} B H S D (data : list (list (list (list A)))) :
  Decision (rect4 B H S D data).
Proof. unfold rect4. apply _. Defined.

Global Instance wf4_dec {A} (x : tensor4 A) : Decision (wf4 x).
Proof. unfold wf4. apply _. Defined.

Global Instance same_shape_dec {A B} (x : tensor4 A) (y : tensor4 B) :
  Decision (same_shape x y).
Proof. unfold same_shape. apply _. Defined.

Global Instance visited_dec prune_after
    (kv : layer_cache (scalar := scalar)) :
  Decision (visited prune_after kv).
Proof. unfold visited. apply _. Defined.

Global Instance well_shaped_dec
    (pkv : list (layer_cache (scalar := scalar))) :
  Decision (well_shaped pkv).
Proof. unfold well_shaped. apply _. Defined.

Global Instance no_single_token_dec prune_after
    (pkv : list (layer_cache (scalar := scalar))) :
  Decision (no_single_token prune_after pkv).
Proof. unfold no_single_token. apply _. Defined.

Global Instance binary64_dec x : Decision (binary64 x).
Proof. destruct x; apply _. Defined.

Global Instance float_sized_dec keep_ratio
    (pkv : list (layer_cache (scalar := scalar))) :
  Decision (float_sized keep_ratio pkv).
Proof. destruct keep_ratio; apply _. Defined.

Global Instance ceil_returns_dec keep_ratio prune_after
    (pkv : list (layer_cache (scalar := scalar))) :
  Decision (ceil_returns keep_ratio prune_after pkv).
Proof. unfold ceil_returns. apply _. Defined.


Global Instance tied_dec leb (x y : scalar) : Decision (tied leb x y).
Proof. unfold tied. apply _. Defined.

Global Instance untied_dec leb l2norm (krows : list (list scalar)) :
  Decision (untied leb l2norm krows).
Proof. unfold untied. apply _. Defined.

Global Instance distinct_norms_dec leb l2norm (keys : tensor4 scalar) :
  Decision (distinct_norms leb l2norm keys).
Proof. unfold distinct_norms. apply _. Defined.

Global Instance values_cover_dec {A B} (kv : tensor4 A * tensor4 B) :
  Decision (values_cover kv).
Proof. unfold values_cover. apply _. Defined.
End Decisions.

(** * An instance on exact numbers *)

(** Integer entries, scored by the squared Euclidean norm (which orders
    vectors of exact numbers as the Euclidean norm does), sorted by
    insertion. *)
Module Exact.

Definition sqnorm (v : list Z) : Z := foldr (λ x acc, x * x + acc)%Z 0%Z v.

(** Insertion into a list of (score, position) pairs sorted by score,
    before the entries of equal score. *)
Fixpoint ins (p : Z * nat) (l : list (Z * nat)) : list (Z * nat) :=
  match l with
  | [] => [p]
  | q :: l' => if (p.1 <=? q.1)%Z then p :: l else q :: ins p l'
  end.

Definition isort (v : list Z) : list nat :=
  snd <$> foldr ins [] (zip v (seq 0 (length v))).

(** The sorting routine of the instance; it lists equal scores in their
    original order. *)
Definition argsort_stable : list Z → list nat := isort.

(** A tensor of the given entries, shaped after them. *)
Definition from_rows (data : list (list (list (list Z)))) : tensor4 Z :=
  let heads := default [] (head data) in
  let rows := default [] (head heads) in
  T4 (length data) (length heads) (length rows)
     (length (default [] (head rows))) data.

Definition compress := l2_compress sqnorm argsort_stable.

(** The numbers of key tokens and of value tokens of the layers a call
    returns. *)
Definition seq_lens (r : result (list (tensor4 Z * tensor4 Z)))
    : result (list (nat * nat)) :=
  match r with
  | Ok out => Ok ((λ kv, (size2 kv.1, size2 kv.2)) <$> out)
  | Raise e => Raise e
  end.

(** The order the routine keeps its (score, position) pairs in. *)
Definition score_le (p q : Z * nat) : Prop := (p.1 ≤ q.1)%Z.

(** Thirteen tokens, one head; the value row of a token holds its
    position. *)
Definition keys13 : tensor4 Z :=
  from_rows [[ [[3]; [1]; [2]; [1]; [0]; [7]; [-1]; [4]; [9]; [-3]; [5];
                [6]; [8]] ]]%Z.
Definition values13 : tensor4 Z :=
  from_rows [[ [[0]; [1]; [2]; [3]; [4]; [5]; [6]; [7]; [8]; [9]; [10];
                [11]; [12]] ]]%Z.

(** Two tokens, the one of larger norm first. *)
Definition keys2 : tensor4 Z := from_rows [[ [[2; 0]; [0; 1]] ]]%Z.
Definition values2 : tensor4 Z := from_rows [[ [[0; 0]; [1; 1]] ]]%Z.

(** Thirteen tokens of thirteen different norms. *)
Definition keys13d : tensor4 Z :=
  from_rows [[ [[3]; [1]; [2]; [12]; [0]; [7]; [10]; [4]; [9]; [11]; [5];
                [6]; [8]] ]]%Z.

(** [n] tokens, one head; the row of a token holds its position. *)
Definition counting (n : nat) : tensor4 Z :=
  from_rows [[ (λ i, [Z.of_nat i]) <$> seq 0 n ]].

(** One token. *)
Definition keys1 : tensor4 Z := from_rows [[ [[3; 4]] ]]%Z.
Definition values1 : tensor4 Z := from_rows [[ [[5; 6]] ]]%Z.

(** No token. *)
Definition keys0 : tensor4 Z := T4 1 1 0 1 [[ [] ]].
Definition values0 : tensor4 Z := T4 1 1 0 1 [[ [] ]].

(** Three layers, as in the second cell of the notebook on a smaller
    cache: the first is listed in [skip_layers = [0]], the last is shorter
    than [prune_after = 5]. *)
Definition demo_cache : list (tensor4 Z * tensor4 Z) :=
  [(keys13, values13); (keys13, values13); (keys2, values2)].

(** A heap holding [demo_cache] as a tuple of tuples at location 1. *)
Definition demo_heap : heap Z :=
  {[ 1%positive := PyTuple [2; 5; 8]%positive;
     2%positive := PyTuple [3; 4]%positive;
     3%positive := PyTensor keys13;
     4%positive := PyTensor values13;
     5%positive := PyTuple [6; 7]%positive;
     6%positive := PyTensor keys13;
     7%positive := PyTensor values13;
     8%positive := PyTuple [9; 10]%positive;
     9%positive := PyTensor keys2;
     10%positive := PyTensor values2 ]}.
End Exact.

(** * Lemmas *)

(** ** Lists and the error monad *)

(** [mapM] in the error monad. *)
Lemma mapM_Ok {A B} (f : A → result B) (l : list A) (k : list B) :
  mapM f l = Ok k ↔ Forall2 (λ x y, f x = Ok y) l k.
Proof.
  revert k. induction l as [|x l IH]; intros k; simpl.
  - split; [intros [= <-]; constructor|by inversion 1].
  - unfold mbind, result_bind at 1. destruct (f x) as [y|e] eqn:Hx.
    + unfold mbind, result_bind at 1.
      destruct (mapM f l) as [k'|e] eqn:Hl.
      * split.
        -- unfold mret, result_ret. intros [= <-].
           constructor; [done|by apply IH].
        -- inversion 1 as [|? y' ? k'' Hy Hk]; simplify_eq.
           apply IH in Hk. unfold mret, result_ret. congruence.
      * split; [done|]. inversion 1 as [|? y' ? k'' Hy Hk]; simplify_eq.
        apply IH in Hk. congruence.
    + split; [done|]. inversion 1; congruence.
Qed.

Lemma mapM_Raise {A B} (f : A → result B) (l : list A) (e : exn) :
  mapM f l = Raise e → ∃ i x, l !! i = Some x ∧ f x = Raise e.
Proof.
  induction l as [|x l IH]; simpl; [done|].
  unfold mbind, result_bind at 1. destruct (f x) as [y|e'] eqn:Hx.
  - unfold mbind, result_bind at 1. destruct (mapM f l) as [k'|e'] eqn:Hl;
      [done|].
    intros [= ->]. destruct IH as (i & x' & Hi & Hx'); [done|].
    by exists (S i), x'.
  - intros [= ->]. by exists 0, x.
Qed.

Lemma mapM_Raise_ex {A B} (f : A → result B) (l : list A) i x e :
  l !! i = Some x → f x = Raise e → ∃ e', mapM f l = Raise e'.
Proof.
  revert i. induction l as [|y l IH]; intros [|i] Hi Hx; simpl in Hi;
    simplify_eq; cbn [mapM].
  - rewrite Hx. by eexists.
  - destruct (f y); [|by eexists].
    destruct (IH _ Hi Hx) as [e' ->]. by eexists.
Qed.

Lemma StronglySorted_lookup {A} (R : relation A) (l : list A) i j x y :
  StronglySorted R l →
  l !! i = Some x → l !! j = Some y → i < j → R x y.
Proof.
  intros Hl Hi Hj Hij. rewrite <-(take_drop j l) in Hl.
  eapply StronglySorted_app_1_elem_of; [exact Hl| |].
  - apply elem_of_take. eauto.
  - apply list_elem_of_lookup. exists 0. by rewrite lookup_drop, Nat.add_0_r.
Qed.

Lemma StronglySorted_fmap_elem_of {A B} (R : relation A) (R' : relation B)
    (f : A → B) (l : list A) :
  (∀ x y, x ∈ l → y ∈ l → R x y → R' (f x) (f y)) →
  StronglySorted R l → StronglySorted R' (f <$> l).
Proof.
  intros HR Hl. induction Hl as [|x l Hl IH Hx]; csimpl; constructor.
  - apply IH. intros y z Hy Hz. apply HR; by constructor.
  - apply Forall_fmap, Forall_forall. intros y Hy.
    rewrite Forall_forall in Hx. apply HR; [by constructor..|auto].
Qed.

(** ** The ceiling of the product *)


(** Where [math.ceil] returns, it returns [tokens_to_keep]. *)
Lemma ceil_product_returns keep_ratio n :
  returns (ceil_product keep_ratio n) →
  ceil_product keep_ratio n = Ok (tokens_to_keep keep_ratio n).
Proof. unfold tokens_to_keep. by destruct (ceil_product keep_ratio n). Qed.

Lemma ceil_product_Ok keep_ratio n k :
  ceil_product keep_ratio n = Ok k → tokens_to_keep keep_ratio n = k.
Proof. unfold tokens_to_keep. by intros ->. Qed.

(** On an exact [keep_ratio] the product and its ceiling are always
    defined. *)
Lemma ceil_product_Rat (keep_ratio : Q) n :
  ceil_product keep_ratio n =
  Ok (Qceiling (keep_ratio * inject_Z (Z.of_nat n))).
Proof. done. Qed.

Lemma tokens_to_keep_Rat (keep_ratio : Q) n :
  tokens_to_keep keep_ratio n =
  Qceiling (keep_ratio * inject_Z (Z.of_nat n)).
Proof. done. Qed.

Lemma ceil_product_Rat_returns (keep_ratio : Q) n :
  returns (ceil_product keep_ratio n).
Proof. done. Qed.

(** ** Binary64 arithmetic *)

Section FloatFacts.
Local Open Scope Z_scope.

Lemma Qpower_2_pos e : (0 < 2 ^ e)%Q.
Proof.
  destruct e as [|p|p]; [done| |].
  - change (0 < Qpower_positive 2 p)%Q.
    assert (inject_Z (2 ^ Z.pos p) == 2 ^ Z.pos p)%Q as <-
      by (by apply Zpower_Qpower).
    change 0%Q with (inject_Z 0). rewrite <-Zlt_Qlt. lia.
  - simpl. apply Qinv_lt_0_compat.
    assert (inject_Z (2 ^ Z.pos p) == 2 ^ Z.pos p)%Q as Heq
      by (by apply Zpower_Qpower).
    simpl in Heq. rewrite <-Heq.
    change 0%Q with (inject_Z 0). rewrite <-Zlt_Qlt. lia.
Qed.

Lemma Qpower_2_add a b : (2 ^ (a + b) == 2 ^ a * 2 ^ b)%Q.
Proof. by apply Qpower_plus. Qed.

Lemma F2Q_shift m e k : 0 ≤ k → (F2Q (m * 2 ^ k) e == F2Q m (e + k))%Q.
Proof.
  intros Hk. unfold F2Q.
  rewrite inject_Z_mult, Zpower_Qpower, Qpower_2_add by done.
  change (inject_Z 2) with 2%Q. ring.
Qed.

Lemma F2Q_le m m' e : m ≤ m' → (F2Q m e <= F2Q m' e)%Q.
Proof.
  intros Hm. unfold F2Q. apply Qmult_le_compat_r.
  - by rewrite <-Zle_Qle.
  - apply Qlt_le_weak, Qpower_2_pos.
Qed.

Lemma F2Q_le_inv m m' e : (F2Q m e <= F2Q m' e)%Q → m ≤ m'.
Proof.
  unfold F2Q. intros Hm. rewrite Zle_Qle.
  by apply Qmult_le_r in Hm; [|apply Qpower_2_pos].
Qed.

Lemma F2Q_lt_inv m m' e : (F2Q m e < F2Q m' e)%Q → m < m'.
Proof.
  unfold F2Q. intros Hm. rewrite Zlt_Qlt.
  by apply Qmult_lt_r in Hm; [|apply Qpower_2_pos].
Qed.

Lemma F2Q_exp_le m e e' : 0 ≤ m → e ≤ e' → (F2Q m e <= F2Q m e')%Q.
Proof.
  intros Hm He. unfold F2Q. rewrite !(Qmult_comm (inject_Z m)).
  apply Qmult_le_compat_r.
  - by apply Qpower_le_compat_l.
  - change 0%Q with (inject_Z 0). by rewrite <-Zle_Qle.
Qed.

Lemma F2Q_mult m e m' e' :
  (F2Q (m * m') (e + e') == F2Q m e * F2Q m' e')%Q.
Proof. unfold F2Q. rewrite inject_Z_mult, Qpower_2_add. ring. Qed.

Lemma F2Q_0 m : (F2Q m 0 == inject_Z m)%Q.
Proof. unfold F2Q. simpl. ring. Qed.

Lemma F2Q_pos m e : 0 < m → (0 < F2Q m e)%Q.
Proof.
  intros Hm. unfold F2Q. apply Qmult_lt_0_compat; [|apply Qpower_2_pos].
  change 0%Q with (inject_Z 0). by rewrite <-Zlt_Qlt.
Qed.

(** The number of binary digits *)
Lemma digits2_pos_bounds m :
  2 ^ (Z.pos (digits2_pos m) - 1) ≤ Z.pos m < 2 ^ Z.pos (digits2_pos m).
Proof.
  induction m as [m IH|m IH|]; simpl digits2_pos;
    rewrite ?Pos2Z.inj_succ; [| |simpl; lia].
  - replace (Z.succ (Z.pos (digits2_pos m)) - 1)
      with (Z.succ (Z.pos (digits2_pos m) - 1)) by lia.
    rewrite !Z.pow_succ_r by lia. lia.
  - replace (Z.succ (Z.pos (digits2_pos m)) - 1)
      with (Z.succ (Z.pos (digits2_pos m) - 1)) by lia.
    rewrite !Z.pow_succ_r by lia. lia.
Qed.

(** Shifting right divides the mantissa. *)
Lemma shr_1_m mrs : 0 ≤ shr_m mrs → shr_m (shr_1 mrs) = shr_m mrs / 2.
Proof.
  destruct mrs as [[|[p|p|]|p] r s]; simpl; intros Hm; try lia; try done.
  - apply (Z.div_unique _ _ _ 1); lia.
  - apply (Z.div_unique _ _ _ 0); lia.
Qed.

Lemma iter_pos_shr_1_m p mrs :
  0 ≤ shr_m mrs →
  shr_m (SpecFloat.iter_pos shr_1 p mrs) = shr_m mrs / 2 ^ Z.pos p.
Proof.
  revert mrs. induction p as [p IH|p IH|]; intros mrs Hm; simpl SpecFloat.iter_pos.
  - assert (0 ≤ shr_m (shr_1 mrs))
      by (rewrite shr_1_m by done; by apply Z.div_pos).
    assert (0 ≤ shr_m (SpecFloat.iter_pos shr_1 p (shr_1 mrs)))
      by (rewrite IH by done; apply Z.div_pos; lia).
    rewrite !IH, shr_1_m by done.
    rewrite !Z.div_div by lia. f_equal.
    rewrite Pos2Z.inj_xI.
    replace (2 * Z.pos p + 1) with (Z.succ (Z.pos p + Z.pos p)) by lia.
    rewrite Z.pow_succ_r, Z.pow_add_r by lia. ring.
  - assert (0 ≤ shr_m (SpecFloat.iter_pos shr_1 p mrs))
      by (rewrite IH by done; apply Z.div_pos; lia).
    rewrite !IH by done.
    rewrite !Z.div_div by lia. f_equal.
    replace (Z.pos p~0) with (Z.pos p + Z.pos p) by lia.
    rewrite Z.pow_add_r by lia. ring.
  - by rewrite shr_1_m.
Qed.

Lemma shr_m_of_loc m l : shr_m (shr_record_of_loc m l) = m.
Proof. by destruct l as [|[]]. Qed.

Lemma shr_fexp_m m e l :
  0 ≤ m →
  let k := fexp 53 1024 (Zdigits2 m + e) - e in
  shr_fexp 53 1024 m e l =
  (if decide (0 < k) then
     (SpecFloat.iter_pos shr_1 (Z.to_pos k) (shr_record_of_loc m l), e + k)
   else (shr_record_of_loc m l, e)) ∧
  shr_m (shr_fexp 53 1024 m e l).1 = (if decide (0 < k) then m / 2 ^ k else m).
Proof.
  intros Hm k. unfold shr_fexp. fold k.
  destruct k as [|p|p]; simpl; rewrite ?shr_m_of_loc; [done| |done].
  split; [done|]. by rewrite iter_pos_shr_1_m, shr_m_of_loc
    by (by rewrite shr_m_of_loc).
Qed.

(** Cutting a mantissa to the binary64 format leaves it on or above every
    number of the format below it. *)
Lemma shr_fexp_lower m e l G eg :
  0 < m → 0 < G ≤ 2 ^ 53 → -1074 ≤ eg →
  (F2Q G eg <= F2Q m e)%Q →
  (F2Q G eg <= F2Q (shr_m (shr_fexp 53 1024 m e l).1)
                   (shr_fexp 53 1024 m e l).2)%Q.
Proof.
  intros Hm HG Heg Hle.
  destruct (shr_fexp_m m e l) as [Heq Hshr]; [lia|].
  rewrite Hshr, Heq. clear Heq Hshr.
  set (k := fexp 53 1024 (Zdigits2 m + e) - e).
  destruct (decide (0 < k)) as [Hk|Hk]; [|done]. cbn [snd].
  destruct m as [|p|p]; [lia| |lia]. cbn [Zdigits2] in k.
  pose proof (digits2_pos_bounds p) as Hd.
  set (d := Z.pos (digits2_pos p)) in *.
  assert (fexp 53 1024 (d + e) = Z.max (d + e - 53) (-1074)) as Hfexp by done.
  destruct (decide (e + k ≤ eg)) as [Hgrid|Hgrid].
  - (* the number is on the grid the mantissa is cut to *)
    assert (F2Q G eg == F2Q (G * 2 ^ (eg - (e + k))) (e + k))%Q as HG'.
    { rewrite F2Q_shift by lia. by replace (e + k + (eg - (e + k))) with eg by lia. }
    rewrite HG'. apply F2Q_le. apply Z.div_le_lower_bound; [lia|].
    apply (F2Q_le_inv _ _ e).
    rewrite Z.mul_comm, F2Q_shift, <-HG' by lia. done.
  - (* the cut mantissa has 53 digits *)
    assert (k = d - 53) as Hkd by lia.
    assert (2 ^ 52 ≤ Z.pos p / 2 ^ k).
    { apply Z.div_le_lower_bound; [lia|].
      rewrite <-Z.pow_add_r by lia.
      replace (k + 52) with (d - 1) by lia. lia. }
    eapply Qle_trans; [apply (F2Q_le _ (2 ^ 52 * 2 ^ 1)); lia|].
    rewrite F2Q_shift by lia.
    eapply Qle_trans; [apply (F2Q_exp_le _ _ (e + k)); lia|].
    by apply F2Q_le.
Qed.

Lemma round_nearest_even_ge m l : m ≤ round_nearest_even m l.
Proof.
  destruct l as [|[]]; simpl; try lia. destruct (Z.even m); lia.
Qed.

(** Rounding to binary64 leaves a number on or above every number of the
    format below it. *)
Lemma binary_round_aux_lower s m e G eg :
  0 < m → 0 < G ≤ 2 ^ 53 → -1074 ≤ eg →
  (F2Q G eg <= F2Q m e)%Q →
  match binary_round_aux 53 1024 s m e loc_Exact with
  | S754_finite s' m' e' => s' = s ∧ (F2Q G eg <= F2Q (Z.pos m') e')%Q
  | S754_infinity s' => s' = s
  | _ => False
  end.
Proof.
  intros Hm HG Heg Hle. unfold binary_round_aux.
  pose proof (shr_fexp_lower m e loc_Exact G eg Hm HG Heg Hle) as H1.
  destruct (shr_fexp 53 1024 m e loc_Exact) as [mrs1 e1]. cbn [fst snd] in H1.
  set (m2 := round_nearest_even (shr_m mrs1) (loc_of_shr_record mrs1)).
  assert (0 < shr_m mrs1) as Hm1.
  { apply (F2Q_lt_inv _ _ e1). eapply Qlt_le_trans; [|exact H1].
    unfold F2Q at 1. rewrite Qmult_0_l. apply F2Q_pos. lia. }
  assert (shr_m mrs1 ≤ m2) as Hm2 by apply round_nearest_even_ge.
  assert (F2Q G eg <= F2Q m2 e1)%Q as H2
    by (eapply Qle_trans; [exact H1|by apply F2Q_le]).
  pose proof (shr_fexp_lower m2 e1 loc_Exact G eg ltac:(lia) HG Heg H2) as H3.
  destruct (shr_fexp 53 1024 m2 e1 loc_Exact) as [mrs3 e3].
  cbn [fst snd] in H3.
  assert (0 < shr_m mrs3) as Hm3.
  { apply (F2Q_lt_inv _ _ e3). eapply Qlt_le_trans; [|exact H3].
    unfold F2Q at 1. rewrite Qmult_0_l. apply F2Q_pos. lia. }
  destruct (shr_m mrs3) as [|m3|m3]; [lia| |lia].
  by destruct (e3 <=? 1024 - 53).
Qed.

(** *** Rounding from above *)

Lemma shr_1_exact mrs :
  0 ≤ shr_m mrs → inexact mrs = false → (2 | shr_m mrs) →
  inexact (shr_1 mrs) = false.
Proof.
  destruct mrs as [[|[p|p|]|p] [] []]; simpl; intros Hm Hex [c Hc];
    try done; lia.
Qed.

Lemma divide_pow_div a b m :
  0 ≤ a → 0 ≤ b → (2 ^ (a + b) | m) → (2 ^ a | m) ∧ (2 ^ b | m / 2 ^ a).
Proof.
  intros Ha Hb [c Hc]. rewrite Z.pow_add_r in Hc by done. split.
  - exists (c * 2 ^ b). rewrite Hc. ring.
  - exists c. assert (m = c * 2 ^ b * 2 ^ a) as -> by (rewrite Hc; ring).
    by rewrite Z.div_mul by lia.
Qed.

Lemma iter_pos_shr_1_exact p mrs :
  0 ≤ shr_m mrs → inexact mrs = false → (2 ^ Z.pos p | shr_m mrs) →
  inexact (SpecFloat.iter_pos shr_1 p mrs) = false.
Proof.
  revert mrs. induction p as [p IH|p IH|]; intros mrs Hm Hex Hdiv;
    simpl SpecFloat.iter_pos.
  - replace (Z.pos p~1) with (1 + (Z.pos p + Z.pos p)) in Hdiv by lia.
    apply divide_pow_div in Hdiv as [H2 Hdiv]; [|lia..].
    rewrite <-shr_1_m in Hdiv by done.
    apply divide_pow_div in Hdiv as [Hp Hdiv]; [|lia..].
    rewrite <-iter_pos_shr_1_m in Hdiv
      by (rewrite shr_1_m by done; by apply Z.div_pos).
    assert (0 ≤ shr_m (shr_1 mrs))
      by (rewrite shr_1_m by done; by apply Z.div_pos).
    apply IH; [|apply IH; [done|by apply shr_1_exact|done]|done].
    rewrite iter_pos_shr_1_m by done. apply Z.div_pos; lia.
  - replace (Z.pos p~0) with (Z.pos p + Z.pos p) in Hdiv by lia.
    apply divide_pow_div in Hdiv as [Hp Hdiv]; [|lia..].
    rewrite <-iter_pos_shr_1_m in Hdiv by done.
    apply IH; [|by apply IH|done].
    rewrite iter_pos_shr_1_m by done. apply Z.div_pos; lia.
  - by apply shr_1_exact.
Qed.

Lemma round_nearest_even_exact mrs :
  inexact mrs = false →
  round_nearest_even (shr_m mrs) (loc_of_shr_record mrs) = shr_m mrs.
Proof. by destruct mrs as [m [] []]. Qed.

Lemma round_nearest_even_le m l : round_nearest_even m l ≤ m + 1.
Proof.
  destruct l as [|[]]; simpl; try lia. destruct (Z.even m); lia.
Qed.

(** The exponent a mantissa is cut to is at most that of a number of the
    format above it. *)
Lemma fexp_le_grid m e G eg :
  0 < m → 0 < G < 2 ^ 53 → -1074 ≤ eg →
  (F2Q m e <= F2Q G eg)%Q →
  fexp 53 1024 (Zdigits2 m + e) ≤ eg.
Proof.
  intros Hm HG Heg Hle. destruct m as [|p|p]; [lia| |lia].
  cbn [Zdigits2]. pose proof (digits2_pos_bounds p) as Hd.
  set (d := Z.pos (digits2_pos p)) in *.
  assert (1 ≤ d) by (unfold d; lia).
  unfold fexp, emin. apply Z.max_lub; [|lia].
  destruct (decide (d + e - 53 ≤ eg)) as [|Hgt]; [done|exfalso].
  apply (Qlt_irrefl (F2Q (Z.pos p) e)).
  eapply Qle_lt_trans; [exact Hle|].
  eapply Qlt_le_trans; [|apply (F2Q_le (2 ^ (d - 1))); lia].
  eapply Qlt_le_trans; [|apply (F2Q_exp_le _ (eg + 53 - (d - 1))); lia].
  assert (F2Q (1 * 2 ^ (d - 1)) (eg + 53 - (d - 1)) == F2Q (1 * 2 ^ 53) eg)%Q
    as Heq.
  { rewrite !F2Q_shift by lia. by replace (eg + 53 - (d - 1) + (d - 1))
      with (eg + 53) by lia. }
  rewrite !Z.mul_1_l in Heq. rewrite Heq.
  unfold F2Q. apply Qmult_lt_compat_r; [apply Qpower_2_pos|].
  rewrite <-Zlt_Qlt. lia.
Qed.

(** Cutting a mantissa and rounding it to nearest stays on or below every
    number of the format above it. *)
Lemma shr_fexp_round_upper m e G eg :
  0 < m → 0 < G < 2 ^ 53 → -1074 ≤ eg →
  (F2Q m e <= F2Q G eg)%Q →
  let mrs := (shr_fexp 53 1024 m e loc_Exact).1 in
  let e' := (shr_fexp 53 1024 m e loc_Exact).2 in
  (F2Q (round_nearest_even (shr_m mrs) (loc_of_shr_record mrs)) e'
     <= F2Q G eg)%Q.
Proof.
  intros Hm HG Heg Hle.
  pose proof (fexp_le_grid m e G eg Hm HG Heg Hle) as Hgrid.
  destruct (shr_fexp_m m e loc_Exact) as [Heq Hshr]; [lia|].
  cbv zeta. rewrite Heq. clear Hshr.
  set (k := fexp 53 1024 (Zdigits2 m + e) - e) in *.
  destruct (decide (0 < k)) as [Hk|Hk]; cbn [fst snd]; [|done].
  set (mrs := SpecFloat.iter_pos shr_1 (Z.to_pos k)
                (shr_record_of_loc m loc_Exact)).
  assert (shr_m mrs = m / 2 ^ k) as Hm1.
  { unfold mrs. rewrite iter_pos_shr_1_m by (cbn; lia).
    rewrite Z2Pos.id by done. done. }
  assert (F2Q G eg == F2Q (G * 2 ^ (eg - (e + k))) (e + k))%Q as HG'.
  { rewrite F2Q_shift by lia.
    by replace (e + k + (eg - (e + k))) with eg by lia. }
  set (G' := G * 2 ^ (eg - (e + k))) in *.
  assert (m ≤ G' * 2 ^ k) as HmG.
  { apply (F2Q_le_inv _ _ e). rewrite F2Q_shift, <-HG' by lia. done. }
  rewrite HG'. apply F2Q_le.
  destruct (decide (m mod 2 ^ k = 0)) as [Hdiv|Hdiv];
    rewrite Z.mod_divide in Hdiv by lia.
  - rewrite round_nearest_even_exact.
    + rewrite Hm1. apply Z.div_le_upper_bound; lia.
    + unfold mrs. apply iter_pos_shr_1_exact; [cbn; lia|done|].
      rewrite Z2Pos.id by done. done.
  - eapply Z.le_trans; [apply round_nearest_even_le|]. rewrite Hm1.
    assert (m / 2 ^ k < G'); [|lia].
    apply Z.div_lt_upper_bound; [lia|].
    assert (m ≠ G' * 2 ^ k) by (intros Hm'; apply Hdiv; by exists G').
    lia.
Qed.

Lemma shr_fexp_le m e l :
  0 ≤ m →
  (F2Q (shr_m (shr_fexp 53 1024 m e l).1) (shr_fexp 53 1024 m e l).2
     <= F2Q m e)%Q.
Proof.
  intros Hm. destruct (shr_fexp_m m e l) as [Heq Hshr]; [lia|].
  rewrite Hshr, Heq. clear Heq Hshr.
  set (k := fexp 53 1024 (Zdigits2 m + e) - e).
  destruct (decide (0 < k)) as [Hk|Hk]; cbn [snd]; [|apply Qle_refl].
  rewrite <-F2Q_shift by lia. apply F2Q_le.
  rewrite Z.mul_comm. apply Z.mul_div_le. lia.
Qed.

(** Rounding to binary64 leaves a number on or below every number of the
    format above it; in particular it does not overflow. *)
Lemma binary_round_aux_upper s m e G eg :
  0 < m → e ≤ 971 → 0 < G < 2 ^ 53 → -1074 ≤ eg ≤ 971 →
  (F2Q m e <= F2Q G eg)%Q →
  match binary_round_aux 53 1024 s m e loc_Exact with
  | S754_finite s' m' e' => s' = s ∧ (F2Q (Z.pos m') e' <= F2Q G eg)%Q
  | S754_zero s' => s' = s
  | _ => False
  end.
Proof.
  intros Hm He HG Heg Hle. unfold binary_round_aux.
  pose proof (shr_fexp_round_upper m e G eg Hm HG ltac:(lia) Hle) as H2.
  cbv zeta in H2.
  assert (0 ≤ shr_m (shr_fexp 53 1024 m e loc_Exact).1) as Hm1.
  { destruct (shr_fexp_m m e loc_Exact) as [_ ->]; [lia|].
    case_decide; [apply Z.div_pos|]; lia. }
  assert ((shr_fexp 53 1024 m e loc_Exact).2 ≤ 971) as He1.
  { destruct (shr_fexp_m m e loc_Exact) as [-> _]; [lia|].
    pose proof (fexp_le_grid m e G eg Hm HG ltac:(lia) Hle).
    case_decide; cbn [snd]; lia. }
  destruct (shr_fexp 53 1024 m e loc_Exact) as [mrs1 e1]. cbn [fst snd] in *.
  set (m2 := round_nearest_even (shr_m mrs1) (loc_of_shr_record mrs1)) in *.
  assert (0 ≤ m2) as Hm2.
  { pose proof (round_nearest_even_ge (shr_m mrs1) (loc_of_shr_record mrs1)).
    unfold m2. lia. }
  pose proof (shr_fexp_le m2 e1 loc_Exact Hm2) as H3.
  assert (0 ≤ shr_m (shr_fexp 53 1024 m2 e1 loc_Exact).1) as Hm3.
  { destruct (shr_fexp_m m2 e1 loc_Exact) as [_ ->]; [lia|].
    case_decide; [apply Z.div_pos|]; lia. }
  assert ((shr_fexp 53 1024 m2 e1 loc_Exact).2 ≤ 971) as He3.
  { destruct (shr_fexp_m m2 e1 loc_Exact) as [-> _]; [lia|].
    case_decide; cbn [snd]; [|lia].
    destruct (decide (m2 = 0)) as [Hm20|Hm20].
    - rewrite Hm20. cbn [Zdigits2]. unfold fexp, emin. lia.
    - pose proof (fexp_le_grid m2 e1 G eg ltac:(lia) HG ltac:(lia) H2). lia. }
  destruct (shr_fexp 53 1024 m2 e1 loc_Exact) as [mrs3 e3].
  cbn [fst snd] in *.
  destruct (shr_m mrs3) as [|m3|m3]; [done| |lia].
  rewrite (proj2 (Z.leb_le e3 (1024 - 53))) by lia.
  split; [done|]. by eapply Qle_trans.
Qed.


Lemma float_value_F2Q m e :
  float_value (S754_finite false m e) = F2Q (Z.pos m) e.
Proof. done. Qed.

(** A mantissa of 53 digits is not rounded. *)
Lemma binary_round_aux_exact s m e :
  Z.pos (digits2_pos m) = 53 → -1074 ≤ e ≤ 971 →
  binary_round_aux 53 1024 s (Z.pos m) e loc_Exact = S754_finite s m e.
Proof.
  intros Hd He. unfold binary_round_aux, shr_fexp. cbn [Zdigits2].
  rewrite Hd.
  assert (fexp 53 1024 (53 + e) - e = 0) as ->
    by (unfold fexp, emin; lia).
  cbn [shr shr_record_of_loc shr_m loc_of_shr_record round_nearest_even
       Zdigits2].
  rewrite Hd.
  assert (fexp 53 1024 (53 + e) - e = 0) as ->
    by (unfold fexp, emin; lia).
  cbn [shr shr_record_of_loc shr_m].
  by rewrite (proj2 (Z.leb_le e (1024 - 53))) by lia.
Qed.

Lemma iter_xO_value m d : Z.pos (Pos.iter xO m d) = Z.pos m * 2 ^ Z.pos d.
Proof.
  induction d as [|d IH] using Pos.peano_ind.
  - simpl. lia.
  - rewrite Pos.iter_succ, Pos2Z.inj_succ, Z.pow_succ_r by lia.
    rewrite Pos2Z.inj_xO, IH. ring.
Qed.

Lemma iter_xO_digits m d :
  Z.pos (digits2_pos (Pos.iter xO m d)) = Z.pos (digits2_pos m) + Z.pos d.
Proof.
  induction d as [|d IH] using Pos.peano_ind.
  - simpl. lia.
  - rewrite Pos.iter_succ. simpl digits2_pos. lia.
Qed.

(** [float(n)] is [n] when [n] is below [2^53]. *)
Lemma float_of_nat_exact (n : nat) :
  0 < Z.of_nat n < 2 ^ 53 →
  ∃ m e,
    float_of_nat n = Ok (S754_finite false m e) ∧
    (F2Q (Z.pos m) e == inject_Z (Z.of_nat n))%Q ∧
    2 ^ 52 ≤ Z.pos m < 2 ^ 53 ∧ -52 ≤ e ≤ 0.
Proof.
  intros Hn. unfold float_of_nat.
  destruct (Z.of_nat n) as [|p|p] eqn:Hp; [lia| |lia].
  cbn [binary_normalize]. unfold binary_round.
  pose proof (digits2_pos_bounds p) as Hd.
  set (d := Z.pos (digits2_pos p)) in *.
  assert (1 ≤ d ≤ 53) as Hd53.
  { split; [unfold d; lia|].
    destruct (decide (d ≤ 53)) as [|Hgt]; [done|exfalso].
    assert (2 ^ 53 ≤ 2 ^ (d - 1)) by (apply Z.pow_le_mono_r; lia). lia. }
  assert (fexp 53 1024 (d + 0) = d - 53) as ->
    by (unfold fexp, emin; lia).
  unfold shl_align.
  destruct (d - 53 - 0) as [|k|k] eqn:Hk; [|lia|].
  - assert (d = 53) as Hd' by lia.
    rewrite binary_round_aux_exact by (fold d; lia).
    eexists _, _. split; [done|]. split; [apply F2Q_0|].
    rewrite Hd' in Hd. simpl in Hd. lia.
  - assert (Z.pos k = 53 - d) as Hk' by lia.
    rewrite binary_round_aux_exact
      by (rewrite ?iter_xO_digits; fold d; lia).
    eexists _, _. split; [done|].
    rewrite iter_xO_value, Hk'. split; [|split; [|lia]].
    + rewrite F2Q_shift by lia. replace (d - 53 + (53 - d)) with 0 by lia.
      apply F2Q_0.
    + split.
      * replace 52 with (d - 1 + (53 - d)) by lia.
        rewrite Z.pow_add_r by lia. apply Z.mul_le_mono_nonneg_r; lia.
      * replace 53 with (d + (53 - d)) at 2 by lia.
        rewrite Z.pow_add_r by lia. apply Z.mul_lt_mono_pos_r; lia.
Qed.

(** The product of two positive floats is on or above every number of
    the format below the exact product, or infinite. *)
Lemma float_mul_lower mx ex my ey G eg :
  0 < G ≤ 2 ^ 53 → -1074 ≤ eg →
  (F2Q G eg <= F2Q (Z.pos mx) ex * F2Q (Z.pos my) ey)%Q →
  match float_mul (S754_finite false mx ex) (S754_finite false my ey) with
  | S754_finite s m e => s = false ∧ (F2Q G eg <= F2Q (Z.pos m) e)%Q
  | S754_infinity s => s = false
  | _ => False
  end.
Proof.
  intros HG Heg Hle. unfold float_mul, SFmul. cbn [xorb].
  apply binary_round_aux_lower; [lia|done..|].
  by rewrite Pos2Z.inj_mul, F2Q_mult.
Qed.

(** A binary64 number above 1 is at least [1 + 2^-52]. *)
Lemma above_1_next m e :
  bounded 53 1024 m e = true →
  (1 < F2Q (Z.pos m) e)%Q →
  (F2Q (2 ^ 52 + 1) (-52) <= F2Q (Z.pos m) e)%Q.
Proof.
  intros Hb H1. unfold bounded, canonical_mantissa in Hb.
  apply andb_true_iff in Hb as [Hc _]. apply Z.eqb_eq in Hc.
  pose proof (digits2_pos_bounds m) as Hd.
  set (d := Z.pos (digits2_pos m)) in *.
  assert (d ≤ 53) as Hd53 by (unfold fexp, emin in Hc; lia).
  assert (Z.pos m < 2 ^ 53).
  { eapply Z.lt_le_trans; [apply Hd|]. apply Z.pow_le_mono_r; lia. }
  assert (F2Q 1 0 == 1)%Q as H10 by apply F2Q_0.
  rewrite <-H10 in H1.
  destruct (decide (0 ≤ e)) as [He|He].
  - assert (F2Q (Z.pos m * 2 ^ e) 0 == F2Q (Z.pos m) e)%Q as Hm
      by (by rewrite F2Q_shift).
    rewrite <-Hm in H1 |- *. apply F2Q_lt_inv in H1.
    eapply Qle_trans; [|apply (F2Q_le 2); lia].
    vm_compute. discriminate.
  - assert (F2Q (1 * 2 ^ (- e)) e == F2Q 1 0)%Q as H1e.
    { rewrite F2Q_shift by lia. by replace (e + - e) with 0 by lia. }
    rewrite <-H1e in H1. apply F2Q_lt_inv in H1.
    assert (- e < 53).
    { destruct (decide (- e < 53)) as [|Hge]; [done|exfalso].
      assert (2 ^ 53 ≤ 2 ^ (- e)) by (apply Z.pow_le_mono_r; lia). lia. }
    eapply Qle_trans; [|apply (F2Q_le (2 ^ (- e) + 1)); lia].
    assert (F2Q ((2 ^ (- e) + 1) * 2 ^ (e + 52)) (-52) ==
            F2Q (2 ^ (- e) + 1) e)%Q as <-.
    { rewrite F2Q_shift by lia. by replace (-52 + (e + 52)) with e by lia. }
    apply F2Q_le. rewrite Z.mul_add_distr_r, <-Z.pow_add_r by lia.
    replace (- e + (e + 52)) with 52 by lia.
    assert (1 ≤ 2 ^ (e + 52)); [|lia].
    change 1 with (2 ^ 0). apply Z.pow_le_mono_r; lia.
Qed.

(** *** The ceiling of the product with a [float] *)

Lemma Qceiling_ge (z : Z) (q : Q) : (inject_Z z <= q)%Q → z ≤ Qceiling q.
Proof.
  intros Hz. rewrite Zle_Qle. eapply Qle_trans; [exact Hz|apply Qle_ceiling].
Qed.

Lemma Qceiling_gt (z : Z) (q : Q) : (inject_Z z < q)%Q → z < Qceiling q.
Proof.
  intros Hz. rewrite Zlt_Qlt. eapply Qlt_le_trans; [exact Hz|apply Qle_ceiling].
Qed.

(** A [float] whose value is 1 or more is finite and positive. *)
Lemma float_value_ge_1 x :
  (1 <= float_value x)%Q → ∃ m e, x = S754_finite false m e.
Proof.
  destruct x as [s|s| |[] m e]; cbn [float_value]; intros H1;
    try (exfalso; exact (Qlt_not_le 0 1 eq_refl H1)); [|by eauto].
  exfalso. apply (Qlt_not_le 0 1 eq_refl).
  eapply Qle_trans; [exact H1|]. change (F2Q (Z.neg m) e <= 0)%Q.
  eapply Qle_trans; [apply (F2Q_le _ 0); lia|].
  unfold F2Q. rewrite Qmult_0_l. apply Qle_refl.
Qed.

(** With a [float] of value 1 or more, [math.ceil] returns at least [n],
    when it returns. *)
Lemma ceil_product_Float_ge x (n : nat) k :
  (1 <= float_value x)%Q → Z.of_nat n < 2 ^ 53 →
  ceil_product (Float x) n = Ok k → Z.of_nat n ≤ k.
Proof.
  intros H1 Hn Hk.
  destruct (float_value_ge_1 x H1) as (mx & ex & ->).
  rewrite float_value_F2Q in H1.
  unfold ceil_product, mul_int in Hk.
  destruct (decide (n = 0%nat)) as [->|Hn0].
  { vm_compute in Hk. by injection Hk as <-. }
  destruct (float_of_nat_exact n) as (my & ey & Hy & Hyv & _); [lia|].
  rewrite Hy in Hk. cbn [mbind result_bind] in Hk.
  pose proof (float_mul_lower mx ex my ey (Z.of_nat n) 0) as Hmul.
  destruct (float_mul _ _) as [s|s| |s m e]; [|done| |].
  - exfalso. apply Hmul; [lia..|].
    rewrite F2Q_0, Hyv. rewrite <-(Qmult_1_l (inject_Z (Z.of_nat n))) at 1.
    apply Qmult_le_compat_r; [done|].
    change 0%Q with (inject_Z 0). rewrite <-Zle_Qle. lia.
  - exfalso. apply Hmul; [lia..|].
    rewrite F2Q_0, Hyv. rewrite <-(Qmult_1_l (inject_Z (Z.of_nat n))) at 1.
    apply Qmult_le_compat_r; [done|].
    change 0%Q with (inject_Z 0). rewrite <-Zle_Qle. lia.
  - destruct Hmul as [-> Hge]; [lia..| |].
    { rewrite F2Q_0, Hyv. rewrite <-(Qmult_1_l (inject_Z (Z.of_nat n))) at 1.
      apply Qmult_le_compat_r; [done|].
      change 0%Q with (inject_Z 0). rewrite <-Zle_Qle. lia. }
    cbn [ceil] in Hk. injection Hk as <-. apply Qceiling_ge.
    change (inject_Z (Z.of_nat n) <= F2Q (Z.pos m) e)%Q. by rewrite <-F2Q_0.
Qed.

(** With a binary64 [float] above 1 it returns more than [n] when there is
    a token. *)
Lemma ceil_product_Float_gt x (n : nat) k :
  valid_binary 53 1024 x = true →
  (1 < float_value x)%Q → 0 < Z.of_nat n < 2 ^ 53 →
  ceil_product (Float x) n = Ok k → Z.of_nat n < k.
Proof.
  intros Hvalid H1 Hn Hk.
  destruct (float_value_ge_1 x (Qlt_le_weak _ _ H1)) as (mx & ex & ->).
  rewrite float_value_F2Q in H1. cbn [valid_binary] in Hvalid.
  pose proof (above_1_next mx ex Hvalid H1) as Hnext.
  unfold ceil_product, mul_int in Hk.
  destruct (float_of_nat_exact n) as (my & ey & Hy & Hyv & Hmy & Hey); [lia|].
  rewrite Hy in Hk. cbn [mbind result_bind] in Hk.
  pose proof (float_mul_lower mx ex my ey (Z.pos my + 1) ey) as Hmul.
  assert (F2Q (Z.pos my + 1) ey <= F2Q (Z.pos mx) ex * F2Q (Z.pos my) ey)%Q
    as Hle.
  { eapply Qle_trans;
      [|apply Qmult_le_compat_r;
         [exact Hnext|apply Qlt_le_weak, F2Q_pos; lia]].
    rewrite <-F2Q_mult.
    assert (F2Q ((Z.pos my + 1) * 2 ^ 52) (-52 + ey) == F2Q (Z.pos my + 1) ey)%Q
      as <-.
    { rewrite F2Q_shift by lia. by replace (-52 + ey + 52) with ey by lia. }
    apply F2Q_le. lia. }
  destruct (float_mul _ _) as [s|s| |s m e]; [|done| |].
  - exfalso. apply Hmul; [lia..|done].
  - exfalso. apply Hmul; [lia..|done].
  - destruct Hmul as [-> Hge]; [lia..|done|].
    cbn [ceil] in Hk. injection Hk as <-. apply Qceiling_gt.
    change (inject_Z (Z.of_nat n) < F2Q (Z.pos m) e)%Q.
    eapply Qlt_le_trans; [|exact Hge].
    rewrite <-Hyv. unfold F2Q. apply Qmult_lt_compat_r; [apply Qpower_2_pos|].
    rewrite <-Zlt_Qlt. lia.
Qed.

(** [float(n)] of a small [n] is a zero or a positive finite number. *)
Lemma float_of_nat_value (n : nat) :
  Z.of_nat n < 2 ^ 53 →
  ∃ y, float_of_nat n = Ok y ∧
       binary_normalize 53 1024 (Z.of_nat n) 0 false = y ∧
       (float_value y == inject_Z (Z.of_nat n))%Q ∧
       (y = S754_zero false ∨ ∃ m e, y = S754_finite false m e).
Proof.
  intros Hn. destruct (decide (n = 0%nat)) as [->|Hn0].
  { exists (S754_zero false). split; [done|]. split; [done|].
    split; [done|by left]. }
  destruct (float_of_nat_exact n) as (m & e & Hy & Hv & _); [lia|].
  exists (S754_finite false m e). split; [done|]. split; [|split].
  - unfold float_of_nat in Hy.
    destruct (binary_normalize 53 1024 (Z.of_nat n) 0 false); congruence.
  - by rewrite float_value_F2Q.
  - right. eauto.
Qed.

(** What [math.ceil] returns on the product with a [float] is the ceiling
    of the rounded product, which is then neither NaN nor infinite. *)
Lemma ceil_product_Float_inv x (n : nat) k :
  ceil_product (Float x) n = Ok k →
  let p := SFmul 53 1024 x (binary_normalize 53 1024 (Z.of_nat n) 0 false) in
  p ≠ S754_nan ∧ (∀ s, p ≠ S754_infinity s) ∧
  k = Qceiling (float_value p).
Proof.
  unfold ceil_product, mul_int, float_of_nat, float_mul.
  destruct (binary_normalize 53 1024 (Z.of_nat n) 0 false) as [s|s| |s m e];
    [|done| |]; cbn [mbind result_bind];
    destruct (SFmul 53 1024 x _) as [s'|s'| |s' m' e']; cbn [ceil];
    intros [= <-]; done.
Qed.

(** On NaN [math.ceil] raises [ValueError]. *)
Lemma ceil_product_nan (n : nat) :
  Z.of_nat n < 2 ^ 53 → ceil_product (Float S754_nan) n = Raise ValueError.
Proof.
  intros Hn. destruct (float_of_nat_value n Hn) as (y & Hy & _).
  unfold ceil_product, mul_int. by rewrite Hy.
Qed.

(** On an infinite [keep_ratio] the product is infinite, or NaN when there
    is no token, and [math.ceil] raises. *)
Lemma ceil_product_infinity s (n : nat) :
  Z.of_nat n < 2 ^ 53 →
  ceil_product (Float (S754_infinity s)) n =
  Raise (if decide (n = 0%nat) then ValueError else OverflowError).
Proof.
  intros Hn. destruct (float_of_nat_value n Hn) as (y & Hy & _ & Hv & Hy').
  unfold ceil_product, mul_int. rewrite Hy. cbn [mbind result_bind].
  destruct Hy' as [->|(m & e & ->)].
  - destruct (decide (n = 0%nat)) as [|Hn0]; [done|exfalso].
    cbn [float_value] in Hv.
    assert (0 == inject_Z (Z.of_nat n))%Q as Hv' by exact Hv.
    change 0%Q with (inject_Z 0) in Hv'. rewrite inject_Z_injective in Hv'.
    lia.
  - destruct (decide (n = 0%nat)) as [->|Hn0]; [|done].
    exfalso. rewrite float_value_F2Q in Hv.
    pose proof (F2Q_pos (Z.pos m) e ltac:(lia)) as Hpos.
    rewrite Hv in Hpos. by apply Qlt_irrefl in Hpos.
Qed.

(** The product of two positive floats is on or below every number of
    the format above the exact product. *)
Lemma float_mul_upper mx ex my ey G eg :
  ex + ey ≤ 971 → 0 < G < 2 ^ 53 → -1074 ≤ eg ≤ 971 →
  (F2Q (Z.pos mx) ex * F2Q (Z.pos my) ey <= F2Q G eg)%Q →
  match float_mul (S754_finite false mx ex) (S754_finite false my ey) with
  | S754_finite s m e => s = false ∧ (F2Q (Z.pos m) e <= F2Q G eg)%Q
  | S754_zero s => s = false
  | _ => False
  end.
Proof.
  intros He HG Heg Hle. unfold float_mul, SFmul. cbn [xorb].
  apply binary_round_aux_upper; [lia|done..|].
  by rewrite Pos2Z.inj_mul, F2Q_mult.
Qed.

Lemma F2Q_le_1_exp m e : 0 < m → (F2Q m e <= 1)%Q → e ≤ 0.
Proof.
  intros Hm H1. destruct (decide (e ≤ 0)) as [|He]; [done|exfalso].
  apply (Qlt_irrefl 1). eapply Qlt_le_trans; [|exact H1].
  eapply Qlt_le_trans; [|apply (F2Q_le 1); lia].
  eapply Qlt_le_trans; [|apply (F2Q_exp_le _ 1); lia]. reflexivity.
Qed.

Lemma Qceiling_le (z : Z) (q : Q) : (q <= inject_Z z)%Q → Qceiling q ≤ z.
Proof.
  intros Hz. rewrite <-(Qceiling_Z z). by apply Qceiling_resp_le.
Qed.

(** With a positive [float] of value at most 1, [math.ceil] returns, and
    what it returns lies in [0..n]. *)
Lemma ceil_product_Float_unit mx ex (n : nat) :
  (F2Q (Z.pos mx) ex <= 1)%Q → Z.of_nat n < 2 ^ 53 →
  ∃ k, ceil_product (Float (S754_finite false mx ex)) n = Ok k ∧
       0 ≤ k ≤ Z.of_nat n.
Proof.
  intros H1 Hn. unfold ceil_product, mul_int.
  destruct (decide (n = 0%nat)) as [->|Hn0].
  { exists 0. by vm_compute. }
  destruct (float_of_nat_exact n) as (my & ey & Hy & Hyv & _ & Hey); [lia|].
  rewrite Hy. cbn [mbind result_bind].
  pose proof (F2Q_le_1_exp (Z.pos mx) ex ltac:(lia) H1) as Hex.
  pose proof (float_mul_upper mx ex my ey (Z.of_nat n) 0) as Hmul.
  destruct (float_mul _ _) as [s|s| |s m e].
  - exists 0. split; [done|lia].
  - exfalso. apply Hmul; [lia..|].
    rewrite F2Q_0, Hyv. rewrite <-(Qmult_1_l (inject_Z (Z.of_nat n))) at 2.
    apply Qmult_le_compat_r; [done|].
    change 0%Q with (inject_Z 0). rewrite <-Zle_Qle. lia.
  - exfalso. apply Hmul; [lia..|].
    rewrite F2Q_0, Hyv. rewrite <-(Qmult_1_l (inject_Z (Z.of_nat n))) at 2.
    apply Qmult_le_compat_r; [done|].
    change 0%Q with (inject_Z 0). rewrite <-Zle_Qle. lia.
  - destruct Hmul as [-> Hle]; [lia..| |].
    { rewrite F2Q_0, Hyv. rewrite <-(Qmult_1_l (inject_Z (Z.of_nat n))) at 2.
      apply Qmult_le_compat_r; [done|].
      change 0%Q with (inject_Z 0). rewrite <-Zle_Qle. lia. }
    eexists. split; [done|]. split.
    + apply Qceiling_ge. change (0 <= F2Q (Z.pos m) e)%Q.
      apply Qlt_le_weak, F2Q_pos. lia.
    + apply Qceiling_le. change (F2Q (Z.pos m) e <= inject_Z (Z.of_nat n))%Q.
      by rewrite <-F2Q_0.
Qed.



End FloatFacts.

(** ** What one layer is turned into *)

Section LayerFacts.
Context {scalar : Type}.
Variable l2norm : list scalar → scalar.
Variable argsort : list scalar → list nat.

#[local] Abbreviation order := (sorted_order l2norm argsort).

Lemma gather_row_replicate {A} (rows : list (list A)) i r D :
  rows !! i = Some r → D ≤ length r →
  gather_row rows (replicate D i) = Some (take D r).
Proof.
  intros Hi HD. unfold gather_row. apply mapM_Some_2.
  apply Forall2_same_length_lookup. split.
  - rewrite length_imap, length_replicate, length_take. lia.
  - intros d [d' i'] y Hd Hy.
    rewrite list_lookup_imap in Hd.
    destruct (replicate D i !! d) as [i''|] eqn:Hr; simplify_eq/=.
    apply lookup_replicate in Hr as [-> Hlt].
    rewrite Hi. simpl. rewrite lookup_take_lt in Hy by done. done.
Qed.

Lemma gather_slice_replicate {A} (rows : list (list A)) idx D :
  Forall (λ r, length r = D) rows →
  Forall (λ i, i < length rows) idx →
  gather_slice rows (replicate D <$> idx) = Some (reorder idx rows).
Proof.
  intros Hrows Hidx. unfold gather_slice, reorder.
  apply mapM_Some_2, Forall2_fmap_l, Forall2_fmap_r, Forall_Forall2_diag.
  eapply Forall_impl; [exact Hidx|]. intros i Hi. simpl in *.
  destruct (lookup_lt_is_Some_2 rows i Hi) as [r Hr].
  rewrite (list_lookup_total_correct _ _ _ Hr).
  rewrite (gather_row_replicate rows i r D Hr).
  - rewrite take_ge; [done|].
    rewrite Forall_lookup in Hrows. by rewrite (Hrows _ _ Hr).
  - rewrite Forall_lookup in Hrows. by rewrite (Hrows _ _ Hr).
Qed.

Lemma mapM_zip_fmap {X Y Z W} (f : X → Z) (g : Z * Y → option W)
    (h : X → Y → W) (xs : list X) (ys : list Y) :
  length xs = length ys →
  (∀ i x y, xs !! i = Some x → ys !! i = Some y →
            g (f x, y) = Some (h x y)) →
  mapM g (zip (f <$> xs) ys) = Some (zip_with h xs ys).
Proof.
  intros Hlen Hg. apply mapM_Some_2. revert ys Hlen Hg.
  induction xs as [|x xs IH]; intros [|y ys] Hlen Hg; simplify_eq/=;
    constructor.
  - by apply (Hg 0).
  - apply IH; [done|]. intros i. apply (Hg (S i)).
Qed.

Lemma zip_with_diag_fmap {X W} (h : X → X → W) (xs : list X) :
  zip_with h xs xs = (λ x, h x x) <$> xs.
Proof. induction xs as [|x xs IH]; csimpl; [done|by f_equal]. Qed.

Lemma fmap_zip_with_compose {X Y W V} (g : W → V) (h : X → Y → W)
    (xs : list X) (ys : list Y) :
  g <$> zip_with h xs ys = zip_with (λ x y, g (h x y)) xs ys.
Proof.
  revert ys. induction xs as [|x xs IH]; intros [|y ys]; csimpl;
    [done..|by f_equal].
Qed.

Lemma bind_Ok {A B} (a : A) (f : A → result B) : Ok a ≫= f = f a.
Proof. done. Qed.

Lemma sorted_indices_expanded_eq (keys : tensor4 scalar) :
  t_seq keys ≠ 1 →
  expand_last (t_dim keys)
    (unsqueeze_last
       (argsort_last argsort (squeeze_last (norm_last l2norm keys)))) =
  Ok (T4 (t_batch keys) (t_heads keys) (t_seq keys) (t_dim keys)
         (lmap (lmap (λ krows, replicate (t_dim keys) <$> order krows))
               (t_data keys))).
Proof.
  intros Hseq. unfold squeeze_last, norm_last. simpl.
  case_decide; [done|]. simpl. do 2 f_equal.
  rewrite <-!list_fmap_compose. apply list_fmap_ext. intros _ hs _. simpl.
  rewrite <-!list_fmap_compose. apply list_fmap_ext. intros _ krows _. simpl.
  unfold sorted_order. rewrite <-!list_fmap_compose. done.
Qed.

Lemma sorted_prefix_seq1 keep_ratio (keys values : tensor4 scalar) :
  returns (ceil_product keep_ratio (t_seq keys)) →
  t_seq keys = 1 →
  sorted_prefix l2norm argsort keep_ratio (keys, values) =
  Raise ExpandLeadingDim.
Proof.
  intros Hceil Hseq. unfold sorted_prefix, size2.
  rewrite (ceil_product_returns _ _ Hceil), bind_Ok.
  unfold squeeze_last, norm_last. simpl. by case_decide.
Qed.

(** Whatever [keep_ratio] is, the body of the loop raises on a layer of one
    token: in [math.ceil] or, after it, in [expand]. *)
Lemma sorted_prefix_seq1_raises (keep_ratio : number)
    (keys values : tensor4 scalar) :
  t_seq keys = 1 →
  ∃ e, sorted_prefix l2norm argsort keep_ratio (keys, values) = Raise e.
Proof.
  intros Hseq. unfold sorted_prefix.
  destruct (ceil_product keep_ratio (size2 keys)) as [k|e]; [|by eexists].
  rewrite bind_Ok. unfold squeeze_last, norm_last. simpl.
  case_decide; [by eexists|done].
Qed.

Lemma gather_data_sorted {A} B H S D (kdata : list (list (list (list scalar))))
    (vdata : list (list (list (list A)))) :
  argsort_in_range argsort →
  rect4 B H S D kdata → rect4 B H S D vdata →
  gather_data vdata
    (lmap (lmap (λ krows, replicate D <$> order krows)) kdata) =
  Some (zip_with (zip_with (λ krows vrows,
                    reorder (order krows) vrows)) kdata vdata).
Proof.
  intros Hrange [HkB Hk] [HvB Hv]. unfold gather_data.
  apply (mapM_zip_fmap (lmap (λ krows, replicate D <$> order krows)));
    [congruence|].
  intros b khs vhs Hkb Hvb.
  rewrite Forall_lookup in Hk. destruct (Hk _ _ Hkb) as [HkH Hkhs].
  rewrite Forall_lookup in Hv. destruct (Hv _ _ Hvb) as [HvH Hvhs].
  simpl.
  apply (mapM_zip_fmap (λ krows, replicate D <$> order krows)
           (λ q, gather_slice q.2 q.1)); [congruence|].
  intros h krows vrows Hkr Hvr. simpl.
  rewrite Forall_lookup in Hkhs. destruct (Hkhs _ _ Hkr) as [HkS HkD].
  rewrite Forall_lookup in Hvhs. destruct (Hvhs _ _ Hvr) as [HvS HvD].
  apply gather_slice_replicate; [done|].
  eapply Forall_impl; [apply Hrange|]. intros i. simpl.
  rewrite length_fmap. lia.
Qed.

(** On an index without entries the rows gathered hold no entry either. *)
Lemma gather_empty {A} B H S D (kdata : list (list (list (list scalar))))
    (vdata : list (list (list (list A)))) :
  argsort_in_range argsort →
  rect4 B H S D kdata → rect4 B H S D vdata →
  B * H * S * D = 0 →
  zip_with (zip_with (λ krows vrows, reorder (order krows) vrows))
           kdata vdata =
  lmap (lmap (lmap (λ _, [])))
       (lmap (lmap (λ krows, replicate D <$> order krows)) kdata).
Proof.
  intros Hrange [HkB Hk] [HvB Hv] Hempty.
  rewrite Forall_lookup in Hk. rewrite Forall_lookup in Hv.
  apply list_eq. intros b.
  rewrite lookup_zip_with, !list_lookup_fmap.
  destruct (kdata !! b) as [khs|] eqn:Hkb; [|done].
  destruct (lookup_lt_is_Some_2 vdata b) as [vhs Hvb].
  { apply lookup_lt_Some in Hkb. lia. }
  rewrite Hvb. simpl. f_equal.
  destruct (Hk _ _ Hkb) as [HkH Hkhs]. destruct (Hv _ _ Hvb) as [HvH Hvhs].
  rewrite Forall_lookup in Hkhs. rewrite Forall_lookup in Hvhs.
  apply list_eq. intros h.
  rewrite lookup_zip_with, !list_lookup_fmap.
  destruct (khs !! h) as [krows|] eqn:Hkh; [|done].
  destruct (lookup_lt_is_Some_2 vhs h) as [vrows Hvh].
  { apply lookup_lt_Some in Hkh. lia. }
  rewrite Hvh. simpl. f_equal.
  destruct (Hkhs _ _ Hkh) as [HkS _]. destruct (Hvhs _ _ Hvh) as [HvS HvD].
  unfold reorder. rewrite <-list_fmap_compose.
  apply list_fmap_ext. intros t i Hi. simpl.
  pose proof (Hrange (l2norm <$> krows)) as Hr.
  rewrite Forall_lookup in Hr. apply Hr in Hi. rewrite length_fmap in Hi.
  destruct (lookup_lt_is_Some_2 vrows i) as [r Hr']; [lia|].
  rewrite (list_lookup_total_correct _ _ _ Hr').
  rewrite Forall_lookup in HvD. specialize (HvD _ _ Hr').
  apply lookup_lt_Some in Hkb, Hkh.
  assert (D = 0) as ->.
  { apply Nat.eq_mul_0 in Hempty
      as [[[?|?]%Nat.eq_mul_0|?]%Nat.eq_mul_0|?]; lia. }
  by destruct r.
Qed.

Lemma gather_sorted {A} (x : tensor4 A) (keys : tensor4 scalar) :
  argsort_in_range argsort → wf4 keys → wf4 x → same_shape keys x →
  gather x (T4 (t_batch keys) (t_heads keys) (t_seq keys) (t_dim keys)
              (lmap (lmap (λ krows,
                       replicate (t_dim keys) <$> order krows))
                    (t_data keys))) =
  Ok (T4 (t_batch keys) (t_heads keys) (t_seq keys) (t_dim keys)
         (zip_with (zip_with (λ krows vrows,
                      reorder (order krows) vrows))
                   (t_data keys) (t_data x))).
Proof.
  intros Hrange Hk Hx (HB & HH & HS & HD). unfold gather, numel.
  cbn [t_batch t_heads t_seq t_dim t_data].
  unfold wf4 in Hx. rewrite <-HB, <-HH, <-HS, <-HD in Hx.
  case_decide as Hempty.
  - do 2 f_equal. symmetry. by eapply gather_empty.
  - rewrite decide_True by lia.
    by rewrite (gather_data_sorted _ _ _ _ _ _ Hrange Hk Hx).
Qed.

Lemma sorted_prefix_ok keep_ratio (keys values : tensor4 scalar) :
  argsort_in_range argsort →
  wf4 keys → wf4 values → same_shape keys values → t_seq keys ≠ 1 →
  returns (ceil_product keep_ratio (t_seq keys)) →
  sorted_prefix l2norm argsort keep_ratio (keys, values) =
  Ok (compacted l2norm argsort keep_ratio (keys, values)).
Proof.
  intros Hrange Hk Hv Hshape Hseq Hceil.
  unfold sorted_prefix, size2.
  rewrite (ceil_product_returns _ _ Hceil), bind_Ok.
  rewrite sorted_indices_expanded_eq by done.
  rewrite bind_Ok, (gather_sorted keys keys) by done.
  rewrite bind_Ok, (gather_sorted values keys) by done.
  rewrite bind_Ok.
  unfold compacted, slice_seq, kept, size2.
  cbn [t_batch t_heads t_seq t_dim t_data fst snd]. do 3 f_equal.
  - rewrite zip_with_diag_fmap, <-list_fmap_compose.
    apply list_fmap_ext. intros _ hs _. simpl.
    by rewrite zip_with_diag_fmap, <-list_fmap_compose.
  - rewrite fmap_zip_with_compose. apply zip_with_ext; [|done..].
    intros khs vhs. by rewrite fmap_zip_with_compose.
Qed.

End LayerFacts.

(** ** What the loop does to the list *)

Section LoopFacts.
Context {scalar : Type}.
Variable l2norm : list scalar → scalar.
Variable argsort : list scalar → list nat.
Variable keep_ratio : number.
Variable prune_after : Z.
Variable skip_layers : list Z.

#[local] Abbreviation layer_cache' := (layer_cache (scalar := scalar)).
#[local] Abbreviation step :=
  (layer_step l2norm argsort keep_ratio prune_after skip_layers).

Lemma for_layers_enumerate (rest visited : list layer_cache') :
  for_layers l2norm argsort keep_ratio prune_after skip_layers
    (seq (length visited) (length rest)) (visited ++ rest) =
  out ← mapM (λ p, step p.1 p.2)
             (enumerate_from (length visited) rest);
  Ok (visited ++ out).
Proof.
  revert visited. induction rest as [|kv rest IH]; intros visited.
  - done.
  - cbn [length seq for_layers enumerate_from zip_with mapM fst snd].
    rewrite list_lookup_middle by done.
    assert (Hnext : ∀ new : layer_cache',
      for_layers l2norm argsort keep_ratio prune_after skip_layers
        (seq (S (length visited)) (length rest)) (visited ++ new :: rest) =
      out ← mapM (λ p, step p.1 p.2)
                 (enumerate_from (S (length visited)) rest);
      Ok (visited ++ new :: out)).
    { intros new. specialize (IH (visited ++ [new])).
      rewrite length_app, Nat.add_1_r, <-!app_assoc in IH. simpl in IH.
      rewrite IH. destruct (mapM _ _); [|done]. simpl.
      by rewrite <-app_assoc. }
    destruct (Z.of_nat (size2 kv.1) <? prune_after)%Z eqn:Hlt.
    { replace (step (length visited) kv) with (Ok kv)
        by (unfold layer_step; by rewrite Hlt).
      rewrite Hnext, bind_Ok. unfold enumerate_from.
      by destruct (mapM _ _). }
    destruct (sorted_prefix _ _ _ kv) as [new|e] eqn:Hnew.
    + replace (step (length visited) kv)
        with (Ok (if decide (Z.of_nat (length visited) ∈ skip_layers)
                  then kv else new))
        by (unfold layer_step; by rewrite Hlt, Hnew).
      rewrite !bind_Ok. case_decide.
      * rewrite Hnext. unfold enumerate_from. by destruct (mapM _ _).
      * rewrite insert_app_r_alt, Nat.sub_diag by done.
        cbn [insert list_insert].
        rewrite Hnext.
        unfold enumerate_from. by destruct (mapM _ _).
    + replace (step (length visited) kv)
        with (Raise (A:=layer_cache') e)
        by (unfold layer_step; by rewrite Hlt, Hnew).
      done.
Qed.

Lemma lookup_enumerate_from {A} (start : nat) (l : list A) i :
  enumerate_from start l !! i = (λ x, (start + i, x)) <$> l !! i.
Proof.
  unfold enumerate_from. rewrite lookup_zip_with.
  destruct (l !! i) as [x|] eqn:Hi.
  - rewrite lookup_seq_lt by (by eapply lookup_lt_Some). done.
  - by destruct (seq start (length l) !! i).
Qed.

Lemma length_enumerate_from {A} (start : nat) (l : list A) :
  length (enumerate_from start l) = length l.
Proof.
  unfold enumerate_from. rewrite length_zip_with, length_seq. lia.
Qed.

Lemma l2_compress_enumerate (pkv : list layer_cache') :
  l2_compress l2norm argsort keep_ratio prune_after skip_layers pkv =
  mapM (λ p, step p.1 p.2) (enumerate_from 0 pkv).
Proof.
  unfold l2_compress. pose proof (for_layers_enumerate pkv []) as H.
  simpl in H. rewrite H. by destruct (mapM _ _).
Qed.

(** The call returns [out] exactly when every turn of the loop succeeds
    and [out] lists what the turns produce. *)
Lemma l2_compress_Ok (pkv out : list layer_cache') :
  l2_compress l2norm argsort keep_ratio prune_after skip_layers pkv = Ok out ↔
  length pkv = length out ∧
  ∀ i kv o, pkv !! i = Some kv → out !! i = Some o → step i kv = Ok o.
Proof.
  rewrite l2_compress_enumerate, mapM_Ok, Forall2_same_length_lookup.
  rewrite length_enumerate_from. split; intros [Hlen H]; (split; [done|]).
  - intros i kv o Hi Ho. apply (H i (i, kv) o); [|done].
    by rewrite lookup_enumerate_from, Hi.
  - intros i [j kv] o Hi Ho. rewrite lookup_enumerate_from in Hi.
    destruct (pkv !! i) as [kv'|] eqn:Hkv; simplify_eq/=. by eapply H.
Qed.

(** The call raises exactly when some turn of the loop does. *)
Lemma l2_compress_Raise (pkv : list layer_cache') :
  (∃ e, l2_compress l2norm argsort keep_ratio prune_after skip_layers pkv
        = Raise e) ↔
  ∃ i kv e, pkv !! i = Some kv ∧ step i kv = Raise e.
Proof.
  rewrite l2_compress_enumerate. split.
  - intros [e He]. apply mapM_Raise in He as (i & [j kv] & Hi & He).
    rewrite lookup_enumerate_from in Hi.
    destruct (pkv !! i) as [kv'|] eqn:Hkv; simplify_eq/=. eauto.
  - intros (i & kv & e & Hi & He).
    eapply (mapM_Raise_ex _ _ i (i, kv)); [|exact He].
    by rewrite lookup_enumerate_from, Hi.
Qed.

Lemma layer_step_ok layer (kv : layer_cache') :
  argsort_in_range argsort →
  wf4 kv.1 → wf4 kv.2 → same_shape kv.1 kv.2 →
  (visited prune_after kv → size2 kv.1 ≠ 1) →
  (visited prune_after kv →
   returns (ceil_product keep_ratio (size2 kv.1))) →
  step layer kv =
  Ok (if decide (passes_through prune_after skip_layers layer kv) then kv
      else compacted l2norm argsort keep_ratio kv).
Proof.
  intros Hrange Hk Hv Hshape Hone Hceil.
  unfold layer_step, passes_through, visited in *.
  destruct (Z.ltb_spec (Z.of_nat (size2 kv.1)) prune_after) as [Hlt|Hge].
  - rewrite decide_True by auto. done.
  - destruct kv as [keys values]. rewrite sorted_prefix_ok by auto.
    rewrite bind_Ok. simpl.
    destruct (decide (Z.of_nat layer ∈ skip_layers)).
    + by rewrite decide_True by auto.
    + rewrite decide_False; [done|]. simpl in *. intros [?|?]; [done|lia].
Qed.

Lemma layer_step_single layer (kv : layer_cache') :
  visited prune_after kv → size2 kv.1 = 1 →
  returns (ceil_product keep_ratio (size2 kv.1)) →
  step layer kv = Raise ExpandLeadingDim.
Proof.
  unfold visited, layer_step. intros Hge Hone Hceil.
  destruct (Z.ltb_spec (Z.of_nat (size2 kv.1)) prune_after); [lia|].
  destruct kv as [keys values]. by rewrite sorted_prefix_seq1.
Qed.

(** Whatever [keep_ratio] is, the turn for a visited layer of one token
    raises: in [math.ceil] or, after it, in [expand]. *)
Lemma layer_step_single_raises layer (kv : layer_cache') :
  visited prune_after kv → size2 kv.1 = 1 →
  ∃ e, step layer kv = Raise e.
Proof.
  unfold visited, layer_step. intros Hge Hone.
  destruct (Z.ltb_spec (Z.of_nat (size2 kv.1)) prune_after); [lia|].
  destruct kv as [keys values].
  destruct (sorted_prefix_seq1_raises l2norm argsort keep_ratio keys values)
    as [e ->]; [done|]. by exists e.
Qed.

(** A turn that returns went through [math.ceil] when it visited the
    layer. *)
Lemma layer_step_ceil layer (kv o : layer_cache') :
  step layer kv = Ok o → visited prune_after kv →
  returns (ceil_product keep_ratio (size2 kv.1)).
Proof.
  unfold visited, layer_step. intros Hstep Hge.
  destruct (Z.ltb_spec (Z.of_nat (size2 kv.1)) prune_after); [lia|].
  destruct kv as [keys values]. unfold sorted_prefix in Hstep.
  cbn [fst] in *. by destruct (ceil_product keep_ratio (size2 keys)).
Qed.

Lemma l2_compress_ok (pkv : list layer_cache') :
  argsort_in_range argsort →
  well_shaped pkv → no_single_token prune_after pkv →
  ceil_returns keep_ratio prune_after pkv →
  l2_compress l2norm argsort keep_ratio prune_after skip_layers pkv =
  Ok (compressed l2norm argsort keep_ratio prune_after skip_layers pkv).
Proof.
  intros Hrange Hwf Hone Hceil. apply l2_compress_Ok. unfold compressed.
  split.
  - by rewrite length_imap.
  - intros i kv o Hi Ho. rewrite list_lookup_imap, Hi in Ho. simplify_eq/=.
    unfold well_shaped, no_single_token, ceil_returns in *.
    rewrite Forall_lookup in Hwf. rewrite Forall_lookup in Hone.
    rewrite Forall_lookup in Hceil.
    destruct (Hwf _ _ Hi) as (? & ? & ?). apply layer_step_ok; eauto.
Qed.

(** On an exact [keep_ratio] [math.ceil] returns on every layer. *)
Lemma ceil_returns_Rat (keep_ratio' : Q) (pkv : list layer_cache') :
  ceil_returns keep_ratio' prune_after pkv.
Proof. unfold ceil_returns. apply Forall_forall. by intros. Qed.

End LoopFacts.

(** ** The number of tokens kept *)

Lemma tokens_to_keep_nonneg (keep_ratio : Q) (n : nat) :
  (0 <= keep_ratio)%Q → (0 ≤ tokens_to_keep keep_ratio n)%Z.
Proof.
  intros Hr. rewrite !tokens_to_keep_Rat.
  change 0%Z with (Qceiling (inject_Z 0)). apply Qceiling_resp_le.
  apply Qmult_le_0_compat; [done|].
  change 0%Q with (inject_Z 0). rewrite <-Zle_Qle. lia.
Qed.

Lemma tokens_to_keep_le (keep_ratio : Q) (n : nat) :
  (keep_ratio <= 1)%Q → (tokens_to_keep keep_ratio n ≤ Z.of_nat n)%Z.
Proof.
  intros Hr. rewrite !tokens_to_keep_Rat.
  rewrite <-(Qceiling_Z (Z.of_nat n)) at 2. apply Qceiling_resp_le.
  rewrite <-(Qmult_1_l (inject_Z (Z.of_nat n))) at 2.
  apply Qmult_le_compat_r; [done|].
  change 0%Q with (inject_Z 0). rewrite <-Zle_Qle. lia.
Qed.

Lemma tokens_to_keep_ge (keep_ratio : Q) (n : nat) :
  (1 <= keep_ratio)%Q → (Z.of_nat n ≤ tokens_to_keep keep_ratio n)%Z.
Proof.
  intros Hr. rewrite !tokens_to_keep_Rat.
  rewrite <-(Qceiling_Z (Z.of_nat n)) at 1. apply Qceiling_resp_le.
  rewrite <-(Qmult_1_l (inject_Z (Z.of_nat n))) at 1.
  apply Qmult_le_compat_r; [done|].
  change 0%Q with (inject_Z 0). rewrite <-Zle_Qle. lia.
Qed.

Lemma tokens_to_keep_gt (keep_ratio : Q) (n : nat) :
  (1 < keep_ratio)%Q → 0 < n → (Z.of_nat n < tokens_to_keep keep_ratio n)%Z.
Proof.
  intros Hr Hn. rewrite !tokens_to_keep_Rat.
  rewrite Zlt_Qlt. eapply Qlt_le_trans; [|apply Qle_ceiling].
  rewrite <-(Qmult_1_l (inject_Z (Z.of_nat n))) at 1.
  apply Qmult_lt_compat_r; [|done].
  change 0%Q with (inject_Z 0). rewrite <-Zlt_Qlt. lia.
Qed.

Lemma slice_stop_clamp k n :
  (0 ≤ k)%Z → slice_stop k n = Z.to_nat (Z.max 0 (Z.min k (Z.of_nat n))).
Proof.
  intros Hk. unfold slice_stop.
  destruct (Z.ltb_spec k 0); [lia|]. f_equal. lia.
Qed.

Lemma slice_stop_le k n : slice_stop k n ≤ n.
Proof. unfold slice_stop. destruct (Z.ltb_spec k 0); lia. Qed.

Lemma kept_in_range (keep_ratio : Q) (n : nat) :
  (0 <= keep_ratio)%Q → (keep_ratio <= 1)%Q →
  Z.of_nat (kept keep_ratio n) = tokens_to_keep keep_ratio n.
Proof.
  intros H0 H1. unfold kept.
  pose proof (tokens_to_keep_nonneg keep_ratio n H0).
  pose proof (tokens_to_keep_le keep_ratio n H1).
  rewrite slice_stop_clamp by done. lia.
Qed.

Lemma kept_all (keep_ratio : Q) (n : nat) :
  (1 <= keep_ratio)%Q → kept keep_ratio n = n.
Proof.
  intros H1. unfold kept.
  pose proof (tokens_to_keep_ge keep_ratio n H1).
  rewrite slice_stop_clamp by lia. lia.
Qed.

(** *** On a [float] as on an exact number *)

Lemma number_value_Float x q :
  number_value (Float x) = Some q →
  q = float_value x ∧
  ((∃ s, x = S754_zero s) ∨ ∃ s m e, x = S754_finite s m e).
Proof. destruct x; intros [= <-]; eauto 6. Qed.

Lemma float_value_neg_lt m e : (float_value (S754_finite true m e) < 0)%Q.
Proof.
  change (F2Q (Z.neg m) e < 0)%Q. unfold F2Q.
  setoid_replace 0%Q with (0 * 2 ^ e)%Q using relation Qeq by ring.
  apply Qmult_lt_compat_r; [apply Qpower_2_pos|]. reflexivity.
Qed.

(** For a ratio in [0, 1] [math.ceil] returns, and returns a number in
    [0..n]. *)
Lemma tokens_to_keep_unit keep_ratio q (n : nat) :
  number_value keep_ratio = Some q → (0 <= q)%Q → (q <= 1)%Q →
  (∀ x, keep_ratio = Float x → Z.of_nat n < 2 ^ 53)%Z →
  returns (ceil_product keep_ratio n) ∧
  (0 ≤ tokens_to_keep keep_ratio n ≤ Z.of_nat n)%Z.
Proof.
  intros Hq H0 H1 Hn. destruct keep_ratio as [q'|x].
  { injection Hq as ->. split; [done|].
    split; [by apply tokens_to_keep_nonneg|by apply tokens_to_keep_le]. }
  specialize (Hn x eq_refl).
  apply number_value_Float in Hq as [-> [[s ->]|(s & m & e & ->)]].
  - destruct (float_of_nat_value n Hn) as (y & Hy & _ & _ & Hy').
    assert (ceil_product (Float (S754_zero s)) n = Ok 0%Z) as Hk.
    { unfold ceil_product, mul_int. rewrite Hy.
      by destruct Hy' as [->|(m & e & ->)]. }
    rewrite (ceil_product_Ok _ _ _ Hk), Hk. split; [done|lia].
  - destruct s.
    { exfalso. apply (Qlt_irrefl 0). eapply Qle_lt_trans; [exact H0|].
      apply float_value_neg_lt. }
    destruct (ceil_product_Float_unit m e n H1 Hn) as (k & Hk & Hrange).
    by rewrite (ceil_product_Ok _ _ _ Hk), Hk.
Qed.

(** For a ratio of 1 or more it returns [n] or more, when it returns. *)
Lemma tokens_to_keep_ge_number keep_ratio q (n : nat) :
  number_value keep_ratio = Some q → (1 <= q)%Q →
  (∀ x, keep_ratio = Float x → Z.of_nat n < 2 ^ 53)%Z →
  returns (ceil_product keep_ratio n) →
  (Z.of_nat n ≤ tokens_to_keep keep_ratio n)%Z.
Proof.
  intros Hq H1 Hn Hceil. destruct keep_ratio as [q'|x].
  { injection Hq as ->. by apply tokens_to_keep_ge. }
  specialize (Hn x eq_refl).
  apply number_value_Float in Hq as [-> _].
  apply ceil_product_returns in Hceil.
  by eapply ceil_product_Float_ge.
Qed.

(** For a binary64 ratio above 1 it returns more than [n] when there is a
    token. *)
Lemma tokens_to_keep_gt_number keep_ratio q (n : nat) :
  number_value keep_ratio = Some q → (1 < q)%Q → binary64 keep_ratio →
  (∀ x, keep_ratio = Float x → Z.of_nat n < 2 ^ 53)%Z →
  returns (ceil_product keep_ratio n) → 0 < n →
  (Z.of_nat n < tokens_to_keep keep_ratio n)%Z.
Proof.
  intros Hq H1 Hvalid Hn Hceil Hpos. destruct keep_ratio as [q'|x].
  { injection Hq as ->. by apply tokens_to_keep_gt. }
  specialize (Hn x eq_refl).
  apply number_value_Float in Hq as [-> _].
  apply ceil_product_returns in Hceil.
  eapply ceil_product_Float_gt; [exact Hvalid|done|lia|done].
Qed.


Lemma kept_unit keep_ratio q (n : nat) :
  number_value keep_ratio = Some q → (0 <= q)%Q → (q <= 1)%Q →
  (∀ x, keep_ratio = Float x → Z.of_nat n < 2 ^ 53)%Z →
  Z.of_nat (kept keep_ratio n) = tokens_to_keep keep_ratio n.
Proof.
  intros Hq H0 H1 Hn. unfold kept.
  destruct (tokens_to_keep_unit keep_ratio q n) as [_ Hk]; [done..|].
  rewrite slice_stop_clamp by lia. lia.
Qed.

Lemma kept_all_number keep_ratio q (n : nat) :
  number_value keep_ratio = Some q → (1 <= q)%Q →
  (∀ x, keep_ratio = Float x → Z.of_nat n < 2 ^ 53)%Z →
  returns (ceil_product keep_ratio n) →
  kept keep_ratio n = n.
Proof.
  intros Hq H1 Hn Hceil. unfold kept.
  pose proof (tokens_to_keep_ge_number keep_ratio q n Hq H1 Hn Hceil).
  rewrite slice_stop_clamp by lia. lia.
Qed.

(** ** Sorting routines *)

Section OrderFacts.
Context {scalar : Type}.
Variable leb : scalar → scalar → bool.
Variable l2norm : list scalar → scalar.
Variable argsort : list scalar → list nat.

Lemma sorts_in_range : sorts leb argsort → argsort_in_range argsort.
Proof.
  intros [Hperm _] v. apply Forall_forall. intros i Hi.
  rewrite (Hperm v), elem_of_seq in Hi. lia.
Qed.

Lemma sorts_length : sorts leb argsort → ∀ v, length (argsort v) = length v.
Proof. intros [Hperm _] v. by rewrite (Hperm v), length_seq. Qed.

Lemma sorts_NoDup : sorts leb argsort → ∀ v, NoDup (argsort v).
Proof. intros [Hperm _] v. rewrite (Hperm v). apply NoDup_seq. Qed.

Lemma length_reorder `{!Inhabited A} idx (rows : list A) :
  length (reorder idx rows) = length idx.
Proof. unfold reorder. by rewrite length_fmap. Qed.

Lemma take_reorder `{!Inhabited A} n idx (rows : list A) :
  take n (reorder idx rows) = reorder (take n idx) rows.
Proof. unfold reorder. by rewrite fmap_take. Qed.

Lemma reorder_seq `{!Inhabited A} (rows : list A) :
  reorder (seq 0 (length rows)) rows = rows.
Proof.
  unfold reorder. apply list_eq. intros i. rewrite list_lookup_fmap.
  destruct (rows !! i) as [r|] eqn:Hi.
  - rewrite lookup_seq_lt by (by eapply lookup_lt_Some). simpl.
    by rewrite (list_lookup_total_correct _ _ _ Hi).
  - rewrite lookup_seq_ge; [done|]. by apply lookup_ge_None.
Qed.

Lemma reorder_perm `{!Inhabited A} idx (rows : list A) :
  idx ≡ₚ seq 0 (length rows) → reorder idx rows ≡ₚ rows.
Proof.
  intros Hperm. rewrite <-(reorder_seq rows) at 2.
  unfold reorder. by rewrite Hperm.
Qed.

Lemma lookup_reorder `{!Inhabited A} idx (rows : list A) t i r :
  idx !! t = Some i → rows !! i = Some r → reorder idx rows !! t = Some r.
Proof.
  intros Ht Hi. unfold reorder. rewrite list_lookup_fmap, Ht. simpl.
  by rewrite (list_lookup_total_correct _ _ _ Hi).
Qed.

(** Reordering two slices by one order reorders their rows in pairs. *)
Lemma reorder_zip `{!Inhabited A, !Inhabited B} idx
    (krows : list A) (vrows : list B) :
  length krows = length vrows → Forall (λ i, i < length krows) idx →
  zip (reorder idx krows) (reorder idx vrows) = reorder idx (zip krows vrows).
Proof.
  intros Hlen Hidx. unfold reorder.
  induction Hidx as [|i idx Hi _ IH]; csimpl; [done|].
  destruct (lookup_lt_is_Some_2 krows i Hi) as [k Hk].
  destruct (lookup_lt_is_Some_2 vrows i) as [v Hv]; [lia|].
  rewrite (list_lookup_total_correct _ _ _ Hk).
  rewrite (list_lookup_total_correct _ _ _ Hv).
  rewrite (list_lookup_total_correct (zip krows vrows) i (k, v)).
  - by rewrite IH.
  - by rewrite lookup_zip_with, Hk, Hv.
Qed.

End OrderFacts.

(** ** The sorting routine of the instance *)

Module ExactFacts.
Import Exact.

Lemma ins_perm p l : ins p l ≡ₚ p :: l.
Proof.
  induction l as [|q l IH]; simpl; [done|].
  destruct (p.1 <=? q.1)%Z; [done|].
  by rewrite IH, Permutation_swap.
Qed.

Lemma foldr_ins_perm l : foldr ins [] l ≡ₚ l.
Proof.
  induction l as [|p l IH]; simpl; [done|]. by rewrite ins_perm, IH.
Qed.

Lemma ins_sorted p l :
  StronglySorted score_le l → StronglySorted score_le (ins p l).
Proof.
  induction 1 as [|q l Hl IH Hq]; simpl; [by repeat constructor|].
  destruct (p.1 <=? q.1)%Z eqn:Hcmp.
  - constructor; [by constructor|].
    assert (score_le p q) as Hpq by (unfold score_le; lia).
    constructor; [done|]. eapply Forall_impl; [exact Hq|].
    unfold score_le in *. simpl. lia.
  - constructor; [done|]. rewrite ins_perm. constructor; [|done].
    unfold score_le. lia.
Qed.

Lemma foldr_ins_sorted l : StronglySorted score_le (foldr ins [] l).
Proof.
  induction l as [|p l IH]; simpl; [constructor|by apply ins_sorted].
Qed.

Lemma elem_of_zip_seq (v : list Z) start x i :
  (x, i) ∈ zip v (seq start (length v)) →
  start ≤ i ∧ v !! (i - start) = Some x.
Proof.
  intros (k & Hk)%list_elem_of_lookup. rewrite lookup_zip_with in Hk.
  destruct (v !! k) as [x'|] eqn:Hv; [|done]. simpl in Hk.
  destruct (seq start (length v) !! k) as [i'|] eqn:Hs; simplify_eq/=.
  apply lookup_seq in Hs as [-> _].
  split; [lia|]. by replace (start + k - start) with k by lia.
Qed.

Lemma argsort_stable_sorts : sorts Z.leb argsort_stable.
Proof.
  split.
  - intros v. unfold argsort_stable, isort. rewrite foldr_ins_perm.
    rewrite snd_zip; [done|]. by rewrite length_seq.
  - intros v. unfold argsort_stable, isort.
    eapply StronglySorted_fmap_elem_of; [|apply foldr_ins_sorted].
    intros [x i] [y j] Hx Hy Hle.
    rewrite foldr_ins_perm in Hx, Hy.
    apply elem_of_zip_seq in Hx as [_ Hx], Hy as [_ Hy].
    rewrite Nat.sub_0_r in Hx, Hy. exists x, y. simpl.
    repeat split; [done..|]. by apply Z.leb_le.
Qed.

End ExactFacts.

(** ** The call on the heap *)

Section HeapFacts.
Context {scalar : Type}.
Variable l2norm : list scalar → scalar.
Variable argsort : list scalar → list nat.
Variable keep_ratio : number.
Variable prune_after : Z.
Variable skip_layers : list Z.

Lemma pair_at_Some (h : heap scalar) l kv :
  pair_at h l = Some kv ↔
  ∃ k v,
    (h !! l = Some (PyList [k; v]) ∨ h !! l = Some (PyTuple [k; v])) ∧
    h !! k = Some (PyTensor kv.1) ∧ h !! v = Some (PyTensor kv.2).
Proof.
  unfold pair_at. split.
  - intros H. destruct (h !! l) as [[[|k [|v [|??]]]|[|k [|v [|??]]]|?]|];
      try done;
      destruct (h !! k) as [[| |keys]|] eqn:Hk; try done;
      destruct (h !! v) as [[| |values]|] eqn:Hv; try done;
      simplify_eq/=; exists k, v; rewrite Hk, Hv; auto.
  - intros (k & v & [-> | ->] & -> & ->); by destruct kv.
Qed.

Lemma pair_at_preserved q (h h' : heap scalar) l kv :
  (∀ x, h !! q ≠ Some (PyTensor x)) → preserves q h h' → l ≠ q →
  pair_at h l = Some kv → pair_at h' l = Some kv.
Proof.
  intros Hq Hpres Hl. rewrite !pair_at_Some.
  intros (k & v & Hlk & Hk & Hv). exists k, v. repeat split.
  - destruct Hlk as [Hlk|Hlk]; [left|right]; by apply Hpres.
  - apply Hpres; [|done]. intros ->. congruence.
  - apply Hpres; [|done]. intros ->. congruence.
Qed.

Lemma preserves_trans q (h1 h2 h3 : heap scalar) :
  preserves q h1 h2 → preserves q h2 h3 → preserves q h1 h3.
Proof. intros H12 H23 l o Hl Ho. by apply H23, H12. Qed.

Lemma loop_post_refl q (h : heap scalar) items pkv :
  h !! q = Some (PyList items) → q ∉ items →
  Forall2 (λ l kv, pair_at h l = Some kv) items pkv →
  loop_post q h items (Ok pkv) (Ok (tt, h)).
Proof.
  intros. exists h, items. repeat split; auto. by intros l o _ Ho.
Qed.

Lemma preserves_None q (h h' : heap scalar) x :
  preserves q h h' → is_Some (h' !! q) → h' !! x = None → h !! x = None.
Proof.
  intros Hpres [o Hq] Hx. destruct (h !! x) as [o'|] eqn:Hx'; [|done].
  destruct (decide (x = q)) as [->|Hne]; [congruence|].
  apply Hpres in Hx'; [congruence|done].
Qed.

Lemma loop_post_mono q (h h1 : heap scalar) items items1 pure run :
  preserves q h h1 → h1 !! q = Some (PyList items1) →
  (∀ i t, items1 !! i = Some t →
          items !! i = Some t ∨ fresh_pair h h1 t) →
  loop_post q h1 items1 pure run → loop_post q h items pure run.
Proof.
  intros Hpres Hq Hfresh. destruct pure as [out|e]; [|done].
  intros (h' & items' & -> & Hq' & Hnq & Hout & Hpres' & Hfresh').
  exists h', items'. repeat split; auto.
  { by eapply preserves_trans. }
  intros i t Ht. destruct (Hfresh' i t Ht) as [Ht1|Hnew].
  - destruct (Hfresh i t Ht1) as [?|(Hnone & a & b & Hab & Ha & Hb)];
      [by left|right].
    split; [done|]. exists a, b. repeat split; [|done..].
    apply Hpres'; [|done]. intros ->. congruence.
  - right. destruct Hnew as (Hnone & a & b & Hab & Ha & Hb).
    split; [by eapply preserves_None|]. exists a, b.
    repeat split; [done|by eapply preserves_None..].
Qed.

Lemma for_layers_heap_spec layers :
  ∀ q (h : heap scalar) items pkv,
    h !! q = Some (PyList items) → q ∉ items →
    Forall2 (λ l kv, pair_at h l = Some kv) items pkv →
    loop_post q h items
      (for_layers l2norm argsort keep_ratio prune_after skip_layers
         layers pkv)
      (for_layers_heap l2norm argsort keep_ratio prune_after skip_layers
         layers q h).
Proof.
  induction layers as [|layer rest IH]; intros q h items pkv Hq Hnq Hitems.
  { by apply loop_post_refl. }
  cbn [for_layers for_layers_heap].
  unfold py_bind at 1. unfold items_of at 1. rewrite Hq.
  destruct (items !! layer) as [l|] eqn:Hl.
  2:{ destruct (pkv !! layer) as [kv|] eqn:Hkv; [|by apply loop_post_refl].
      destruct (Forall2_lookup_r _ _ _ _ _ Hitems Hkv) as (? & ? & _).
      congruence. }
  destruct (Forall2_lookup_l _ _ _ _ _ Hitems Hl) as (kv & Hkv & Hpair).
  destruct (pkv !! layer) as [kv'|] eqn:Hkv'; simplify_eq.
  pose proof Hpair as (k & v & Hlk & Hk & Hv)%pair_at_Some.
  unfold py_bind at 1. unfold items_of at 1.
  assert (match h !! l with
          | Some (PyList items) | Some (PyTuple items) => Ok (items, h)
          | _ => Raise NotASequence
          end = Ok ([k; v], h)) as ->.
  { by destruct Hlk as [-> | ->]. }
  unfold py_bind at 1. unfold py_lift at 1.
  cbn [of_option lookup list_lookup].
  unfold py_bind at 1. unfold tensor_of at 1. rewrite Hk.
  destruct (Z.of_nat (size2 kv.1) <? prune_after)%Z; [by apply IH|].
  unfold py_bind at 1. unfold tensor_of at 1. rewrite Hk.
  unfold py_bind at 1. unfold tensor_of at 1. rewrite Hv.
  unfold py_bind at 1. unfold py_lift at 1.
  replace (kv.1, kv.2) with kv by (by destruct kv).
  destruct (sorted_prefix l2norm argsort keep_ratio kv) as [new|e]; [|done].
  rewrite bind_Ok.
  destruct (decide (Z.of_nat layer ∈ skip_layers)); [by apply IH|].
  unfold py_bind at 1. unfold alloc at 1.
  set (a := fresh (dom h)). set (h1 := <[a := PyTensor new.1]> h).
  unfold py_bind at 1. unfold alloc at 1.
  set (b := fresh (dom h1)). set (h2 := <[b := PyTensor new.2]> h1).
  unfold py_bind at 1. unfold alloc at 1.
  set (t := fresh (dom h2)). set (h3 := <[t := PyTuple [a; b]]> h2).
  assert (h !! a = None) as Ha by apply not_elem_of_dom, is_fresh.
  assert (h1 !! b = None) as Hb by apply not_elem_of_dom, is_fresh.
  assert (h2 !! t = None) as Ht by apply not_elem_of_dom, is_fresh.
  assert (h !! b = None ∧ a ≠ b) as [Hb' Hab].
  { unfold h1 in Hb. apply lookup_insert_None in Hb. naive_solver. }
  assert (h !! t = None ∧ a ≠ t ∧ b ≠ t) as (Ht' & Hat & Hbt).
  { unfold h2, h1 in Ht. rewrite !lookup_insert_None in Ht. tauto. }
  assert (q ≠ a ∧ q ≠ b ∧ q ≠ t) as (Hqa & Hqb & Hqt)
    by (repeat split; intros ->; congruence).
  unfold py_bind at 1. unfold set_item at 1.
  assert (h3 !! q = Some (PyList items)) as ->.
  { unfold h3, h2, h1. by rewrite !lookup_insert_ne by done. }
  set (h4 := <[q := PyList (<[layer := t]> items)]> h3).
  assert (preserves q h h4) as Hpres.
  { intros x o Hx Ho. unfold h4, h3, h2, h1.
    rewrite !lookup_insert_ne; [done|congruence..]. }
  assert (pair_at h4 t = Some new) as Hnew.
  { apply pair_at_Some. exists a, b. unfold h4, h3, h2, h1.
    repeat split; [right|..]; simplify_map_eq; done. }
  apply (loop_post_mono q h h4 items (<[layer := t]> items)); [done|..].
  - unfold h4. by rewrite lookup_insert_eq.
  - intros i t' Hi. destruct (decide (i = layer)) as [->|Hne].
    + rewrite list_lookup_insert_eq in Hi by (by eapply lookup_lt_Some).
      simplify_eq. right. split; [done|]. exists a, b.
      repeat split; [|done..]. unfold h4, h3.
      rewrite lookup_insert_ne by done. by rewrite lookup_insert_eq.
    + rewrite list_lookup_insert_ne in Hi by done. by left.
  - apply IH.
    + unfold h4. by rewrite lookup_insert_eq.
    + intros (i & Hi)%list_elem_of_lookup.
      destruct (decide (i = layer)) as [->|Hne].
      * rewrite list_lookup_insert_eq in Hi by (by eapply lookup_lt_Some).
        congruence.
      * rewrite list_lookup_insert_ne in Hi by done.
        apply Hnq. by eapply list_elem_of_lookup_2.
    + apply Forall2_insert; [|done].
      apply Forall2_same_length_lookup. split;
        [by eapply Forall2_length|].
      intros i x y Hx Hy.
      apply (pair_at_preserved q h h4); [congruence|done| |].
      * intros ->. apply Hnq. by eapply list_elem_of_lookup_2.
      * exact (Forall2_lookup_lr _ items pkv i x y Hitems Hx Hy).
Qed.
Lemma snapshot_at_Some (h : heap scalar) p snap :
  snapshot_at h p = Some snap ↔
  ∃ items, items_at h p = Some items ∧
           Forall2 (λ l kv, pair_at h l = Some kv) items snap.
Proof.
  unfold snapshot_at, items_at.
  destruct (h !! p) as [[items|items|?]|]; try (rewrite mapM_Some);
    split; try (by intros (? & ? & ?)); try done.
  - intros ?. by exists items.
  - by intros (? & [= <-] & ?).
  - intros ?. by exists items.
  - by intros (? & [= <-] & ?).
Qed.

Lemma l2_compress_heap_spec (h : heap scalar) p snap :
  snapshot_at h p = Some snap →
  call_post h p
    (l2_compress l2norm argsort keep_ratio prune_after skip_layers snap)
    (l2_compress_heap l2norm argsort keep_ratio prune_after skip_layers p h).
Proof.
  intros (items & Hp & Hitems)%snapshot_at_Some.
  unfold l2_compress_heap, l2_compress.
  unfold py_bind at 1. unfold items_of at 1.
  assert (match h !! p with
          | Some (PyList items) | Some (PyTuple items) => Ok (items, h)
          | _ => Raise NotASequence
          end = Ok (items, h)) as ->.
  { unfold items_at in Hp.
    by destruct (h !! p) as [[?|?|?]|]; simplify_eq. }
  unfold py_bind at 1. unfold alloc at 1.
  set (q := fresh (dom h)). set (h1 := <[q := PyList items]> h).
  assert (h !! q = None) as Hq by apply not_elem_of_dom, is_fresh.
  assert (preserves q h h1) as Hpres.
  { intros l o Hl Ho. unfold h1. by rewrite lookup_insert_ne. }
  assert (q ∉ items) as Hnq.
  { intros (i & Hi)%list_elem_of_lookup.
    destruct (Forall2_lookup_l _ _ _ _ _ Hitems Hi) as (kv & _ & Hkv).
    apply pair_at_Some in Hkv as (? & ? & [?|?] & _); congruence. }
  pose proof (for_layers_heap_spec (seq 0 (length items)) q h1 items snap)
    as Hloop.
  rewrite <-(Forall2_length _ _ _ Hitems).
  unfold py_bind at 1.
  destruct (for_layers _ _ _ _ _ _ snap) as [out|e].
  - destruct Hloop as (h' & items' & -> & Hq' & _ & Hout & Hpres' & Hfresh).
    + unfold h1. by rewrite lookup_insert_eq.
    + done.
    + apply Forall2_same_length_lookup. split; [by eapply Forall2_length|].
      intros i x y Hx Hy.
      apply (pair_at_preserved q h h1); [congruence|done| |].
      * intros ->. apply Hnq. by eapply list_elem_of_lookup_2.
      * exact (Forall2_lookup_lr _ items snap i x y Hitems Hx Hy).
    + exists q, h', items, items'. repeat split; auto.
      * apply map_subseteq_spec. intros l o Ho.
        apply Hpres'; [congruence|]. apply Hpres; [congruence|done].
      * apply snapshot_at_Some. exists items'. split; [|done].
        unfold items_at. by rewrite Hq'.
      * intros i t Ht. destruct (Hfresh i t Ht) as [?|Hnew]; [by left|].
        right. destruct Hnew as (Hnone & a & b & Hab & Ha & Hb).
        assert (is_Some (h1 !! q)) by (unfold h1; by rewrite lookup_insert_eq).
        split; [by eapply preserves_None|]. exists a, b.
        repeat split; [done|by eapply preserves_None..].
  - rewrite Hloop; [done|..].
    + unfold h1. by rewrite lookup_insert_eq.
    + done.
    + apply Forall2_same_length_lookup. split; [by eapply Forall2_length|].
      intros i x y Hx Hy.
      apply (pair_at_preserved q h h1); [congruence|done| |].
      * intros ->. apply Hnq. by eapply list_elem_of_lookup_2.
      * exact (Forall2_lookup_lr _ items snap i x y Hitems Hx Hy).
Qed.

Lemma snapshot_at_mono (h h' : heap scalar) p snap :
  h ⊆ h' → snapshot_at h p = Some snap → snapshot_at h' p = Some snap.
Proof.
  intros Hsub. rewrite !snapshot_at_Some.
  intros (items & Hitems & Hsnap). exists items. split.
  - unfold items_at in *.
    destruct (h !! p) as [o|] eqn:Hp; [|done].
    by rewrite (lookup_weaken _ _ _ _ Hp Hsub).
  - eapply Forall2_impl; [exact Hsnap|]. intros l kv.
    rewrite !pair_at_Some. intros (k & v & Hl & Hk & Hv).
    exists k, v. repeat split; [|by eapply lookup_weaken..].
    destruct Hl; [left|right]; by eapply lookup_weaken.
Qed.

End HeapFacts.

(** ** Slices of a compacted layer *)

Section Slices.
Context {scalar : Type}.
Variable leb : scalar → scalar → bool.
Variable l2norm : list scalar → scalar.
Variable argsort : list scalar → list nat.

#[local] Abbreviation kept_idx := (kept_order l2norm argsort).
#[local] Abbreviation dropped_idx := (dropped_order l2norm argsort).

Lemma slice_at_rect {A} (x : tensor4 A) b h rows :
  wf4 x → slice_at x b h = Some rows →
  length rows = t_seq x ∧ Forall (λ r, length r = t_dim x) rows.
Proof.
  intros [_ Hwf] Hs. unfold slice_at in Hs.
  destruct (t_data x !! b) as [hs|] eqn:Hb; simplify_eq/=.
  rewrite Forall_lookup in Hwf. destruct (Hwf _ _ Hb) as [_ Hhs].
  rewrite Forall_lookup in Hhs. exact (Hhs _ _ Hs).
Qed.

Lemma slice_at_compacted_keys keep_ratio (kv : layer_cache) b h :
  slice_at (compacted l2norm argsort keep_ratio kv).1 b h =
  (λ krows, reorder (take (kept keep_ratio (t_seq kv.1))
                          (sorted_order l2norm argsort krows)) krows)
    <$> slice_at kv.1 b h.
Proof.
  unfold slice_at, compacted. cbn [fst t_data].
  rewrite list_lookup_fmap. destruct (t_data kv.1 !! b) as [hs|]; [|done].
  simpl. rewrite list_lookup_fmap.
  destruct (hs !! h) as [krows|]; [|done]. simpl.
  by rewrite take_reorder.
Qed.

Lemma slice_at_compacted_values keep_ratio (kv : layer_cache) b h krows vrows :
  slice_at kv.1 b h = Some krows → slice_at kv.2 b h = Some vrows →
  slice_at (compacted l2norm argsort keep_ratio kv).2 b h =
  Some (reorder (take (kept keep_ratio (t_seq kv.1))
                      (sorted_order l2norm argsort krows)) vrows).
Proof.
  unfold slice_at, compacted. cbn [fst snd t_data]. intros Hk Hv.
  rewrite lookup_zip_with.
  destruct (t_data kv.1 !! b) as [khs|]; [|done].
  destruct (t_data kv.2 !! b) as [vhs|]; [|done]. simpl in *.
  rewrite lookup_zip_with, Hk, Hv. simpl. by rewrite take_reorder.
Qed.

(** In a well-shaped layer the keys have a slice where the values have
    one. *)
Lemma slice_at_is_Some {A} (x : tensor4 A) b h :
  wf4 x → is_Some (slice_at x b h) ↔ b < t_batch x ∧ h < t_heads x.
Proof.
  intros [HB Hwf]. unfold slice_at. split.
  - intros [rows Hs].
    destruct (t_data x !! b) as [hs|] eqn:Hb; simplify_eq/=.
    rewrite Forall_lookup in Hwf. destruct (Hwf _ _ Hb) as [HH _].
    apply lookup_lt_Some in Hb, Hs. lia.
  - intros [Hb Hh]. rewrite <-HB in Hb.
    destruct (lookup_lt_is_Some_2 _ _ Hb) as [hs Hhs]. rewrite Hhs. simpl.
    rewrite Forall_lookup in Hwf. destruct (Hwf _ _ Hhs) as [HH _].
    apply lookup_lt_is_Some_2. lia.
Qed.

Lemma compressed_lookup keep_ratio prune_after skip_layers
    (pkv : list (layer_cache (scalar := scalar))) i kv :
  pkv !! i = Some kv →
  compressed l2norm argsort keep_ratio prune_after skip_layers pkv !! i =
  Some (if decide (passes_through prune_after skip_layers i kv) then kv
        else compacted l2norm argsort keep_ratio kv).
Proof. intros Hi. unfold compressed. by rewrite list_lookup_imap, Hi. Qed.

Lemma kept_dropped_perm keep_ratio krows :
  sorts leb argsort →
  kept_idx keep_ratio krows ++ dropped_idx keep_ratio krows ≡ₚ
  seq 0 (length krows).
Proof.
  intros [Hperm _]. unfold kept_order, dropped_order.
  rewrite take_drop. unfold sorted_order.
  by rewrite (Hperm _), length_fmap.
Qed.

Lemma length_kept_order keep_ratio krows :
  sorts leb argsort →
  length (kept_idx keep_ratio krows) = kept keep_ratio (length krows).
Proof.
  intros Hs. unfold kept_order, sorted_order.
  rewrite length_take, (sorts_length _ _ Hs), length_fmap.
  pose proof (slice_stop_le (tokens_to_keep keep_ratio (length krows))
                (length krows)).
  unfold kept. lia.
Qed.

Lemma kept_order_sorted keep_ratio krows :
  sorts leb argsort →
  StronglySorted (norm_le leb l2norm krows) (kept_idx keep_ratio krows).
Proof.
  intros [_ Hasc]. unfold kept_order, sorted_order, norm_le.
  specialize (Hasc (l2norm <$> krows)).
  rewrite <-(take_drop (kept keep_ratio (length krows))) in Hasc.
  by eapply StronglySorted_app_1_l.
Qed.

Lemma kept_le_dropped keep_ratio krows i j :
  sorts leb argsort →
  i ∈ kept_idx keep_ratio krows → j ∈ dropped_idx keep_ratio krows →
  norm_le leb l2norm krows i j.
Proof.
  intros [_ Hasc]. unfold kept_order, dropped_order, sorted_order, norm_le.
  specialize (Hasc (l2norm <$> krows)).
  rewrite <-(take_drop (kept keep_ratio (length krows))) in Hasc.
  by eapply StronglySorted_app_1_elem_of.
Qed.

Lemma kept_order_in_range keep_ratio krows :
  sorts leb argsort →
  Forall (λ i, i < length krows) (kept_idx keep_ratio krows).
Proof.
  intros Hs. unfold kept_order, sorted_order.
  apply Forall_take. pose proof (sorts_in_range _ _ Hs (l2norm <$> krows)) as H.
  by rewrite length_fmap in H.
Qed.

(** The rows picked by positions sorted by norm ascend in norm. *)
Lemma reorder_sorted krows idx :
  StronglySorted (norm_le leb l2norm krows) idx →
  StronglySorted (λ r1 r2, leb (l2norm r1) (l2norm r2) = true)
                 (reorder idx krows).
Proof.
  unfold reorder. apply StronglySorted_fmap_elem_of.
  intros i j _ _ (x & y & Hx & Hy & Hle).
  rewrite list_lookup_fmap in Hx, Hy.
  destruct (krows !! i) as [ri|] eqn:Hi; simplify_eq/=.
  destruct (krows !! j) as [rj|] eqn:Hj; simplify_eq/=.
  by rewrite (list_lookup_total_correct _ _ _ Hi),
             (list_lookup_total_correct _ _ _ Hj).
Qed.

End Slices.

(** * The claims *)

Section Claims.
Context {scalar : Type}.
Variable leb : scalar → scalar → bool.
Variable l2norm : list scalar → scalar.
Variable argsort : list scalar → list nat.

#[local] Abbreviation cache := (list (layer_cache (scalar := scalar))).

(** ** When the call returns, and what *)

(** On a cache whose layers are well shaped the call returns unless it
    visits a layer of exactly one token or one on which [math.ceil]
    raises. *)
Lemma l2_compress_returns keep_ratio prune_after skip_layers (snap : cache) :
  sorts leb argsort →
  well_shaped snap → no_single_token prune_after snap →
  ceil_returns keep_ratio prune_after snap →
  ∃ out,
    l2_compress l2norm argsort keep_ratio prune_after skip_layers snap = Ok out.
Proof.
  intros Hs Hwf Hone Hceil.
  exists (compressed l2norm argsort keep_ratio prune_after skip_layers snap).
  apply l2_compress_ok; [by eapply sorts_in_range|done..].
Qed.

(** On an exact [keep_ratio] [math.ceil] never raises. *)
Lemma l2_compress_returns_Rat (keep_ratio : Q) prune_after skip_layers
    (snap : cache) :
  sorts leb argsort →
  well_shaped snap → no_single_token prune_after snap →
  ∃ out,
    l2_compress l2norm argsort keep_ratio prune_after skip_layers snap = Ok out.
Proof.
  intros Hs Hwf Hone. apply l2_compress_returns; [done..|].
  apply ceil_returns_Rat.
Qed.

(** What it returns has, at each index, the input layer when the layer
    passes through and its compaction otherwise. *)
Lemma l2_compress_layers keep_ratio prune_after skip_layers
    (snap out : cache) :
  sorts leb argsort → well_shaped snap →
  l2_compress l2norm argsort keep_ratio prune_after skip_layers snap = Ok out →
  length out = length snap ∧
  ∀ i kv o, snap !! i = Some kv → out !! i = Some o →
    wf4 kv.1 ∧ wf4 kv.2 ∧ same_shape kv.1 kv.2 ∧
    o = if decide (passes_through prune_after skip_layers i kv) then kv
        else compacted l2norm argsort keep_ratio kv.
Proof.
  intros Hs Hwf [Hlen Hsteps]%l2_compress_Ok. split; [done|].
  intros i kv o Hi Ho.
  unfold well_shaped in Hwf. rewrite Forall_lookup in Hwf.
  destruct (Hwf _ _ Hi) as (Hwk & Hwv & Hshape).
  split; [done|]. split; [done|]. split; [done|].
  specialize (Hsteps i kv o Hi Ho).
  pose proof (layer_step_ceil _ _ _ _ _ _ _ _ Hsteps) as Hceil.
  rewrite layer_step_ok in Hsteps;
    [by injection Hsteps as <-|by eapply sorts_in_range|done..| |done].
  intros Hvisited Hone.
  rewrite (layer_step_single _ _ _ _ _ _ _ Hvisited Hone) in Hsteps
    by auto.
  discriminate.
Qed.

(** A visited layer of exactly one token makes the call raise, whatever
    the other arguments: [squeeze(-1)] drops the token axis of the norms
    and [expand] is then given one size too many. *)
Lemma single_token_layer_raises keep_ratio prune_after skip_layers
    (snap : cache) i kv :
  snap !! i = Some kv → visited prune_after kv → size2 kv.1 = 1 →
  ∃ e, l2_compress l2norm argsort keep_ratio prune_after skip_layers snap
       = Raise e.
Proof.
  intros Hi Hvisited Hone. apply l2_compress_Raise.
  destruct (layer_step_single_raises l2norm argsort keep_ratio prune_after
              skip_layers i kv) as [e He]; [done..|].
  by exists i, kv, e.
Qed.

(** Values smaller than the keys in batch, heads or width are refused by
    [torch.gather] on a visited layer whose keys have an entry at all. *)
Lemma smaller_values_raise keep_ratio prune_after skip_layers
    (snap : cache) i kv :
  sorts leb argsort →
  snap !! i = Some kv → visited prune_after kv → size2 kv.1 ≠ 1 →
  wf4 kv.1 → numel kv.1 ≠ 0 →
  t_batch kv.2 < t_batch kv.1 ∨ t_heads kv.2 < t_heads kv.1 ∨
    t_dim kv.2 < t_dim kv.1 →
  ∃ e, l2_compress l2norm argsort keep_ratio prune_after skip_layers snap
       = Raise e.
Proof.
  intros Hs Hi Hvisited Hone Hwk Hnumel Hsmall. apply l2_compress_Raise.
  exists i, kv.
  unfold layer_step, visited in *.
  destruct (Z.ltb_spec (Z.of_nat (size2 kv.1)) prune_after); [lia|].
  destruct kv as [keys values]. unfold sorted_prefix.
  destruct (ceil_product keep_ratio (size2 keys)) as [k|e];
    [|by exists e].
  exists GatherShape. split; [done|].
  rewrite bind_Ok, sorted_indices_expanded_eq by done.
  rewrite bind_Ok, (gather_sorted _ _ keys keys)
    by (done || by eapply sorts_in_range).
  rewrite bind_Ok. unfold gather, numel in *.
  cbn [t_batch t_heads t_seq t_dim t_data fst] in *.
  rewrite decide_False by done.
  rewrite decide_False; [done|]. simpl in *. lia.
Qed.

Lemma wf4_compacted keep_ratio (kv : layer_cache (scalar := scalar)) :
  sorts leb argsort → wf4 kv.1 → wf4 kv.2 → same_shape kv.1 kv.2 →
  wf4 (compacted l2norm argsort keep_ratio kv).1 ∧
  wf4 (compacted l2norm argsort keep_ratio kv).2.
Proof.
  intros Hs [HkB Hk] [HvB Hv] (HB & HH & HS & HD).
  assert (Hrow : ∀ {A} (krows : list (list scalar)) (rows : list (list A)),
    rect (t_seq kv.1) (t_dim kv.1) krows →
    rect (t_seq kv.1) (t_dim kv.1) rows →
    rect (kept keep_ratio (t_seq kv.1)) (t_dim kv.1)
      (take (kept keep_ratio (t_seq kv.1))
            (reorder (sorted_order l2norm argsort krows) rows))).
  { intros A krows rows [HkS _] [HrS HrD]. split.
    - rewrite length_take, length_reorder. unfold sorted_order.
      rewrite (sorts_length _ _ Hs), length_fmap, HkS.
      pose proof (slice_stop_le (tokens_to_keep keep_ratio (t_seq kv.1))
                    (t_seq kv.1)). unfold kept. lia.
    - apply Forall_take. unfold reorder. apply Forall_fmap, Forall_forall.
      intros i Hi. simpl.
      pose proof (sorts_in_range _ _ Hs (l2norm <$> krows)) as Hr.
      rewrite Forall_forall in Hr. apply Hr in Hi.
      rewrite length_fmap, HkS, <-HrS in Hi.
      destruct (lookup_lt_is_Some_2 _ _ Hi) as [r Hr'].
      rewrite (list_lookup_total_correct _ _ _ Hr').
      rewrite Forall_lookup in HrD. by eapply HrD. }
  split.
  - split; cbn [compacted fst t_batch t_heads t_seq t_dim t_data].
    + by rewrite length_fmap.
    + apply Forall_fmap. eapply Forall_impl; [exact Hk|].
      intros hs [HhH Hhs]. simpl. split; [by rewrite length_fmap|].
      apply Forall_fmap. eapply Forall_impl; [exact Hhs|].
      intros krows Hkrows. simpl. by apply Hrow.
  - split; cbn [compacted fst snd t_batch t_heads t_seq t_dim t_data].
    + rewrite length_zip_with. lia.
    + apply Forall_lookup. intros b hs Hb.
      apply lookup_zip_with_Some in Hb as (khs & vhs & -> & Hkb & Hvb).
      rewrite Forall_lookup in Hk, Hv.
      destruct (Hk _ _ Hkb) as [HkH Hkhs].
      destruct (Hv _ _ Hvb) as [HvH Hvhs].
      split; [rewrite length_zip_with; lia|].
      apply Forall_lookup. intros h rows Hh.
      apply lookup_zip_with_Some in Hh as (krows & vrows & -> & Hkh & Hvh).
      rewrite Forall_lookup in Hkhs, Hvhs.
      apply Hrow; [by eapply Hkhs|].
      rewrite HS, HD. by eapply Hvhs.
Qed.

(** Whenever the call returns, the layers it returns are in the order of
    the input, each with the batch size, head count and width of its input
    layer and with [seq_len] tokens or the kept number of them. *)
Lemma output_shapes keep_ratio prune_after skip_layers (snap out : cache) :
  sorts leb argsort → well_shaped snap →
  l2_compress l2norm argsort keep_ratio prune_after skip_layers snap = Ok out →
  length out = length snap ∧
  ∀ i kv o, snap !! i = Some kv → out !! i = Some o →
    wf4 o.1 ∧ wf4 o.2 ∧ same_shape o.1 o.2 ∧
    t_batch o.1 = t_batch kv.1 ∧ t_heads o.1 = t_heads kv.1 ∧
    t_dim o.1 = t_dim kv.1 ∧
    (size2 o.1 = size2 kv.1 ∨ size2 o.1 = kept keep_ratio (size2 kv.1)).
Proof.
  intros Hs Hwf Hout.
  destruct (l2_compress_layers _ _ _ _ _ Hs Hwf Hout) as [Hlen Hlayers].
  split; [done|]. intros i kv o Hi Ho.
  destruct (Hlayers i kv o Hi Ho) as (Hwk & Hwv & Hshape & ->).
  case_decide.
  { split; [done|]. split; [done|]. split; [done|]. by auto. }
  destruct (wf4_compacted keep_ratio kv) as [Hok Hov]; [done..|].
  split; [done|]. split; [done|]. split; [done|]. by auto.
Qed.

(** A call that returns went through [math.ceil] on every layer it
    visited. *)
Lemma l2_compress_ceil keep_ratio prune_after skip_layers
    (snap out : cache) i kv :
  l2_compress l2norm argsort keep_ratio prune_after skip_layers snap = Ok out →
  snap !! i = Some kv → visited prune_after kv →
  ceil_product keep_ratio (size2 kv.1) =
  Ok (tokens_to_keep keep_ratio (size2 kv.1)).
Proof.
  intros [Hlen Hsteps]%l2_compress_Ok Hi Hvisited.
  destruct (lookup_lt_is_Some_2 out i) as [o Ho].
  { rewrite <-Hlen. by eapply lookup_lt_Some. }
  apply ceil_product_returns.
  by eapply layer_step_ceil; [apply (Hsteps i kv o)|].
Qed.

Lemma not_passes_through_visited prune_after skip_layers i
    (kv : layer_cache (scalar := scalar)) :
  ¬ passes_through prune_after skip_layers i kv → visited prune_after kv.
Proof. unfold passes_through, visited. lia. Qed.

Lemma float_sized_lookup keep_ratio (snap : cache) i kv x :
  float_sized keep_ratio snap → snap !! i = Some kv →
  keep_ratio = Float x → (Z.of_nat (size2 kv.1) < 2 ^ 53)%Z.
Proof.
  intros Hsized Hi ->. unfold float_sized in Hsized.
  rewrite Forall_lookup in Hsized. by apply (Hsized _ _ Hi).
Qed.

(** For a ratio in [0, 1] [math.ceil] returns on every layer. *)
Lemma ceil_returns_unit keep_ratio q prune_after (snap : cache) :
  number_value keep_ratio = Some q → (0 <= q)%Q → (q <= 1)%Q →
  float_sized keep_ratio snap →
  ceil_returns keep_ratio prune_after snap.
Proof.
  intros Hq H0 H1 Hsized. apply Forall_lookup. intros i kv Hi _.
  apply (tokens_to_keep_unit keep_ratio q); [done..|].
  intros x. by eapply float_sized_lookup.
Qed.

(** When [math.ceil] raises on every layer the loop visits, the call
    raises what it raises on the first of them. *)
Lemma l2_compress_ceil_raises keep_ratio prune_after skip_layers
    (snap : cache) (P : exn → Prop) i kv :
  snap !! i = Some kv → visited prune_after kv →
  (∀ j kv', snap !! j = Some kv' → visited prune_after kv' →
     ∃ e, ceil_product keep_ratio (size2 kv'.1) = Raise e ∧ P e) →
  ∃ e, l2_compress l2norm argsort keep_ratio prune_after skip_layers snap
       = Raise e ∧ P e.
Proof.
  intros Hi Hvisited Hceil.
  assert (Hstep : ∀ j kv' e,
    snap !! j = Some kv' →
    layer_step l2norm argsort keep_ratio prune_after skip_layers j kv'
      = Raise e → P e).
  { intros j [keys values] e Hj. unfold layer_step, sorted_prefix.
    destruct (Z.ltb_spec (Z.of_nat (size2 (keys, values).1)) prune_after)
      as [|Hge]; [done|].
    destruct (Hceil j _ Hj Hge) as (e' & He' & HP). cbn [fst] in He'.
    rewrite He'. by intros [= <-]. }
  assert (∃ e, l2_compress l2norm argsort keep_ratio prune_after skip_layers
                 snap = Raise e) as [e He].
  { apply l2_compress_Raise. exists i, kv.
    destruct (Hceil i kv Hi Hvisited) as (e & He & _). exists e.
    split; [done|]. unfold layer_step, visited in *.
    destruct (Z.ltb_spec (Z.of_nat (size2 kv.1)) prune_after); [lia|].
    destruct kv as [keys values]. unfold sorted_prefix.
    cbn [fst] in He. by rewrite He. }
  exists e. split; [done|].
  rewrite l2_compress_enumerate in He.
  apply mapM_Raise in He as (j & [j' kv'] & Hj & He).
  rewrite lookup_enumerate_from in Hj.
  destruct (snap !! j) as [kv''|] eqn:Hkv; simplify_eq/=. by eapply Hstep.
Qed.

(** ** The claims *)

(** C1, as the code has it: with [keep_ratio = 1], the [int] or the
    [float], no token is dropped.  Every output layer has the shape of the
    input layer, a passed-through layer is the input layer, and in every
    (batch, head) slice the (key row, value row) pairs of the output are a
    permutation of those of the input; a compacted layer lists them in
    ascending order of key norm. *)
Theorem ratio_1_keeps_every_token keep_ratio q prune_after skip_layers
    (snap : cache) :
  sorts leb argsort →
  well_shaped snap → no_single_token prune_after snap →
  number_value keep_ratio = Some q → (q == 1)%Q →
  float_sized keep_ratio snap →
  ∃ out,
    l2_compress l2norm argsort keep_ratio prune_after skip_layers snap
      = Ok out ∧
    length out = length snap ∧
    ∀ i kv o,
      snap !! i = Some kv → out !! i = Some o →
      (passes_through prune_after skip_layers i kv → o = kv) ∧
      same_shape o.1 kv.1 ∧ same_shape o.2 kv.2 ∧
      ∀ b h krows vrows,
        slice_at kv.1 b h = Some krows → slice_at kv.2 b h = Some vrows →
        ∃ okrows ovrows,
          slice_at o.1 b h = Some okrows ∧
          slice_at o.2 b h = Some ovrows ∧
          zip okrows ovrows ≡ₚ zip krows vrows ∧
          (¬ passes_through prune_after skip_layers i kv →
           StronglySorted (λ r1 r2, leb (l2norm r1) (l2norm r2) = true)
                          okrows).
Proof.
  intros Hs Hwf Hone Hq Hr Hsized.
  assert (0 <= q)%Q as H0 by (by rewrite Hr).
  assert (q <= 1)%Q as Hle by (rewrite Hr; apply Qle_refl).
  assert (1 <= q)%Q as Hge by (rewrite Hr; apply Qle_refl).
  destruct (l2_compress_returns keep_ratio prune_after skip_layers snap)
    as [out Hout]; [done..|by eapply ceil_returns_unit|].
  destruct (l2_compress_layers _ _ _ _ _ Hs Hwf Hout) as [Hlen Hlayers].
  exists out. split; [done|]. split; [done|].
  intros i kv o Hi Ho.
  destruct (Hlayers i kv o Hi Ho) as (Hwk & Hwv & Hshape & ->).
  destruct (decide (passes_through prune_after skip_layers i kv))
    as [Hpass|Hpass].
  { repeat split; [done..|]. intros b h krows vrows Hk Hv.
    by exists krows, vrows. }
  assert (kept keep_ratio (t_seq kv.1) = t_seq kv.1) as Hall.
  { apply (kept_all_number keep_ratio q); [done..| |].
    - intros x. by eapply float_sized_lookup.
    - apply (tokens_to_keep_unit keep_ratio q); [done..|].
      intros x. by eapply float_sized_lookup. }
  split; [done|]. destruct Hshape as (HB & HH & HS & HD).
  split; [|split].
  - unfold same_shape, compacted. cbn [fst t_batch t_heads t_seq t_dim].
    by rewrite Hall.
  - unfold same_shape, compacted. cbn [fst snd t_batch t_heads t_seq t_dim].
    by rewrite Hall.
  - intros b h krows vrows Hk Hv.
    destruct (slice_at_rect _ _ _ _ Hwk Hk) as [Hklen _].
    destruct (slice_at_rect _ _ _ _ Hwv Hv) as [Hvlen _].
    eexists _, _. split; [by rewrite slice_at_compacted_keys, Hk|].
    split; [by eapply slice_at_compacted_values|].
    rewrite <-Hklen in Hall |- *.
    fold (kept_order l2norm argsort keep_ratio krows).
    split.
    + assert (kept_order l2norm argsort keep_ratio krows ≡ₚ
              seq 0 (length krows)) as Hidx.
      { rewrite <-(kept_dropped_perm leb l2norm argsort keep_ratio krows Hs).
        unfold dropped_order. rewrite Hall.
        rewrite drop_ge, app_nil_r; [done|]. unfold sorted_order.
        by rewrite (sorts_length _ _ Hs), length_fmap. }
      rewrite reorder_zip; [|lia|by apply (kept_order_in_range leb)].
      apply reorder_perm. rewrite length_zip_with.
      by replace (length krows `min` length vrows) with (length krows) by lia.
    + intros _. apply reorder_sorted. by apply kept_order_sorted.
Qed.

(** C2: for a ratio in (0, 1], exact or a [float], in every compacted
    layer and every (batch, head) slice the output keys are the rows at
    [tokens_to_keep] positions of the input whose key norms (taken row by
    row, along the embedding axis) are at most those of all positions left
    out, listed in ascending order of norm; and the call returns such an
    output unless it visits a layer of one token. *)
Theorem kept_tokens_have_smallest_norms keep_ratio q prune_after skip_layers
    (snap : cache) :
  sorts leb argsort → well_shaped snap →
  number_value keep_ratio = Some q → (0 < q)%Q → (q <= 1)%Q →
  float_sized keep_ratio snap →
  (no_single_token prune_after snap →
   ∃ out, l2_compress l2norm argsort keep_ratio prune_after skip_layers snap
          = Ok out) ∧
  ∀ out i kv o b h krows,
    l2_compress l2norm argsort keep_ratio prune_after skip_layers snap
      = Ok out →
    snap !! i = Some kv → out !! i = Some o →
    ¬ passes_through prune_after skip_layers i kv →
    slice_at kv.1 b h = Some krows →
    ∃ kept_idx dropped_idx,
      kept_idx ++ dropped_idx ≡ₚ seq 0 (length krows) ∧
      Z.of_nat (length kept_idx) = tokens_to_keep keep_ratio (size2 kv.1) ∧
      slice_at o.1 b h = Some (reorder kept_idx krows) ∧
      StronglySorted (λ r1 r2, leb (l2norm r1) (l2norm r2) = true)
                     (reorder kept_idx krows) ∧
      ∀ p p', p ∈ kept_idx → p' ∈ dropped_idx →
              norm_le leb l2norm krows p p'.
Proof.
  intros Hs Hwf Hq H0 H1 Hsized. apply Qlt_le_weak in H0. split.
  { intros Hone. apply l2_compress_returns; [done..|].
    by eapply ceil_returns_unit. }
  intros out i kv o b h krows Hout Hi Ho Hpass Hk.
  destruct (l2_compress_layers _ _ _ _ _ Hs Hwf Hout) as [_ Hlayers].
  destruct (Hlayers i kv o Hi Ho) as (Hwk & Hwv & Hshape & ->).
  rewrite decide_False by done.
  destruct (slice_at_rect _ _ _ _ Hwk Hk) as [Hlen _].
  exists (kept_order l2norm argsort keep_ratio krows),
         (dropped_order l2norm argsort keep_ratio krows).
  split; [by eapply kept_dropped_perm|]. split; [|split; [|split]].
  - rewrite (length_kept_order leb) by done. unfold size2.
    rewrite Hlen. apply (kept_unit keep_ratio q); [done..|].
    intros x. by eapply float_sized_lookup.
  - rewrite slice_at_compacted_keys, Hk. simpl.
    unfold kept_order. by rewrite Hlen.
  - apply reorder_sorted. by apply kept_order_sorted.
  - intros p p'. by apply kept_le_dropped.
Qed.

(** C3, as the code has it: neither [keep_ratio] nor [prune_after] is
    checked.  Whatever their values, the call on a cache whose layers have
    keys and values of one shape returns a cache of as many layers, unless
    it visits a layer of one token or one on which [math.ceil] raises.
    [math.ceil] never raises on an exact [keep_ratio]; on a [float] it
    raises [ValueError] when the product is NaN and [OverflowError] when
    it is infinite, and so does the call from the first layer it visits.
    What else is refused is refused by [torch.gather]: on a visited layer
    whose keys have an entry, values that are smaller than the keys in
    batch, heads or width make the call raise. *)
Theorem no_argument_validation keep_ratio (prune_after : Z) skip_layers :
  sorts leb argsort →
  (∀ snap : cache,
     well_shaped snap → no_single_token prune_after snap →
     ceil_returns keep_ratio prune_after snap →
     ∃ out,
       l2_compress l2norm argsort keep_ratio prune_after skip_layers snap
         = Ok out ∧
       length out = length snap) ∧
  (∀ snap : cache,
     (∃ q : Q, keep_ratio = Rat q) →
     ceil_returns keep_ratio prune_after snap) ∧
  (∀ (snap : cache) i kv,
     snap !! i = Some kv → visited prune_after kv →
     Forall (λ kv, (Z.of_nat (size2 kv.1) < 2 ^ 53)%Z) snap →
     (keep_ratio = Float S754_nan →
      l2_compress l2norm argsort keep_ratio prune_after skip_layers snap
        = Raise ValueError) ∧
     (∀ s, keep_ratio = Float (S754_infinity s) →
      ∃ e, l2_compress l2norm argsort keep_ratio prune_after skip_layers snap
             = Raise e ∧
           (e = OverflowError ∨ e = ValueError))) ∧
  (∀ (snap : cache) i kv,
     snap !! i = Some kv → visited prune_after kv → size2 kv.1 ≠ 1 →
     wf4 kv.1 → numel kv.1 ≠ 0 →
     t_batch kv.2 < t_batch kv.1 ∨ t_heads kv.2 < t_heads kv.1 ∨
       t_dim kv.2 < t_dim kv.1 →
     ∃ e, l2_compress l2norm argsort keep_ratio prune_after skip_layers snap
          = Raise e).
Proof.
  intros Hs. split; [|split; [|split]].
  - intros snap Hwf Hone Hceil.
    destruct (l2_compress_returns keep_ratio prune_after skip_layers snap)
      as [out Hout]; [done..|].
    destruct (l2_compress_layers _ _ _ _ _ Hs Hwf Hout) as [Hlen _].
    by exists out.
  - intros snap [q ->]. apply ceil_returns_Rat.
  - intros snap i kv Hi Hvisited Hsized. rewrite Forall_lookup in Hsized.
    split.
    + intros ->.
      destruct (l2_compress_ceil_raises (Float S754_nan) prune_after
                  skip_layers snap (λ e, e = ValueError) i kv)
        as (e & He & ->); [done..| |done].
      intros j kv' Hj _. exists ValueError. split; [|done].
      apply ceil_product_nan. by apply (Hsized _ _ Hj).
    + intros s ->.
      apply (l2_compress_ceil_raises _ _ _ _
               (λ e, e = OverflowError ∨ e = ValueError) i kv); [done..|].
      intros j kv' Hj _. eexists. split.
      * apply ceil_product_infinity. by apply (Hsized _ _ Hj).
      * case_decide; auto.
  - intros snap i kv. by apply smaller_values_raise.
Qed.

(** C5, as the code has it: a compacted layer holds, in its keys and in
    its values, as many tokens as the slice [:tokens_to_keep] leaves of
    [seq_len], where [tokens_to_keep] is the ceiling of the product as
    Python computes it: of the exact product for an exact [keep_ratio],
    and of the product rounded to binary64, which is then neither NaN nor
    infinite, for a [float].  That is [min(tokens_to_keep, seq_len)] when
    [tokens_to_keep] is not negative, and [max(0, seq_len +
    tokens_to_keep)] when it is; 13 tokens at ratio 0.6 leave 8; and the
    call returns such an output unless it visits a layer of one token or
    one on which [math.ceil] raises. *)
Theorem retained_token_count keep_ratio prune_after skip_layers
    (snap : cache) :
  sorts leb argsort → well_shaped snap →
  (no_single_token prune_after snap →
   ceil_returns keep_ratio prune_after snap →
   ∃ out, l2_compress l2norm argsort keep_ratio prune_after skip_layers snap
          = Ok out) ∧
  ∀ out i kv o,
    l2_compress l2norm argsort keep_ratio prune_after skip_layers snap
      = Ok out →
    snap !! i = Some kv → out !! i = Some o →
    ¬ passes_through prune_after skip_layers i kv →
    let seq_len := Z.of_nat (size2 kv.1) in
    ∃ k : Z,
      match keep_ratio with
      | Rat q => k = Qceiling (q * inject_Z seq_len)
      | Float x =>
          let y := binary_normalize 53 1024 seq_len 0 false in
          let product := SFmul 53 1024 x y in
          product ≠ S754_nan ∧ (∀ s, product ≠ S754_infinity s) ∧
          k = Qceiling (float_value product) ∧
          ((seq_len < 2 ^ 53)%Z → (float_value y == inject_Z seq_len)%Q)
      end ∧
      let n := Z.to_nat (if (k <? 0)%Z then Z.max 0 (seq_len + k)
                         else Z.min k seq_len) in
      size2 o.1 = n ∧ size2 o.2 = n ∧ wf4 o.1 ∧ wf4 o.2 ∧
      (keep_ratio = Float float_0_6 ∨
         (∃ q : Q, keep_ratio = Rat q ∧ (q == 3 # 5)%Q) →
       size2 kv.1 = 13 → k = 8%Z ∧ n = 8).
Proof.
  intros Hs Hwf. split; [by apply l2_compress_returns|].
  intros out i kv o Hout Hi Ho Hpass seq_len.
  destruct (l2_compress_layers _ _ _ _ _ Hs Hwf Hout) as [_ Hlayers].
  destruct (Hlayers i kv o Hi Ho) as (Hwk & Hwv & Hshape & ->).
  rewrite decide_False by done.
  destruct (wf4_compacted keep_ratio kv) as [Hok Hov]; [done..|].
  pose proof (l2_compress_ceil _ _ _ _ _ _ _ Hout Hi
                (not_passes_through_visited _ _ _ _ Hpass)) as Hceil.
  set (k := tokens_to_keep keep_ratio (size2 kv.1)) in *.
  exists k. split.
  { destruct keep_ratio as [q|x].
    - reflexivity.
    - destruct (ceil_product_Float_inv _ _ _ Hceil) as (Hnan & Hinf & Hk).
      cbv zeta. split; [done|]. split; [done|]. split; [done|].
      intros Hsmall. unfold seq_len in *.
      by destruct (float_of_nat_value (size2 kv.1) Hsmall)
        as (y & _ & -> & Hy & _). }
  assert (slice_stop k (size2 kv.1) =
          Z.to_nat (if (k <? 0)%Z then Z.max 0 (seq_len + k)
                    else Z.min k seq_len)) as Hstop.
  { unfold slice_stop, seq_len. destruct (k <? 0)%Z; f_equal. lia. }
  cbv zeta. rewrite <-Hstop.
  split; [done|]. split; [done|]. split; [done|]. split; [done|].
  intros Hr H13.
  assert (ceil_product keep_ratio 13 = Ok 8%Z) as H8.
  { destruct Hr as [->|(q & -> & Hq)]; [by vm_compute|].
    rewrite ceil_product_Rat. by rewrite Hq. }
  rewrite H13 in Hceil. rewrite Hceil in H8. injection H8 as H8.
  fold k in H8. rewrite H8, H13. done.
Qed.

(** C7: in a compacted layer the key row and the value row at an output
    position are the rows of one and the same input position; and the call
    returns such an output unless it visits a layer of one token or one on
    which [math.ceil] raises (which it never does on an exact
    [keep_ratio]). *)
Theorem keys_and_values_share_positions keep_ratio prune_after skip_layers
    (snap : cache) :
  sorts leb argsort → well_shaped snap →
  (no_single_token prune_after snap →
   ceil_returns keep_ratio prune_after snap →
   ∃ out, l2_compress l2norm argsort keep_ratio prune_after skip_layers snap
          = Ok out) ∧
  ∀ out i kv o b h krows vrows,
    l2_compress l2norm argsort keep_ratio prune_after skip_layers snap
      = Ok out →
    snap !! i = Some kv → out !! i = Some o →
    ¬ passes_through prune_after skip_layers i kv →
    slice_at kv.1 b h = Some krows → slice_at kv.2 b h = Some vrows →
    ∃ idx okrows ovrows,
      slice_at o.1 b h = Some okrows ∧
      slice_at o.2 b h = Some ovrows ∧
      length okrows = length idx ∧ length ovrows = length idx ∧
      ∀ t p, idx !! t = Some p →
        ∃ k v, krows !! p = Some k ∧ vrows !! p = Some v ∧
               okrows !! t = Some k ∧ ovrows !! t = Some v.
Proof.
  intros Hs Hwf. split; [by apply l2_compress_returns|].
  intros out i kv o b h krows vrows Hout Hi Ho Hpass Hk Hv.
  destruct (l2_compress_layers _ _ _ _ _ Hs Hwf Hout) as [_ Hlayers].
  destruct (Hlayers i kv o Hi Ho) as (Hwk & Hwv & Hshape & ->).
  rewrite decide_False by done.
  destruct (slice_at_rect _ _ _ _ Hwk Hk) as [Hklen _].
  destruct (slice_at_rect _ _ _ _ Hwv Hv) as [Hvlen _].
  destruct Hshape as (_ & _ & HS & _).
  exists (kept_order l2norm argsort keep_ratio krows).
  eexists _, _. split; [by rewrite slice_at_compacted_keys, Hk|].
  split; [by eapply slice_at_compacted_values|].
  rewrite <-Hklen. fold (kept_order l2norm argsort keep_ratio krows).
  rewrite !length_reorder. repeat split.
  intros t p Hp.
  pose proof (kept_order_in_range leb l2norm argsort keep_ratio krows Hs)
    as Hrange.
  rewrite Forall_lookup in Hrange. specialize (Hrange _ _ Hp). simpl in *.
  destruct (lookup_lt_is_Some_2 krows p) as [k Hkp]; [done|].
  destruct (lookup_lt_is_Some_2 vrows p) as [v Hvp]; [lia|].
  exists k, v. repeat split; [done..| |]; by eapply lookup_reorder.
Qed.

(** C10, as the code has it: with a [keep_ratio] above 1, exact or a
    binary64 [float], no argument is refused, and where [math.ceil]
    returns the number asked for is at least [seq_len] (more when there is
    a token at all), the slice stops at [seq_len], and a compacted layer
    holds all its rows, keys and values alike, in ascending order of key
    norm.  ([math.ceil] returns on every exact [keep_ratio]; on a [float]
    it raises when the rounded product is infinite.) *)
Theorem ratio_above_1_keeps_every_token keep_ratio q prune_after skip_layers
    (snap : cache) :
  sorts leb argsort →
  well_shaped snap → no_single_token prune_after snap →
  number_value keep_ratio = Some q → (1 < q)%Q → binary64 keep_ratio →
  float_sized keep_ratio snap →
  ceil_returns keep_ratio prune_after snap →
  ∃ out,
    l2_compress l2norm argsort keep_ratio prune_after skip_layers snap
      = Ok out ∧
    ∀ i kv o,
      snap !! i = Some kv → out !! i = Some o →
      ¬ passes_through prune_after skip_layers i kv →
      (Z.of_nat (size2 kv.1) ≤ tokens_to_keep keep_ratio (size2 kv.1))%Z ∧
      (0 < size2 kv.1 →
       (Z.of_nat (size2 kv.1) < tokens_to_keep keep_ratio (size2 kv.1))%Z) ∧
      size2 o.1 = size2 kv.1 ∧ size2 o.2 = size2 kv.2 ∧
      ∀ b h krows vrows,
        slice_at kv.1 b h = Some krows → slice_at kv.2 b h = Some vrows →
        ∃ idx,
          idx ≡ₚ seq 0 (length krows) ∧
          slice_at o.1 b h = Some (reorder idx krows) ∧
          slice_at o.2 b h = Some (reorder idx vrows) ∧
          StronglySorted (λ r1 r2, leb (l2norm r1) (l2norm r2) = true)
                         (reorder idx krows).
Proof.
  intros Hs Hwf Hone Hq Hr Hvalid Hsized Hceil.
  assert (1 <= q)%Q as Hge by (by apply Qlt_le_weak).
  destruct (l2_compress_returns keep_ratio prune_after skip_layers snap)
    as [out Hout]; [done..|].
  destruct (l2_compress_layers _ _ _ _ _ Hs Hwf Hout) as [_ Hlayers].
  exists out. split; [done|].
  intros i kv o Hi Ho Hpass.
  destruct (Hlayers i kv o Hi Ho) as (Hwk & Hwv & Hshape & ->).
  rewrite decide_False by done.
  destruct Hshape as (_ & _ & HS & _).
  assert (∀ x, keep_ratio = Float x → Z.of_nat (size2 kv.1) < 2 ^ 53)%Z
    as Hsmall by (intros x; by eapply float_sized_lookup).
  assert (returns (ceil_product keep_ratio (size2 kv.1))) as Hret.
  { unfold ceil_returns in Hceil. rewrite Forall_lookup in Hceil.
    eapply Hceil; [done|]. by eapply not_passes_through_visited. }
  assert (kept keep_ratio (t_seq kv.1) = t_seq kv.1) as Hall
    by (by apply (kept_all_number keep_ratio q)).
  split; [by apply (tokens_to_keep_ge_number keep_ratio q)|].
  split; [by apply (tokens_to_keep_gt_number keep_ratio q)|].
  split; [|split].
  - unfold size2, compacted. by cbn [fst t_seq].
  - unfold size2, compacted. cbn [fst snd t_seq]. by rewrite <-HS.
  - intros b h krows vrows Hk Hv.
    destruct (slice_at_rect _ _ _ _ Hwk Hk) as [Hklen _].
    exists (kept_order l2norm argsort keep_ratio krows).
    assert (kept_order l2norm argsort keep_ratio krows =
            sorted_order l2norm argsort krows) as Horder.
    { unfold kept_order. rewrite Hklen, Hall, <-Hklen. apply take_ge.
      unfold sorted_order.
      by rewrite (sorts_length _ _ Hs), length_fmap. }
    split; [|split; [|split]].
    + rewrite Horder. unfold sorted_order.
      by rewrite (sorts_perm _ _ Hs), length_fmap.
    + rewrite slice_at_compacted_keys, Hk. simpl.
      unfold kept_order. by rewrite Hklen.
    + rewrite (slice_at_compacted_values _ _ _ _ _ _ krows vrows) by done.
      unfold kept_order. by rewrite Hklen.
    + apply reorder_sorted. by apply kept_order_sorted.
Qed.

End Claims.

Section HeapClaim.
Context {scalar : Type}.
Variable l2norm : list scalar → scalar.
Variable argsort : list scalar → list nat.
Variable keep_ratio : number.
Variable prune_after : Z.
Variable skip_layers : list Z.

(** C9: the call changes no object that existed before it.  Run on a heap
    [h] that holds a cache at [p], it returns the location [q] of a list
    that did not exist in [h]; every object of [h] is still there,
    unchanged, so [p] still holds the input cache; [q] holds the value
    [l2_compress] computes; each item of the new list is the pair object
    of the input at that index or a new pair of new tensors; and a second
    call on the resulting heap computes the same value again.  When
    [l2_compress] raises, so does the call on the heap. *)
Theorem l2_compress_heap_frame (h : heap scalar) p snap :
  snapshot_at h p = Some snap →
  match l2_compress l2norm argsort keep_ratio prune_after skip_layers snap
  with
  | Ok out =>
      ∃ q h' items items',
        l2_compress_heap l2norm argsort keep_ratio prune_after skip_layers
          p h = Ok (q, h') ∧
        h ⊆ h' ∧ h !! q = None ∧
        snapshot_at h' p = Some snap ∧ snapshot_at h' q = Some out ∧
        items_at h p = Some items ∧ items_at h' q = Some items' ∧
        (∀ i t, items' !! i = Some t →
                items !! i = Some t ∨ fresh_pair h h' t) ∧
        ∃ q2 h'',
          l2_compress_heap l2norm argsort keep_ratio prune_after
            skip_layers p h' = Ok (q2, h'') ∧
          h' ⊆ h'' ∧ snapshot_at h'' q2 = Some out
  | Raise e =>
      l2_compress_heap l2norm argsort keep_ratio prune_after skip_layers
        p h = Raise e
  end.
Proof.
  intros Hsnap.
  pose proof (l2_compress_heap_spec l2norm argsort keep_ratio prune_after
                skip_layers h p snap Hsnap) as Hcall.
  unfold call_post in Hcall.
  destruct (l2_compress _ _ _ _ _ snap) as [out|e] eqn:Hout; [|done].
  destruct Hcall as (q & h' & items & items' & Hrun & Hsub & Hq & Hqout
                     & Hitems & Hq' & Hfresh).
  pose proof (snapshot_at_mono h h' p snap Hsub Hsnap) as Hsnap'.
  exists q, h', items, items'. repeat split; try done.
  { unfold items_at. by rewrite Hq'. }
  pose proof (l2_compress_heap_spec l2norm argsort keep_ratio prune_after
                skip_layers h' p snap Hsnap') as Hcall'.
  unfold call_post in Hcall'. rewrite Hout in Hcall'.
  destruct Hcall' as (q2 & h'' & _ & _ & Hrun' & Hsub' & _ & Hq2 & _).
  by exists q2, h''.
Qed.

End HeapClaim.

(** * Further properties of the call *)

(** ** Lists and the error monad, continued *)

Lemma mapM_result_ext {A B} (f g : A → result B) (l : list A) :
  (∀ x, x ∈ l → f x = g x) → mapM f l = mapM g l.
Proof.
  induction l as [|x l IH]; intros Hfg; [done|].
  cbn [mapM]. rewrite (Hfg x) by left.
  rewrite IH; [done|]. intros y Hy. apply Hfg. by right.
Qed.

Lemma mapM_result_app {A B} (f : A → result B) (l1 l2 : list A) :
  mapM f (l1 ++ l2) =
  match mapM f l1 with
  | Ok k1 => match mapM f l2 with
             | Ok k2 => Ok (k1 ++ k2)
             | Raise e => Raise e
             end
  | Raise e => Raise e
  end.
Proof.
  induction l1 as [|x l1 IH]; simpl.
  - by destruct (mapM f l2).
  - destruct (f x); simpl; [|done]. rewrite IH.
    destruct (mapM f l1); simpl; [|done]. by destruct (mapM f l2).
Qed.

Lemma enumerate_from_app {A} (start : nat) (l1 l2 : list A) :
  enumerate_from start (l1 ++ l2) =
  enumerate_from start l1 ++ enumerate_from (start + length l1) l2.
Proof.
  unfold enumerate_from. rewrite length_app, seq_app.
  rewrite zip_with_app; [done|]. by rewrite length_seq.
Qed.

Section LoopProperties.
Context {scalar : Type}.
Variable leb : scalar → scalar → bool.
Variable l2norm : list scalar → scalar.
Variable argsort : list scalar → list nat.

#[local] Abbreviation cache := (list (layer_cache (scalar := scalar))).

(** ** Layers the loop does not store to *)

Lemma layer_step_passes keep_ratio prune_after skip_layers i
    (kv o : layer_cache (scalar := scalar)) :
  passes_through prune_after skip_layers i kv →
  layer_step l2norm argsort keep_ratio prune_after skip_layers i kv = Ok o →
  o = kv.
Proof.
  unfold passes_through, layer_step. intros Hpass.
  destruct (Z.ltb_spec (Z.of_nat (size2 kv.1)) prune_after) as [Hlt|Hge].
  - congruence.
  - destruct (sorted_prefix _ _ _ kv) as [new|e]; [|done].
    rewrite bind_Ok. destruct (decide (Z.of_nat i ∈ skip_layers)).
    + congruence.
    + destruct Hpass; [done|lia].
Qed.

(** X1: whenever the call returns, the list it returns has the length of
    the input, and every layer that is in [skip_layers] or holds fewer than
    [prune_after] tokens is the input's layer; nothing is asked of the
    shapes or the contents of the tensors. *)
Theorem passed_through_layers_untouched keep_ratio prune_after skip_layers
    (snap out : cache) :
  l2_compress l2norm argsort keep_ratio prune_after skip_layers snap = Ok out →
  length out = length snap ∧
  ∀ i kv, snap !! i = Some kv →
    passes_through prune_after skip_layers i kv → out !! i = Some kv.
Proof.
  intros [Hlen Hstep]%l2_compress_Ok. split; [done|].
  intros i kv Hi Hpass.
  destruct (lookup_lt_is_Some_2 out i) as [o Ho].
  { rewrite <-Hlen. by eapply lookup_lt_Some. }
  rewrite Ho. f_equal. eapply layer_step_passes; [exact Hpass|].
  by eapply Hstep.
Qed.

(** X2: when every layer holds fewer than [prune_after] tokens the call
    returns the input cache, whatever the tensors are: no layer is looked
    into, so no malformed layer can make the call fail. *)
Theorem below_threshold_is_identity keep_ratio prune_after skip_layers
    (snap : cache) :
  Forall (λ kv, (Z.of_nat (size2 kv.1) < prune_after)%Z) snap →
  l2_compress l2norm argsort keep_ratio prune_after skip_layers snap = Ok snap.
Proof.
  intros Hlt. apply l2_compress_Ok. split; [done|].
  intros i kv o Hi Ho. simplify_eq.
  rewrite Forall_lookup in Hlt. specialize (Hlt _ _ Hi).
  unfold layer_step.
  by destruct (Z.ltb_spec (Z.of_nat (size2 kv.1)) prune_after); [|lia].
Qed.

(** ** The layers one by one *)

(** X3: the layer the call returns at an index is computed from the input
    layer at that index alone: two caches that hold the same layer at
    index [i] get the same layer at [i], when both calls return. *)
Theorem layers_are_independent keep_ratio prune_after skip_layers
    (snap snap' out out' : cache) i :
  l2_compress l2norm argsort keep_ratio prune_after skip_layers snap = Ok out →
  l2_compress l2norm argsort keep_ratio prune_after skip_layers snap'
    = Ok out' →
  snap !! i = snap' !! i → out !! i = out' !! i.
Proof.
  intros [Hlen Hstep]%l2_compress_Ok [Hlen' Hstep']%l2_compress_Ok Hi.
  destruct (snap !! i) as [kv|] eqn:Hkv.
  - destruct (lookup_lt_is_Some_2 out i) as [o Ho].
    { rewrite <-Hlen. by eapply lookup_lt_Some. }
    destruct (lookup_lt_is_Some_2 out' i) as [o' Ho'].
    { rewrite <-Hlen'. by eapply lookup_lt_Some. }
    specialize (Hstep _ _ _ Hkv Ho). specialize (Hstep' _ _ _ (eq_sym Hi) Ho').
    congruence.
  - rewrite (lookup_ge_None_2 out), (lookup_ge_None_2 out'); [done|..].
    + rewrite <-Hlen'. by apply lookup_ge_None.
    + rewrite <-Hlen. by apply lookup_ge_None.
Qed.

(** X4: the call on the first layers of a cache is the first part of the
    call on the cache: an error on a prefix is the error of the whole
    call, and when the whole call returns, the call on the prefix returns
    the corresponding prefix of the result. *)
Theorem prefix_of_cache keep_ratio prune_after skip_layers
    (snap1 snap2 : cache) :
  (∀ e,
     l2_compress l2norm argsort keep_ratio prune_after skip_layers snap1
       = Raise e →
     l2_compress l2norm argsort keep_ratio prune_after skip_layers
       (snap1 ++ snap2) = Raise e) ∧
  (∀ out,
     l2_compress l2norm argsort keep_ratio prune_after skip_layers
       (snap1 ++ snap2) = Ok out →
     l2_compress l2norm argsort keep_ratio prune_after skip_layers snap1
       = Ok (take (length snap1) out)).
Proof.
  rewrite !l2_compress_enumerate, enumerate_from_app, mapM_result_app.
  split.
  - by intros e ->.
  - intros out.
    destruct (mapM _ (enumerate_from 0 snap1)) as [k1|e] eqn:H1; [|done].
    destruct (mapM _ (enumerate_from (0 + _) snap2)) as [k2|e]; [|done].
    intros [= <-]. f_equal.
    apply mapM_Ok, Forall2_length in H1.
    rewrite length_enumerate_from in H1.
    by rewrite H1, take_app_length.
Qed.

(** ** [skip_layers] *)

Lemma l2_compress_skip_ext keep_ratio prune_after skip_layers skip_layers'
    (snap : cache) :
  (∀ i, i < length snap →
        Z.of_nat i ∈ skip_layers ↔ Z.of_nat i ∈ skip_layers') →
  l2_compress l2norm argsort keep_ratio prune_after skip_layers snap =
  l2_compress l2norm argsort keep_ratio prune_after skip_layers' snap.
Proof.
  intros Hmem. rewrite !l2_compress_enumerate. apply mapM_result_ext.
  intros [j kv'] (i & Hi)%list_elem_of_lookup.
  rewrite lookup_enumerate_from in Hi.
  destruct (snap !! i) as [kv|] eqn:Hkv; [|done].
  injection Hi as <- <-. apply lookup_lt_Some in Hkv.
  cbn [fst snd Nat.add]. unfold layer_step.
  destruct (Z.of_nat (size2 kv.1) <? prune_after)%Z; [done|].
  destruct (sorted_prefix _ _ _ kv); [|done]. rewrite !bind_Ok.
  destruct (decide (Z.of_nat i ∈ skip_layers)) as [Hin|Hin];
    destruct (decide (Z.of_nat i ∈ skip_layers')) as [Hin'|Hin'];
    try done; apply Hmem in Hkv; tauto.
Qed.

(** X5: the entries of [skip_layers] are compared with the indices
    [0 .. len - 1] only: entries that are negative (they do not count from
    the end) or not below the number of layers change nothing, and neither
    do the order and the repetitions of the entries. *)
Theorem skip_layers_out_of_range_ignored keep_ratio prune_after skip_layers
    (snap : cache) :
  l2_compress l2norm argsort keep_ratio prune_after skip_layers snap =
  l2_compress l2norm argsort keep_ratio prune_after
    (filter (λ z, (0 ≤ z < Z.of_nat (length snap))%Z) skip_layers) snap.
Proof.
  apply l2_compress_skip_ext. intros i Hi.
  rewrite list_elem_of_filter. intuition lia.
Qed.

End LoopProperties.

(** ** The number of tokens kept, continued *)

Lemma tokens_to_keep_nonpos (keep_ratio : Q) (n : nat) :
  (keep_ratio <= 0)%Q → (tokens_to_keep keep_ratio n ≤ 0)%Z.
Proof.
  intros Hr. rewrite !tokens_to_keep_Rat.
  change 0%Z with (Qceiling (inject_Z 0)). apply Qceiling_resp_le.
  setoid_replace (inject_Z 0) with (0 * inject_Z (Z.of_nat n))%Q
    using relation Qeq by ring.
  apply Qmult_le_compat_r; [done|].
  change 0%Q with (inject_Z 0). rewrite <-Zle_Qle. lia.
Qed.

Lemma tokens_to_keep_mono (r1 r2 : Q) (n : nat) :
  (r1 <= r2)%Q → (tokens_to_keep r1 n ≤ tokens_to_keep r2 n)%Z.
Proof.
  intros Hr. rewrite !tokens_to_keep_Rat. apply Qceiling_resp_le.
  apply Qmult_le_compat_r; [done|].
  change 0%Q with (inject_Z 0). rewrite <-Zle_Qle. lia.
Qed.

Lemma kept_mono (r1 r2 : Q) (n : nat) :
  (0 <= r1)%Q → (r1 <= r2)%Q → kept r1 n ≤ kept r2 n.
Proof.
  intros H0 Hr. unfold kept.
  pose proof (tokens_to_keep_nonneg r1 n H0).
  pose proof (tokens_to_keep_mono r1 r2 n Hr).
  rewrite !slice_stop_clamp by lia. lia.
Qed.


Section OrderProperties.
Context {scalar : Type}.
Variable leb : scalar → scalar → bool.
Variable l2norm : list scalar → scalar.
Variable argsort : list scalar → list nat.

#[local] Abbreviation cache := (list (layer_cache (scalar := scalar))).
#[local] Abbreviation order := (sorted_order l2norm argsort).
#[local] Abbreviation ascending :=
  (StronglySorted (λ r1 r2 : list scalar, leb (l2norm r1) (l2norm r2) = true)).


(** X7: between two calls that differ in [keep_ratio] only, with exact
    ratios [0 <= r1 <= r2], the call with the larger ratio keeps at least the
    tokens of the other: in every slice of a compacted layer the rows kept
    at [r1] are the first rows of those kept at [r2], for keys and for
    values. *)
Theorem larger_ratio_keeps_more r1 r2 prune_after skip_layers
    (snap out1 out2 : cache) :
  sorts leb argsort → well_shaped snap →
  (0 <= r1)%Q → (r1 <= r2)%Q →
  l2_compress l2norm argsort r1 prune_after skip_layers snap = Ok out1 →
  l2_compress l2norm argsort r2 prune_after skip_layers snap = Ok out2 →
  ∀ i kv o1 o2,
    snap !! i = Some kv → out1 !! i = Some o1 → out2 !! i = Some o2 →
    ¬ passes_through prune_after skip_layers i kv →
    size2 o1.1 ≤ size2 o2.1 ∧
    ∀ b h krows1 vrows1 krows2 vrows2,
      slice_at o1.1 b h = Some krows1 → slice_at o1.2 b h = Some vrows1 →
      slice_at o2.1 b h = Some krows2 → slice_at o2.2 b h = Some vrows2 →
      krows1 `prefix_of` krows2 ∧ vrows1 `prefix_of` vrows2.
Proof.
  intros Hs Hwf H0 Hr Hout1 Hout2 i kv o1 o2 Hi Ho1 Ho2 Hpass.
  destruct (l2_compress_layers _ _ _ _ _ _ _ _ Hs Hwf Hout1) as [_ Hl1].
  destruct (l2_compress_layers _ _ _ _ _ _ _ _ Hs Hwf Hout2) as [_ Hl2].
  destruct (Hl1 i kv o1 Hi Ho1) as (Hwk & Hwv & Hshape & ->).
  destruct (Hl2 i kv o2 Hi Ho2) as (_ & _ & _ & ->).
  rewrite !decide_False by done.
  pose proof (kept_mono r1 r2 (t_seq kv.1) H0 Hr) as Hle.
  split; [done|].
  intros b h krows1 vrows1 krows2 vrows2.
  rewrite !slice_at_compacted_keys.
  destruct (slice_at kv.1 b h) as [krows|] eqn:Hk; [|done].
  intros [= <-] Hv1 [= <-] Hv2.
  assert (is_Some (slice_at kv.2 b h)) as [vrows Hv].
  { apply slice_at_is_Some; [done|].
    destruct Hshape as (<- & <- & _).
    apply slice_at_is_Some; [done|]. by eexists. }
  rewrite (slice_at_compacted_values _ _ _ _ _ _ _ _ Hk Hv) in Hv1.
  rewrite (slice_at_compacted_values _ _ _ _ _ _ _ _ Hk Hv) in Hv2.
  injection Hv1 as <-. injection Hv2 as <-.
  assert (take (kept r1 (t_seq kv.1)) (order krows) =
          take (kept r1 (t_seq kv.1))
               (take (kept r2 (t_seq kv.1)) (order krows))) as ->.
  { rewrite take_take. f_equal. lia. }
  rewrite <-!take_reorder. split; apply prefix_take.
Qed.

(** ** Calling the function on its own result *)

Lemma StronglySorted_of_lookup {A} (R : relation A) (l : list A) :
  (∀ i j x y, l !! i = Some x → l !! j = Some y → i < j → R x y) →
  StronglySorted R l.
Proof.
  induction l as [|x l IH]; intros H; constructor.
  - apply IH. intros i j a b Ha Hb Hij. apply (H (S i) (S j)); [done..|lia].
  - apply Forall_lookup. intros j y Hy. apply (H 0 (S j)); [done..|lia].
Qed.

(** Rows that ascend in norm, no two of them tied, are left in place by
    the sorting routine, stable or not. *)
Lemma sorted_order_ascending (rows : list (list scalar)) :
  sorts leb argsort → untied leb l2norm rows →
  ascending rows → order rows = seq 0 (length rows).
Proof.
  intros Hs Hnt Hasc. unfold sorted_order, untied in *.
  set (v := l2norm <$> rows) in *.
  assert (length v = length rows) as Hlen by (unfold v; by rewrite length_fmap).
  rewrite <-Hlen.
  apply (StronglySorted_unique_strong lt).
  - intros. lia.
  - apply StronglySorted_of_lookup. intros i j a b Ha Hb Hij.
    destruct (decide (a < b)) as [|Hnlt]; [done|exfalso].
    assert (a ≠ b) as Hne.
    { intros ->. pose proof (sorts_NoDup _ _ Hs v) as Hnd.
      pose proof (NoDup_lookup _ _ _ _ Hnd Ha Hb). lia. }
    pose proof (sorts_in_range _ _ Hs v) as Hrange.
    rewrite Forall_lookup in Hrange.
    pose proof (Hrange _ _ Ha) as Ha'. pose proof (Hrange _ _ Hb) as Hb'.
    rewrite Hlen in Ha', Hb'.
    destruct (lookup_lt_is_Some_2 _ _ Ha') as [ra Hra].
    destruct (lookup_lt_is_Some_2 _ _ Hb') as [rb Hrb].
    assert (v !! a = Some (l2norm ra)) as Hva
      by (unfold v; by rewrite list_lookup_fmap, Hra).
    assert (v !! b = Some (l2norm rb)) as Hvb
      by (unfold v; by rewrite list_lookup_fmap, Hrb).
    assert (leb (l2norm rb) (l2norm ra) = true) as Hba.
    { apply (StronglySorted_lookup _ rows b a rb ra Hasc Hrb Hra). lia. }
    destruct (StronglySorted_lookup _ _ i j a b (sorts_ascending _ _ Hs v)
                Ha Hb Hij) as (x & y & Hx & Hy & Hab).
    simplify_eq.
    apply (StronglySorted_lookup _ v b a (l2norm rb) (l2norm ra) Hnt Hvb Hva);
      [lia|done].
  - apply StronglySorted_of_lookup. intros i j a b Ha Hb Hij.
    apply lookup_seq in Ha as [-> _]. apply lookup_seq in Hb as [-> _]. lia.
  - apply (sorts_perm _ _ Hs).
Qed.

(** Listing some of the rows, each once, brings no tie about. *)
Lemma reorder_untied (krows : list (list scalar)) idx :
  NoDup idx → Forall (λ i, i < length krows) idx →
  untied leb l2norm krows → untied leb l2norm (reorder idx krows).
Proof.
  intros Hnd Hrange Hnt. unfold untied in *.
  apply StronglySorted_of_lookup. intros i j x y Hx Hy Hij [Hxy Hyx].
  unfold reorder in Hx, Hy. rewrite !list_lookup_fmap in Hx, Hy.
  destruct (idx !! i) as [a|] eqn:Ha; [|done].
  destruct (idx !! j) as [b|] eqn:Hb; [|done].
  simpl in Hx, Hy. simplify_eq.
  rewrite Forall_lookup in Hrange.
  destruct (lookup_lt_is_Some_2 krows a) as [ra Hra]; [by eapply Hrange|].
  destruct (lookup_lt_is_Some_2 krows b) as [rb Hrb]; [by eapply Hrange|].
  rewrite (list_lookup_total_correct _ _ _ Hra) in Hxy, Hyx.
  rewrite (list_lookup_total_correct _ _ _ Hrb) in Hxy, Hyx.
  assert (a ≠ b) as Hne.
  { intros ->. pose proof (NoDup_lookup _ _ _ _ Hnd Ha Hb). lia. }
  assert ((l2norm <$> krows) !! a = Some (l2norm ra)) as Hva
    by (by rewrite list_lookup_fmap, Hra).
  assert ((l2norm <$> krows) !! b = Some (l2norm rb)) as Hvb
    by (by rewrite list_lookup_fmap, Hrb).
  destruct (decide (a < b)).
  - by apply (StronglySorted_lookup _ _ a b _ _ Hnt Hva Hvb).
  - apply (StronglySorted_lookup _ _ b a _ _ Hnt Hvb Hva); [lia|done].
Qed.

Lemma reorder_take_seq `{!Inhabited A} n (rows : list A) (m : nat) :
  m = length rows →
  reorder (take n (seq 0 m)) rows = take n rows.
Proof. intros ->. by rewrite <-take_reorder, reorder_seq. Qed.

(** The slices of a compacted layer ascend in norm. *)
Lemma compacted_ascending keep_ratio (kv : layer_cache) b h rows :
  sorts leb argsort →
  slice_at (compacted l2norm argsort keep_ratio kv).1 b h = Some rows →
  ascending rows.
Proof.
  intros Hs. rewrite slice_at_compacted_keys.
  destruct (slice_at kv.1 b h) as [krows|]; [|done]. intros [= <-].
  apply reorder_sorted. pose proof (sorts_ascending _ _ Hs (l2norm <$> krows))
    as Hasc.
  rewrite <-(take_drop (kept keep_ratio (t_seq kv.1))) in Hasc.
  by eapply StronglySorted_app_1_l.
Qed.

Lemma well_shaped_output keep_ratio prune_after skip_layers
    (snap out : cache) :
  sorts leb argsort → well_shaped snap →
  l2_compress l2norm argsort keep_ratio prune_after skip_layers snap = Ok out →
  well_shaped out.
Proof.
  intros Hs Hwf Hout.
  destruct (output_shapes _ _ _ _ _ _ _ _ Hs Hwf Hout) as [Hlen Hshapes].
  apply Forall_lookup. intros i o Ho.
  destruct (lookup_lt_is_Some_2 snap i) as [kv Hkv].
  { rewrite <-Hlen. by eapply lookup_lt_Some. }
  destruct (Hshapes i kv o Hkv Ho) as (? & ? & ? & _). done.
Qed.

(** The slices of a compacted layer have no tied norms when those of the
    layer have none. *)
Lemma compacted_untied keep_ratio (kv : layer_cache) b h rows :
  sorts leb argsort → distinct_norms leb l2norm kv.1 →
  slice_at (compacted l2norm argsort keep_ratio kv).1 b h = Some rows →
  untied leb l2norm rows.
Proof.
  intros Hs Hd. rewrite slice_at_compacted_keys.
  destruct (slice_at kv.1 b h) as [krows|] eqn:Hk; [|done]. intros [= <-].
  apply reorder_untied.
  - eapply sublist_NoDup; [apply (sorts_NoDup _ _ Hs)|apply sublist_take].
  - apply Forall_take.
    pose proof (sorts_in_range _ _ Hs (l2norm <$> krows)) as Hr.
    by rewrite length_fmap in Hr.
  - unfold slice_at in Hk. destruct (t_data kv.1 !! b) as [hs|] eqn:Hb; [|done].
    simpl in Hk. unfold distinct_norms in Hd. rewrite Forall_lookup in Hd.
    specialize (Hd _ _ Hb). rewrite Forall_lookup in Hd. by eapply Hd.
Qed.

(** X8: a call on the result of a call, on a layer in which no two tokens
    of a head have tied key norms (the order of tied norms is left to the
    sorting routine).  A layer compacted by both calls is not reordered by
    the second one, which only cuts it: each slice of the second result is
    the first [kept r2 n1] rows of the slice of the first result, [n1]
    being the number of tokens the first call left. *)
Theorem second_call_keeps_a_prefix r1 p1 skip1 r2 p2 skip2
    (snap out1 out2 : cache) :
  sorts leb argsort → well_shaped snap →
  l2_compress l2norm argsort r1 p1 skip1 snap = Ok out1 →
  l2_compress l2norm argsort r2 p2 skip2 out1 = Ok out2 →
  ∀ i kv o1 o2,
    snap !! i = Some kv → out1 !! i = Some o1 → out2 !! i = Some o2 →
    ¬ passes_through p1 skip1 i kv → ¬ passes_through p2 skip2 i o1 →
    distinct_norms leb l2norm kv.1 →
    size2 o2.1 = kept r2 (size2 o1.1) ∧
    ∀ b h krows vrows,
      slice_at o1.1 b h = Some krows → slice_at o1.2 b h = Some vrows →
      slice_at o2.1 b h = Some (take (kept r2 (size2 o1.1)) krows) ∧
      slice_at o2.2 b h = Some (take (kept r2 (size2 o1.1)) vrows).
Proof.
  intros Hs Hwf Hout1 Hout2 i kv o1 o2 Hi Ho1 Ho2 Hpass1 Hpass2 Hd.
  pose proof (well_shaped_output _ _ _ _ _ Hs Hwf Hout1) as Hwf1.
  destruct (l2_compress_layers _ _ _ _ _ _ _ _ Hs Hwf Hout1) as [_ Hl1].
  destruct (l2_compress_layers _ _ _ _ _ _ _ _ Hs Hwf1 Hout2) as [_ Hl2].
  destruct (Hl1 i kv o1 Hi Ho1) as (_ & _ & _ & Ho1eq).
  destruct (Hl2 i o1 o2 Ho1 Ho2) as (Hwk & Hwv & Hshape & ->).
  rewrite decide_False in Ho1eq by done. rewrite decide_False by done.
  split; [done|].
  intros b h krows vrows Hk Hv.
  assert (ascending krows) as Hasc.
  { rewrite Ho1eq in Hk. by eapply compacted_ascending. }
  assert (untied leb l2norm krows) as Hnt.
  { rewrite Ho1eq in Hk. by eapply compacted_untied. }
  destruct (slice_at_rect _ _ _ _ Hwk Hk) as [HkS _].
  destruct (slice_at_rect _ _ _ _ Hwv Hv) as [HvS _].
  destruct Hshape as (_ & _ & HS & _).
  rewrite slice_at_compacted_keys, Hk.
  rewrite (slice_at_compacted_values _ _ _ _ _ _ _ _ Hk Hv).
  cbn [fmap option_fmap option_map]. unfold size2.
  rewrite (sorted_order_ascending krows Hs Hnt Hasc).
  rewrite (reorder_take_seq _ krows) by done.
  rewrite (reorder_take_seq _ vrows) by congruence. done.
Qed.

Lemma fmap_id_Forall {A} (f : A → A) (l : list A) :
  Forall (λ x, f x = x) l → f <$> l = l.
Proof. induction 1; csimpl; [done|by f_equal]. Qed.

Lemma zip_with_snd_Forall2 {A B} (g : A → B → B) (l : list A) (k : list B) :
  Forall2 (λ x y, g x y = y) l k → zip_with g l k = k.
Proof. induction 1; csimpl; [done|by f_equal]. Qed.

(** A well-shaped layer whose key slices ascend in norm, without ties, is
    its own compaction when all its tokens are kept. *)
Lemma compacted_ascending_id keep_ratio (kv : layer_cache) :
  sorts leb argsort → distinct_norms leb l2norm kv.1 →
  wf4 kv.1 → wf4 kv.2 → same_shape kv.1 kv.2 →
  kept keep_ratio (t_seq kv.1) = t_seq kv.1 →
  Forall (Forall ascending) (t_data kv.1) →
  compacted l2norm argsort keep_ratio kv = kv.
Proof.
  intros Hs Hst [HkB Hk] [HvB Hv] (HB & HH & HS & HD) Hr Hasc.
  unfold distinct_norms in Hst.
  destruct kv as [[B H S D kd] [B' H' S' D' vd]].
  cbn [fst snd t_batch t_heads t_seq t_dim t_data] in *.
  rewrite <-HB, <-HH, <-HS, <-HD in *. clear HB HH HS HD B' H' S' D'.
  unfold compacted. cbn [fst snd t_batch t_heads t_seq t_dim t_data].
  rewrite Hr.
  assert (Hrow : ∀ {A} `{!Inhabited A} (krows : list (list scalar))
                   (rows : list A),
    ascending krows → untied leb l2norm krows →
    length krows = S → length rows = S →
    take S (reorder (order krows) rows) = rows).
  { intros A ? krows rows Ha Hnt Hlk Hlr.
    rewrite (sorted_order_ascending krows Hs Hnt Ha), Hlk, <-Hlr.
    rewrite reorder_seq. apply firstn_all. }
  assert (lmap (lmap (λ krows, take S (reorder (order krows) krows))) kd = kd)
    as ->.
  { apply fmap_id_Forall, Forall_lookup. intros b hs Hb.
    rewrite Forall_lookup in Hk. rewrite Forall_lookup in Hasc.
    rewrite Forall_lookup in Hst.
    destruct (Hk _ _ Hb) as [_ Hhs]. specialize (Hasc _ _ Hb).
    specialize (Hst _ _ Hb).
    apply fmap_id_Forall, Forall_lookup. intros h krows Hh.
    rewrite Forall_lookup in Hhs. rewrite Forall_lookup in Hasc.
    rewrite Forall_lookup in Hst.
    destruct (Hhs _ _ Hh) as [HkS _].
    apply Hrow; [by eapply Hasc|by eapply Hst|done..]. }
  assert (zip_with (zip_with (λ krows vrows : list (list scalar),
                      take S (reorder (order krows) vrows))) kd vd = vd)
    as ->.
  { apply zip_with_snd_Forall2, Forall2_same_length_lookup.
    split; [congruence|]. intros b khs vhs Hkb Hvb.
    rewrite Forall_lookup in Hk. rewrite Forall_lookup in Hv.
    rewrite Forall_lookup in Hasc. rewrite Forall_lookup in Hst.
    destruct (Hk _ _ Hkb) as [HkH Hkhs]. destruct (Hv _ _ Hvb) as [HvH Hvhs].
    specialize (Hasc _ _ Hkb). specialize (Hst _ _ Hkb).
    apply zip_with_snd_Forall2, Forall2_same_length_lookup.
    split; [congruence|]. intros h krows vrows Hkh Hvh.
    rewrite Forall_lookup in Hkhs. rewrite Forall_lookup in Hvhs.
    rewrite Forall_lookup in Hasc. rewrite Forall_lookup in Hst.
    destruct (Hkhs _ _ Hkh) as [HkS _]. destruct (Hvhs _ _ Hvh) as [HvS _].
    apply Hrow; [by eapply Hasc|by eapply Hst|done..]. }
  done.
Qed.

Lemma compacted_data_ascending keep_ratio (kv : layer_cache) :
  sorts leb argsort →
  Forall (Forall ascending) (t_data (compacted l2norm argsort keep_ratio kv).1).
Proof.
  intros Hs. apply Forall_lookup. intros b hs Hb.
  apply Forall_lookup. intros h rows Hh.
  apply (compacted_ascending keep_ratio kv b h); [done|].
  unfold slice_at. by rewrite Hb.
Qed.

Lemma compacted_data_untied keep_ratio (kv : layer_cache) :
  sorts leb argsort → distinct_norms leb l2norm kv.1 →
  distinct_norms leb l2norm (compacted l2norm argsort keep_ratio kv).1.
Proof.
  intros Hs Hd. apply Forall_lookup. intros b hs Hb.
  apply Forall_lookup. intros h rows Hh.
  apply (compacted_untied keep_ratio kv b h); [done..|].
  unfold slice_at. by rewrite Hb.
Qed.

(** X9: on a cache in which no two tokens of a head have tied key norms,
    calling the function again on its own result, with the same
    [prune_after] and [skip_layers] and a [keep_ratio] of 1 or more on
    which [math.ceil] returns, returns that result unchanged: the layers
    are already in ascending order of key norm. *)
Theorem second_call_at_ratio_1_changes_nothing r1 r2 q2 prune_after
    skip_layers (snap out : cache) :
  sorts leb argsort → well_shaped snap →
  Forall (λ kv, distinct_norms leb l2norm kv.1) snap →
  number_value r2 = Some q2 → (1 <= q2)%Q →
  l2_compress l2norm argsort r1 prune_after skip_layers snap = Ok out →
  no_single_token prune_after out →
  float_sized r2 out → ceil_returns r2 prune_after out →
  l2_compress l2norm argsort r2 prune_after skip_layers out = Ok out.
Proof.
  intros Hs Hwf Hd Hq Hr Hout Hone Hsized Hceil.
  pose proof (well_shaped_output _ _ _ _ _ Hs Hwf Hout) as Hwf1.
  destruct (l2_compress_layers _ _ _ _ _ _ _ _ Hs Hwf Hout) as [Hlen Hl].
  apply l2_compress_Ok. split; [done|].
  intros i o o' Ho Ho'. simplify_eq.
  destruct (lookup_lt_is_Some_2 snap i) as [kv Hkv].
  { rewrite <-Hlen. by eapply lookup_lt_Some. }
  destruct (Hl i kv o Hkv Ho) as (_ & _ & _ & Hoeq).
  unfold well_shaped, no_single_token, ceil_returns in Hwf1, Hone, Hceil.
  rewrite Forall_lookup in Hwf1. rewrite Forall_lookup in Hone.
  rewrite Forall_lookup in Hceil.
  rewrite Forall_lookup in Hd. specialize (Hd _ _ Hkv). simpl in Hd.
  destruct (Hwf1 _ _ Ho) as (Hwk & Hwv & Hshape).
  rewrite layer_step_ok;
    [|by eapply sorts_in_range|done..|by eapply Hone|by eapply Hceil].
  f_equal. clear Hl.
  destruct (decide (passes_through prune_after skip_layers i o))
    as [Hpass2|Hpass2]; [done|].
  assert (kept r2 (t_seq o.1) = t_seq o.1) as Hall.
  { apply (kept_all_number r2 q2); [done..| |].
    - intros x. by eapply float_sized_lookup.
    - eapply Hceil; [done|]. by eapply not_passes_through_visited. }
  destruct (decide (passes_through prune_after skip_layers i kv))
    as [Hpass1|Hpass1]; subst o.
  - by destruct Hpass2.
  - apply compacted_ascending_id; [done| |done..|].
    + by apply compacted_data_untied.
    + by apply compacted_data_ascending.
Qed.

End OrderProperties.

Section PairProperties.
Context {scalar : Type}.
Variable leb : scalar → scalar → bool.
Variable l2norm : list scalar → scalar.
Variable argsort : list scalar → list nat.

#[local] Abbreviation cache := (list (layer_cache (scalar := scalar))).
#[local] Abbreviation order := (sorted_order l2norm argsort).

(** X10: whatever [keep_ratio] is, the call invents no token and keeps
    none twice: in every slice of every returned layer the (key row, value
    row) pairs are, counted with multiplicity, among the pairs of the
    input slice, and there are as many key rows as value rows. *)
Theorem kept_pairs_are_input_pairs keep_ratio prune_after skip_layers
    (snap out : cache) :
  sorts leb argsort → well_shaped snap →
  l2_compress l2norm argsort keep_ratio prune_after skip_layers snap = Ok out →
  ∀ i kv o b h krows vrows,
    snap !! i = Some kv → out !! i = Some o →
    slice_at kv.1 b h = Some krows → slice_at kv.2 b h = Some vrows →
    ∃ okrows ovrows,
      slice_at o.1 b h = Some okrows ∧ slice_at o.2 b h = Some ovrows ∧
      length okrows = length ovrows ∧
      zip okrows ovrows ⊆+ zip krows vrows.
Proof.
  intros Hs Hwf Hout i kv o b h krows vrows Hi Ho Hk Hv.
  destruct (l2_compress_layers _ _ _ _ _ _ _ _ Hs Hwf Hout) as [_ Hlayers].
  destruct (Hlayers i kv o Hi Ho) as (Hwk & Hwv & Hshape & ->).
  destruct (slice_at_rect _ _ _ _ Hwk Hk) as [Hklen _].
  destruct (slice_at_rect _ _ _ _ Hwv Hv) as [Hvlen _].
  destruct Hshape as (_ & _ & HS & _).
  case_decide as Hpass.
  { exists krows, vrows. repeat split; [done|done|congruence|done]. }
  eexists _, _. split; [by rewrite slice_at_compacted_keys, Hk|].
  split; [by eapply slice_at_compacted_values|].
  split; [by rewrite !length_reorder|].
  pose proof (sorts_in_range _ _ Hs (l2norm <$> krows)) as Hrange.
  rewrite length_fmap in Hrange.
  rewrite reorder_zip; [|congruence|by apply Forall_take].
  rewrite <-take_reorder.
  etrans; [apply submseteq_take|].
  apply Permutation_submseteq, reorder_perm.
  rewrite length_zip_with.
  replace (length krows `min` length vrows) with (length krows) by lia.
  unfold sorted_order.
  by rewrite (sorts_perm _ _ Hs), length_fmap.
Qed.

End PairProperties.

Section ShapeProperties.
Context {scalar : Type}.
Variable leb : scalar → scalar → bool.
Variable l2norm : list scalar → scalar.
Variable argsort : list scalar → list nat.

#[local] Abbreviation cache := (list (layer_cache (scalar := scalar))).
#[local] Abbreviation order := (sorted_order l2norm argsort).

(** ** What [gather] lets through *)

Lemma gather_Ok_shape {A} (input : tensor4 A) (index : tensor4 nat) out :
  gather input index = Ok out →
  (numel index = 0 ∨
   t_batch index ≤ t_batch input ∧ t_heads index ≤ t_heads input ∧
   t_dim index ≤ t_dim input) ∧
  t_batch out = t_batch index ∧ t_heads out = t_heads index ∧
  t_seq out = t_seq index ∧ t_dim out = t_dim index.
Proof.
  unfold gather. destruct (decide (numel index = 0)) as [Hempty|Hempty].
  { intros [= <-]. auto. }
  destruct (decide _) as [Hle|?]; [|done].
  destruct (gather_data _ _) as [d|]; [|done].
  cbn [of_option]. rewrite bind_Ok. intros [= <-]. auto.
Qed.

(** Whenever [sorted_prefix] returns, keys and values come out with the
    batch size, head count and width of the keys, and the values were at
    least that large unless the keys have no entry. *)
Lemma sorted_prefix_shape keep_ratio (kv o : layer_cache (scalar := scalar)) :
  sorted_prefix l2norm argsort keep_ratio kv = Ok o →
  size2 kv.1 ≠ 1 ∧
  (numel kv.1 = 0 ∨
   t_batch kv.1 ≤ t_batch kv.2 ∧ t_heads kv.1 ≤ t_heads kv.2 ∧
   t_dim kv.1 ≤ t_dim kv.2) ∧
  (t_batch o.1 = t_batch kv.1 ∧ t_heads o.1 = t_heads kv.1 ∧
   t_seq o.1 = kept keep_ratio (size2 kv.1) ∧ t_dim o.1 = t_dim kv.1) ∧
  same_shape o.1 o.2.
Proof.
  destruct kv as [keys values]. cbn [fst snd]. intros Hret.
  unfold sorted_prefix in Hret.
  destruct (ceil_product keep_ratio (size2 keys)) as [k|] eqn:Hk; [|done].
  rewrite bind_Ok in Hret.
  destruct (decide (t_seq keys = 1)) as [H1|H1].
  { unfold squeeze_last, norm_last in Hret. simpl in Hret.
    by rewrite decide_True in Hret. }
  split; [done|].
  rewrite sorted_indices_expanded_eq, bind_Ok in Hret by done.
  destruct (gather keys _) as [sk|] eqn:Hsk; [|done].
  rewrite bind_Ok in Hret.
  destruct (gather values _) as [sv|] eqn:Hsv; [|done].
  rewrite bind_Ok in Hret. injection Hret as <-.
  apply gather_Ok_shape in Hsk as (_ & HkB & HkH & HkS & HkD).
  apply gather_Ok_shape in Hsv as (Hle & HvB & HvH & HvS & HvD).
  unfold numel in *. cbn [t_batch t_heads t_seq t_dim] in *.
  unfold same_shape, kept, size2, slice_seq in *.
  rewrite (ceil_product_Ok _ _ _ Hk).
  cbn [fst snd t_batch t_heads t_seq t_dim].
  rewrite HkB, HkH, HkS, HkD, HvB, HvH, HvS, HvD. done.
Qed.

(** X11: whenever the call returns, a layer it compacted had more than
    one token or none, and values at least as large as the keys in batch
    size, head count and width, or else keys without any entry (an index
    without entries is not checked by [torch.gather]); the stored keys and
    values both have the batch size, head count and width of the input
    keys (values that were larger are cut to them), and never more tokens
    than the input keys.  Nothing is asked of the input. *)
Theorem compacted_layer_takes_keys_shape keep_ratio prune_after skip_layers
    (snap out : cache) :
  l2_compress l2norm argsort keep_ratio prune_after skip_layers snap = Ok out →
  ∀ i kv o,
    snap !! i = Some kv → out !! i = Some o →
    ¬ passes_through prune_after skip_layers i kv →
    size2 kv.1 ≠ 1 ∧
    (numel kv.1 = 0 ∨
     t_batch kv.1 ≤ t_batch kv.2 ∧ t_heads kv.1 ≤ t_heads kv.2 ∧
     t_dim kv.1 ≤ t_dim kv.2) ∧
    (t_batch o.1 = t_batch kv.1 ∧ t_heads o.1 = t_heads kv.1 ∧
     t_dim o.1 = t_dim kv.1) ∧
    same_shape o.1 o.2 ∧
    size2 o.1 = kept keep_ratio (size2 kv.1) ∧ size2 o.1 ≤ size2 kv.1.
Proof.
  intros [_ Hstep]%l2_compress_Ok i kv o Hi Ho Hpass.
  specialize (Hstep i kv o Hi Ho). unfold layer_step in Hstep.
  unfold passes_through in Hpass.
  destruct (Z.ltb_spec (Z.of_nat (size2 kv.1)) prune_after); [tauto|].
  destruct (sorted_prefix _ _ _ kv) as [new|e] eqn:Hnew; [|done].
  rewrite bind_Ok in Hstep.
  destruct (decide (Z.of_nat i ∈ skip_layers)); [tauto|].
  injection Hstep as <-.
  destruct (sorted_prefix_shape _ _ _ Hnew)
    as (H1 & Hle & (HB & HH & HS & HD) & Hsame).
  split; [done|]. split; [done|]. split; [done|]. split; [done|].
  unfold size2 at 1 3. rewrite HS. split; [done|]. apply slice_stop_le.
Qed.

(** ** Values with fewer tokens than the keys *)

Lemma gather_row_out_of_range {A} (rows : list (list A)) i D :
  0 < D → length rows ≤ i → gather_row rows (replicate D i) = None.
Proof.
  intros HD Hi. destruct D as [|D]; [lia|].
  unfold gather_row. cbn [replicate imap mapM fst snd].
  by rewrite (lookup_ge_None_2 rows i).
Qed.

Lemma gather_slice_out_of_range {A} (rows : list (list A)) idx i D :
  0 < D → i ∈ idx → length rows ≤ i →
  gather_slice rows (replicate D <$> idx) = None.
Proof.
  intros HD Hin Hi. unfold gather_slice. apply mapM_None, Exists_exists.
  exists (replicate D i). split; [by apply list_elem_of_fmap_2|].
  by apply gather_row_out_of_range.
Qed.

Lemma sorted_prefix_fewer_values keep_ratio (kv : layer_cache (scalar := scalar)) :
  sorts leb argsort → wf4 kv.1 → wf4 kv.2 →
  0 < t_batch kv.1 → 0 < t_heads kv.1 → 0 < t_dim kv.1 →
  t_seq kv.2 < t_seq kv.1 →
  ∃ e, sorted_prefix l2norm argsort keep_ratio kv = Raise e.
Proof.
  intros Hs Hwk Hwv HB HH HD HS.
  destruct (sorted_prefix l2norm argsort keep_ratio kv) as [o|e] eqn:Hret;
    [exfalso|by eexists].
  destruct (sorted_prefix_shape _ _ _ Hret) as (H1 & Hle & _).
  destruct kv as [keys values]. cbn [fst snd] in *.
  assert (t_batch keys * t_heads keys * t_seq keys * t_dim keys ≠ 0)
    as Hnumel.
  { assert (0 < t_seq keys) by lia.
    repeat (apply Nat.neq_mul_0; split); lia. }
  destruct Hle as [?|(HBle & HHle & _)]; [done|].
  unfold sorted_prefix in Hret.
  destruct (ceil_product keep_ratio (size2 keys)) as [k|]; [|done].
  rewrite bind_Ok in Hret.
  rewrite sorted_indices_expanded_eq, bind_Ok in Hret by done.
  rewrite (gather_sorted _ _ keys keys) in Hret;
    [|first [done | by eapply sorts_in_range]..].
  rewrite bind_Ok in Hret.
  unfold gather, numel in Hret.
  cbn [t_batch t_heads t_seq t_dim t_data] in Hret.
  rewrite decide_False in Hret by done.
  destruct (decide _) as [_|?]; [|done].
  destruct Hwk as [HkB Hk]. destruct Hwv as [HvB Hv].
  destruct (t_data keys) as [|khs kd] eqn:Hkd; [simpl in HkB; lia|].
  destruct (t_data values) as [|vhs vd] eqn:Hvd; [simpl in HvB; lia|].
  apply Forall_cons in Hk as [[HkH Hkhs] _].
  apply Forall_cons in Hv as [[HvH Hvhs] _].
  destruct khs as [|krows khs]; [simpl in HkH; lia|].
  destruct vhs as [|vrows vhs]; [simpl in HvH; lia|].
  apply Forall_cons in Hkhs as [[HkS _] _].
  apply Forall_cons in Hvhs as [[HvS _] _].
  assert (gather_slice vrows (replicate (t_dim keys) <$> order krows) = None)
    as Hnone.
  { apply (gather_slice_out_of_range _ _ (t_seq keys - 1)); [done| |lia].
    unfold sorted_order. rewrite (sorts_perm _ _ Hs), length_fmap, HkS.
    apply elem_of_seq. lia. }
  unfold gather_data in Hret. cbn [fmap list_fmap zip zip_with mapM fst snd]
    in Hret.
  by rewrite Hnone in Hret.
Qed.

(** X12: values that hold fewer tokens than the keys of a visited layer
    make the call fail: the sorted order of the keys names the last key
    position, which the values do not have, and [torch.gather] refuses
    it.  (The layer is taken to have at least one batch entry, one head
    and a positive width.) *)
Theorem fewer_value_tokens_raise keep_ratio prune_after skip_layers
    (snap : cache) i kv :
  sorts leb argsort →
  snap !! i = Some kv → visited prune_after kv →
  wf4 kv.1 → wf4 kv.2 →
  0 < t_batch kv.1 → 0 < t_heads kv.1 → 0 < t_dim kv.1 →
  size2 kv.2 < size2 kv.1 →
  ∃ e, l2_compress l2norm argsort keep_ratio prune_after skip_layers snap
       = Raise e.
Proof.
  intros Hs Hi Hvis Hwk Hwv HB HH HD HS.
  apply l2_compress_Raise.
  destruct (sorted_prefix_fewer_values keep_ratio kv) as [e He]; [done..|].
  exists i, kv, e. split; [done|].
  unfold layer_step, visited in *.
  destruct (Z.ltb_spec (Z.of_nat (size2 kv.1)) prune_after); [lia|].
  by rewrite He.
Qed.

(** ** The error of a one-token layer *)

(** X13: a visited layer of exactly one token makes the call raise the
    error of [expand], whether or not the layer is in [skip_layers] and
    whatever the layers after it are, when the layers before it are well
    shaped and none of them is a visited one-token layer, and [math.ceil]
    returns up to that layer (as it always does on an exact
    [keep_ratio]). *)
Theorem single_token_layer_error keep_ratio prune_after skip_layers
    (before after : cache) kv :
  sorts leb argsort →
  well_shaped before → no_single_token prune_after before →
  ceil_returns keep_ratio prune_after (before ++ [kv]) →
  visited prune_after kv → size2 kv.1 = 1 →
  l2_compress l2norm argsort keep_ratio prune_after skip_layers
    (before ++ kv :: after) = Raise ExpandLeadingDim.
Proof.
  intros Hs Hwf Hone Hceil Hvis H1.
  apply Forall_app in Hceil as [Hceil Hkv].
  rewrite Forall_singleton in Hkv.
  rewrite l2_compress_enumerate, enumerate_from_app, mapM_result_app.
  rewrite <-l2_compress_enumerate.
  rewrite l2_compress_ok by (by eauto using sorts_in_range).
  unfold enumerate_from. cbn [length seq zip zip_with mapM fst snd].
  rewrite layer_step_single; [done..|]. by apply Hkv.
Qed.

End ShapeProperties.

Lemma mapM_option_ext_elem {A B} (f g : A → option B) (l : list A) :
  (∀ x, x ∈ l → f x = g x) → mapM f l = mapM g l.
Proof.
  induction l as [|x l IH]; intros Hfg; [done|].
  cbn [mapM]. rewrite (Hfg x) by left.
  rewrite IH; [done|]. intros y Hy. apply Hfg. by right.
Qed.

Lemma mapM_zip_crop {X Y W} (g : X * Y → option W) (c : Y → Y)
    (xs : list X) (ys : list Y) n :
  length xs ≤ n →
  (∀ i x y, xs !! i = Some x → ys !! i = Some y → g (x, c y) = g (x, y)) →
  mapM g (zip xs (take n (c <$> ys))) = mapM g (zip xs ys).
Proof.
  revert ys n. induction xs as [|x xs IH]; intros ys n Hn Hg; [done|].
  destruct n as [|n]; [simpl in Hn; lia|].
  destruct ys as [|y ys]; [done|].
  cbn [fmap list_fmap take zip zip_with mapM].
  rewrite (Hg 0 x y) by done.
  rewrite (IH ys n); [done|simpl in Hn; lia|].
  intros i. apply (Hg (S i)).
Qed.

Section CropProperties.
Context {scalar : Type}.
Variable leb : scalar → scalar → bool.
Variable l2norm : list scalar → scalar.
Variable argsort : list scalar → list nat.

#[local] Abbreviation cache := (list (layer_cache (scalar := scalar))).
#[local] Abbreviation order := (sorted_order l2norm argsort).

Lemma gather_row_crop {A} (rows : list (list A)) i S D :
  i < S →
  gather_row (take S (lmap (take D) rows)) (replicate D i) =
  gather_row rows (replicate D i).
Proof.
  intros Hi. unfold gather_row. apply mapM_option_ext_elem.
  intros [d j] (k & Hk)%list_elem_of_lookup.
  rewrite list_lookup_imap in Hk.
  destruct (replicate D i !! k) as [i'|] eqn:Hr; [|done].
  apply lookup_replicate in Hr as [-> Hlt]. injection Hk as <- <-.
  cbn [fst snd]. rewrite lookup_take_lt, list_lookup_fmap by done.
  destruct (rows !! i) as [r|]; [|done]. simpl.
  by rewrite lookup_take_lt.
Qed.

Lemma gather_slice_crop {A} (rows : list (list A)) idx S D :
  Forall (λ i, i < S) idx →
  gather_slice (take S (lmap (take D) rows)) (replicate D <$> idx) =
  gather_slice rows (replicate D <$> idx).
Proof.
  intros Hidx. unfold gather_slice. apply mapM_option_ext_elem.
  intros irow (i & -> & Hi)%list_elem_of_fmap.
  rewrite Forall_forall in Hidx. by apply gather_row_crop, Hidx.
Qed.

Lemma gather_data_crop {A} B H S D
    (kdata : list (list (list (list scalar))))
    (vdata : list (list (list (list A)))) :
  argsort_in_range argsort → rect4 B H S D kdata →
  gather_data
    (take B (lmap (λ hs, take H (lmap (λ rows, take S (lmap (take D) rows))
                                      hs)) vdata))
    (lmap (lmap (λ krows, replicate D <$> order krows)) kdata) =
  gather_data vdata
    (lmap (lmap (λ krows, replicate D <$> order krows)) kdata).
Proof.
  intros Hrange [HkB Hk]. unfold gather_data.
  apply mapM_zip_crop; [by rewrite length_fmap, HkB|].
  intros b ihs vhs Hihs Hvhs.
  apply list_lookup_fmap_Some in Hihs as (khs & -> & Hkhs).
  rewrite Forall_lookup in Hk. destruct (Hk _ _ Hkhs) as [HkH Hkrows].
  cbn [fst snd].
  apply (mapM_zip_crop (λ q, gather_slice q.2 q.1));
    [by rewrite length_fmap, HkH|].
  intros h irows vrows Hirows Hvrows.
  apply list_lookup_fmap_Some in Hirows as (krows & -> & Hkr).
  rewrite Forall_lookup in Hkrows. destruct (Hkrows _ _ Hkr) as [HkS _].
  cbn [fst snd]. apply gather_slice_crop.
  eapply Forall_impl; [apply Hrange|]. intros i. simpl.
  rewrite length_fmap. lia.
Qed.

Lemma sorted_prefix_crop keep_ratio (keys values : tensor4 scalar) :
  argsort_in_range argsort → wf4 keys →
  t_batch keys ≤ t_batch values → t_heads keys ≤ t_heads values →
  t_dim keys ≤ t_dim values →
  sorted_prefix l2norm argsort keep_ratio (keys, values) =
  sorted_prefix l2norm argsort keep_ratio (keys, crop_like keys values).
Proof.
  intros Hrange Hk HB HH HD. unfold sorted_prefix.
  destruct (ceil_product keep_ratio (size2 keys)) as [k|e]; [|done].
  rewrite !bind_Ok.
  destruct (decide (t_seq keys = 1)) as [H1|H1].
  { unfold squeeze_last, norm_last. simpl. by rewrite decide_True. }
  rewrite sorted_indices_expanded_eq by done.
  rewrite !bind_Ok. destruct (gather keys _) as [sk|e]; [|done].
  rewrite !bind_Ok. f_equal. unfold gather, numel.
  cbn [crop_like t_batch t_heads t_seq t_dim t_data].
  destruct (decide (_ * _ * _ * _ = 0)); [done|].
  rewrite !decide_True by lia.
  by rewrite (gather_data_crop _ _ _ _ _ _ Hrange Hk).
Qed.

Lemma wf4_crop_like {A} (keys : tensor4 scalar) (values : tensor4 A) :
  wf4 values →
  t_batch keys ≤ t_batch values → t_heads keys ≤ t_heads values →
  t_seq keys ≤ t_seq values → t_dim keys ≤ t_dim values →
  wf4 (crop_like keys values) ∧ same_shape keys (crop_like keys values).
Proof.
  intros [HvB Hv] HB HH HS HD. split; [|done].
  split; cbn [crop_like t_batch t_heads t_seq t_dim t_data].
  { rewrite length_take, length_fmap. lia. }
  apply Forall_take, Forall_fmap. eapply Forall_impl; [exact Hv|].
  intros hs [HvH Hhs]. simpl. split.
  { rewrite length_take, length_fmap. lia. }
  apply Forall_take, Forall_fmap. eapply Forall_impl; [exact Hhs|].
  intros rows [HvS Hrows]. simpl. split.
  { rewrite length_take, length_fmap. lia. }
  apply Forall_take, Forall_fmap. eapply Forall_impl; [exact Hrows|].
  intros r Hr. simpl in *. rewrite length_take. lia.
Qed.

(** X14: values that are larger than the keys, on any axis, are accepted
    and the surplus is dropped without notice: a compacted layer is the
    compaction of the keys with [values[:B, :H, :S, :D]], the values cut
    to the shape of the keys.  In particular the value rows at positions
    the keys do not have are never kept.  (The call returns unless it
    visits a layer of one token or one on which [math.ceil] raises, which
    it never does on an exact [keep_ratio].) *)
Theorem larger_values_are_cropped keep_ratio prune_after skip_layers
    (snap : cache) :
  sorts leb argsort →
  Forall values_cover snap →
  (no_single_token prune_after snap →
   ceil_returns keep_ratio prune_after snap →
   ∃ out, l2_compress l2norm argsort keep_ratio prune_after skip_layers snap
          = Ok out) ∧
  ∀ out i kv o,
    l2_compress l2norm argsort keep_ratio prune_after skip_layers snap
      = Ok out →
    snap !! i = Some kv → out !! i = Some o →
    o = if decide (passes_through prune_after skip_layers i kv) then kv
        else compacted l2norm argsort keep_ratio
               (kv.1, crop_like kv.1 kv.2).
Proof.
  intros Hs Hcover. pose proof (sorts_in_range _ _ Hs) as Hrange.
  rewrite Forall_lookup in Hcover.
  assert (Hprefix : ∀ i kv, snap !! i = Some kv → size2 kv.1 ≠ 1 →
    returns (ceil_product keep_ratio (size2 kv.1)) →
    sorted_prefix l2norm argsort keep_ratio kv =
    Ok (compacted l2norm argsort keep_ratio (kv.1, crop_like kv.1 kv.2))).
  { intros i [keys values] Hi H1 Hceil.
    destruct (Hcover _ _ Hi) as (Hk & Hv & HB & HH & HS & HD).
    cbn [fst snd] in *.
    destruct (wf4_crop_like keys values) as [Hwc Hsc]; [done..|].
    rewrite sorted_prefix_crop by done. by apply sorted_prefix_ok. }
  split.
  - intros Hone Hceil.
    destruct (l2_compress l2norm argsort keep_ratio prune_after skip_layers
                snap) as [out|e] eqn:Hout; [by eexists|exfalso].
    assert (∃ e, l2_compress l2norm argsort keep_ratio prune_after skip_layers
                   snap = Raise e) as Hraise by by eexists.
    apply l2_compress_Raise in Hraise as (i & kv & e' & Hi & He).
    unfold no_single_token in Hone. rewrite Forall_lookup in Hone.
    unfold ceil_returns in Hceil. rewrite Forall_lookup in Hceil.
    specialize (Hone _ _ Hi). specialize (Hceil _ _ Hi).
    unfold layer_step, visited in *.
    destruct (Z.ltb_spec (Z.of_nat (size2 kv.1)) prune_after); [done|].
    by rewrite (Hprefix i kv) in He by auto.
  - intros out i kv o [_ Hstep]%l2_compress_Ok Hi Ho.
    specialize (Hstep i kv o Hi Ho).
    case_decide as Hpass; [by eapply layer_step_passes|].
    unfold layer_step, passes_through in *.
    destruct (Z.ltb_spec (Z.of_nat (size2 kv.1)) prune_after); [tauto|].
    destruct (sorted_prefix _ _ _ kv) as [new|e] eqn:Hnew; [|done].
    rewrite bind_Ok in Hstep.
    destruct (decide (Z.of_nat i ∈ skip_layers)); [tauto|].
    injection Hstep as <-.
    destruct (sorted_prefix_shape _ _ _ _ _ Hnew) as (H1 & _).
    assert (returns (ceil_product keep_ratio (size2 kv.1))) as Hceil.
    { destruct kv as [keys values]. unfold sorted_prefix in Hnew.
      cbn [fst]. by destruct (ceil_product keep_ratio (size2 keys)). }
    rewrite (Hprefix i kv) in Hnew by done. by injection Hnew.
Qed.

End CropProperties.

Lemma tokens_to_keep_8_of_13 (keep_ratio : Q) :
  (7 # 13 < keep_ratio)%Q → (keep_ratio <= 8 # 13)%Q →
  tokens_to_keep keep_ratio 13 = 8%Z.
Proof.
  intros Hlo Hhi. rewrite !tokens_to_keep_Rat.
  assert (Qceiling (keep_ratio * inject_Z (Z.of_nat 13)) ≤ 8)%Z.
  { change 8%Z with (Qceiling (inject_Z 8)). apply Qceiling_resp_le.
    setoid_replace (inject_Z 8) with ((8 # 13) * inject_Z (Z.of_nat 13))%Q
      using relation Qeq by reflexivity.
    by apply Qmult_le_compat_r. }
  assert (7 < Qceiling (keep_ratio * inject_Z (Z.of_nat 13)))%Z.
  { rewrite Zlt_Qlt. eapply Qlt_le_trans; [|apply Qle_ceiling].
    setoid_replace (inject_Z 7) with ((7 # 13) * inject_Z (Z.of_nat 13))%Q
      using relation Qeq by reflexivity.
    by apply Qmult_lt_compat_r. }
  lia.
Qed.

Section Notebook.
Context {scalar : Type}.
Variable leb : scalar → scalar → bool.
Variable l2norm : list scalar → scalar.
Variable argsort : list scalar → list nat.

#[local] Abbreviation cache := (list (layer_cache (scalar := scalar))).

(** The binary64 product [0.6 * 13] is a little above 7.8; its ceiling
    is 8. *)
Lemma ceil_product_0_6_13 : ceil_product (Float float_0_6) 13 = Ok 8%Z.
Proof. by vm_compute. Qed.

(** X15: the call of the second cell of the notebook,
    [l2_compress(cache, keep_ratio=0.6, prune_after=5, skip_layers=[0, 1])],
    on any cache whose layers hold 13 tokens, as the one printed there:
    layers 0 and 1 are returned as they are and every other layer keeps 8
    tokens, in keys and in values.  [keep_ratio] is the [float] 0.6, whose
    product with 13 is rounded; the same holds for every exact ratio above
    7/13 and up to 8/13. *)
Theorem notebook_call_keeps_8_of_13 keep_ratio (snap : cache) :
  sorts leb argsort → well_shaped snap →
  Forall (λ kv, size2 kv.1 = 13) snap →
  keep_ratio = Float float_0_6 ∨
    (∃ q : Q, keep_ratio = Rat q ∧ (7 # 13 < q)%Q ∧ (q <= 8 # 13)%Q) →
  ∃ out,
    l2_compress l2norm argsort keep_ratio 5 [0; 1]%Z snap = Ok out ∧
    length out = length snap ∧
    ∀ i kv o,
      snap !! i = Some kv → out !! i = Some o →
      if decide (i < 2) then o = kv
      else size2 o.1 = 8 ∧ size2 o.2 = 8 ∧
           t_batch o.1 = t_batch kv.1 ∧ t_heads o.1 = t_heads kv.1 ∧
           t_dim o.1 = t_dim kv.1.
Proof.
  intros Hs Hwf H13 Hr. rewrite Forall_lookup in H13.
  assert (ceil_product keep_ratio 13 = Ok 8%Z) as Hceil.
  { destruct Hr as [->|(q & -> & Hlo & Hhi)]; [apply ceil_product_0_6_13|].
    by rewrite ceil_product_Rat, <-tokens_to_keep_Rat, tokens_to_keep_8_of_13. }
  destruct (l2_compress_returns leb l2norm argsort keep_ratio 5 [0; 1]%Z snap)
    as [out Hout]; [done..| | |].
  { apply Forall_lookup. intros i kv Hi _. rewrite (H13 _ _ Hi). lia. }
  { apply Forall_lookup. intros i kv Hi _. by rewrite (H13 _ _ Hi), Hceil. }
  exists out. split; [done|].
  destruct (l2_compress_layers _ _ _ _ _ _ _ _ Hs Hwf Hout) as [Hlen Hlayers].
  split; [done|]. intros i kv o Hi Ho.
  destruct (Hlayers i kv o Hi Ho) as (_ & _ & _ & ->).
  specialize (H13 _ _ Hi).
  assert (passes_through 5 [0; 1]%Z i kv ↔ i < 2) as Hpass.
  { unfold passes_through. rewrite H13, !elem_of_cons, elem_of_nil. lia. }
  destruct (decide (i < 2)) as [Hi2|Hi2].
  - rewrite decide_True; [done|]. by apply Hpass.
  - rewrite decide_False by (by rewrite Hpass).
    unfold compacted, size2, kept in *. cbn [fst snd t_batch t_heads t_seq t_dim].
    by rewrite H13, (ceil_product_Ok _ _ _ Hceil).
Qed.

End Notebook.

Section HeapProperties.
Context {scalar : Type}.
Variable l2norm : list scalar → scalar.
Variable argsort : list scalar → list nat.
Variable keep_ratio : number.
Variable prune_after : Z.
Variable skip_layers : list Z.

(** ** Which objects the returned list shares with the input *)

(** A run of the loop that returns leaves at an index it passes through
    the pair object that was there, and at an index it stores to a new
    pair object. *)
Lemma for_layers_heap_items layers :
  ∀ q (h h' : heap scalar) items pkv,
    h !! q = Some (PyList items) → q ∉ items →
    Forall2 (λ l kv, pair_at h l = Some kv) items pkv →
    Forall (λ i, i < length items) layers →
    for_layers_heap l2norm argsort keep_ratio prune_after skip_layers
      layers q h = Ok (tt, h') →
    ∃ items',
      h' !! q = Some (PyList items') ∧
      length items' = length items ∧
      preserves q h h' ∧
      ∀ i l kv,
        items !! i = Some l → pkv !! i = Some kv →
        (i ∉ layers → items' !! i = Some l) ∧
        (passes_through prune_after skip_layers i kv → items' !! i = Some l) ∧
        (¬ passes_through prune_after skip_layers i kv → i ∈ layers →
         ∃ t, items' !! i = Some t ∧ fresh_pair h h' t).
Proof.
  induction layers as [|layer rest IH];
    intros q h h' items pkv Hq Hnq Hitems Hrange Hrun.
  { injection Hrun as <-. exists items. split; [done|]. split; [done|].
    split; [by intros ?|].
    intros i l kv Hl Hkv. split; [done|]. split; [done|].
    by intros _ ?%elem_of_nil. }
  apply Forall_cons in Hrange as [Hlayer Hrange].
  cbn [for_layers_heap] in Hrun.
  unfold py_bind at 1 in Hrun. unfold items_of at 1 in Hrun.
  rewrite Hq in Hrun.
  destruct (lookup_lt_is_Some_2 _ _ Hlayer) as [l Hl]. rewrite Hl in Hrun.
  destruct (Forall2_lookup_l _ _ _ _ _ Hitems Hl) as (kv & Hkv & Hpair).
  pose proof Hpair as (k & v & Hlk & Hk & Hv)%pair_at_Some.
  unfold py_bind at 1 in Hrun. unfold items_of at 1 in Hrun.
  assert (match h !! l with
          | Some (PyList items) | Some (PyTuple items) => Ok (items, h)
          | _ => Raise NotASequence
          end = Ok ([k; v], h)) as Hpairobj.
  { by destruct Hlk as [-> | ->]. }
  rewrite Hpairobj in Hrun. clear Hpairobj.
  unfold py_bind at 1 in Hrun. unfold py_lift at 1 in Hrun.
  cbn [of_option lookup list_lookup] in Hrun.
  unfold py_bind at 1 in Hrun. unfold tensor_of at 1 in Hrun.
  rewrite Hk in Hrun.
  (* what the rest of the loop gives when this turn stores nothing *)
  assert (Hsame :
    for_layers_heap l2norm argsort keep_ratio prune_after skip_layers
      rest q h = Ok (tt, h') →
    passes_through prune_after skip_layers layer kv →
    ∃ items',
      h' !! q = Some (PyList items') ∧ length items' = length items ∧
      preserves q h h' ∧
      ∀ i l kv,
        items !! i = Some l → pkv !! i = Some kv →
        (i ∉ layer :: rest → items' !! i = Some l) ∧
        (passes_through prune_after skip_layers i kv → items' !! i = Some l) ∧
        (¬ passes_through prune_after skip_layers i kv → i ∈ layer :: rest →
         ∃ t, items' !! i = Some t ∧ fresh_pair h h' t)).
  { intros Hrest Hpass.
    destruct (IH q h h' items pkv Hq Hnq Hitems Hrange Hrest)
      as (items' & Hq' & Hlen & Hpres & Hall).
    exists items'. split; [done|]. split; [done|]. split; [done|].
    intros i l0 kv0 Hi Hkv0. destruct (Hall i l0 kv0 Hi Hkv0) as (Ha & Hb & Hc).
    split; [|split; [done|]].
    - intros Hnin. apply Ha. intros ?. apply Hnin. by right.
    - intros Hnp [->|Hin]%elem_of_cons; [|by apply Hc].
      simplify_eq. done. }
  destruct (Z.ltb_spec (Z.of_nat (size2 kv.1)) prune_after) as [Hlt|Hge].
  { apply Hsame; [done|]. by right. }
  unfold py_bind at 1 in Hrun. unfold tensor_of at 1 in Hrun.
  rewrite Hk in Hrun.
  unfold py_bind at 1 in Hrun. unfold tensor_of at 1 in Hrun.
  rewrite Hv in Hrun.
  unfold py_bind at 1 in Hrun. unfold py_lift at 1 in Hrun.
  destruct (sorted_prefix l2norm argsort keep_ratio (kv.1, kv.2))
    as [new|e]; [|done].
  destruct (decide (Z.of_nat layer ∈ skip_layers)) as [Hskip|Hskip].
  { apply Hsame; [done|]. by left. }
  clear Hsame.
  assert (¬ passes_through prune_after skip_layers layer kv) as Hnpass.
  { intros [?|?]; [done|lia]. }
  unfold py_bind at 1 in Hrun. unfold alloc at 1 in Hrun.
  set (a := fresh (dom h)) in Hrun.
  set (h1 := <[a := PyTensor new.1]> h) in Hrun.
  unfold py_bind at 1 in Hrun. unfold alloc at 1 in Hrun.
  set (b := fresh (dom h1)) in Hrun.
  set (h2 := <[b := PyTensor new.2]> h1) in Hrun.
  unfold py_bind at 1 in Hrun. unfold alloc at 1 in Hrun.
  set (t := fresh (dom h2)) in Hrun.
  set (h3 := <[t := PyTuple [a; b]]> h2) in Hrun.
  assert (h !! a = None) as Ha by apply not_elem_of_dom, is_fresh.
  assert (h1 !! b = None) as Hb by apply not_elem_of_dom, is_fresh.
  assert (h2 !! t = None) as Ht by apply not_elem_of_dom, is_fresh.
  assert (h !! b = None ∧ a ≠ b) as [Hb' Hab].
  { unfold h1 in Hb. apply lookup_insert_None in Hb. naive_solver. }
  assert (h !! t = None ∧ a ≠ t ∧ b ≠ t) as (Ht' & Hat & Hbt).
  { unfold h2, h1 in Ht. rewrite !lookup_insert_None in Ht. tauto. }
  assert (q ≠ a ∧ q ≠ b ∧ q ≠ t) as (Hqa & Hqb & Hqt)
    by (repeat split; intros ->; congruence).
  unfold py_bind at 1 in Hrun. unfold set_item at 1 in Hrun.
  assert (h3 !! q = Some (PyList items)) as Hq3.
  { unfold h3, h2, h1. by rewrite !lookup_insert_ne by done. }
  rewrite Hq3 in Hrun.
  set (h4 := <[q := PyList (<[layer := t]> items)]> h3) in Hrun.
  assert (preserves q h h4) as Hpres.
  { intros x o Hx Ho. unfold h4, h3, h2, h1.
    rewrite !lookup_insert_ne; [done|congruence..]. }
  assert (pair_at h4 t = Some new) as Hnew.
  { apply pair_at_Some. exists a, b. unfold h4, h3, h2, h1.
    repeat split; [right|..]; simplify_map_eq; done. }
  assert (h4 !! t = Some (PyTuple [a; b])) as Ht4.
  { unfold h4, h3. rewrite lookup_insert_ne by done.
    by rewrite lookup_insert_eq. }
  destruct (IH q h4 h' (<[layer := t]> items) (<[layer := new]> pkv))
    as (items' & Hq' & Hlen & Hpres' & Hall).
  - unfold h4. by rewrite lookup_insert_eq.
  - intros (i & Hi)%list_elem_of_lookup.
    destruct (decide (i = layer)) as [->|Hne].
    + rewrite list_lookup_insert_eq in Hi by done. congruence.
    + rewrite list_lookup_insert_ne in Hi by done.
      apply Hnq. by eapply list_elem_of_lookup_2.
  - apply Forall2_insert; [|done].
    apply Forall2_same_length_lookup. split; [by eapply Forall2_length|].
    intros i x y Hx Hy.
    apply (pair_at_preserved q h h4); [congruence|done| |].
    + intros ->. apply Hnq. by eapply list_elem_of_lookup_2.
    + exact (Forall2_lookup_lr _ items pkv i x y Hitems Hx Hy).
  - by rewrite length_insert.
  - exact Hrun.
  - assert (is_Some (h' !! q)) as Hq'some by by rewrite Hq'.
    assert (h' !! t = Some (PyTuple [a; b])) as Ht'' by by apply Hpres'.
    exists items'. split; [done|].
    split; [by rewrite Hlen, length_insert|].
    split; [by eapply preserves_trans|].
    intros i l0 kv0 Hi Hkv0.
    destruct (decide (i = layer)) as [->|Hne].
    + simplify_eq.
      destruct (Hall layer t new) as (Hnin & Hsame & Hfresh).
      { by rewrite list_lookup_insert_eq. }
      { rewrite list_lookup_insert_eq; [done|]. by eapply lookup_lt_Some. }
      split; [intros Hn; destruct Hn; by left|]. split; [done|].
      intros _ _.
      assert (fresh_pair h h' t) as Hft.
      { split; [done|]. by exists a, b. }
      destruct (decide (layer ∈ rest)) as [Hin|Hin]; [|by eauto].
      destruct (decide (passes_through prune_after skip_layers layer new))
        as [Hp|Hp]; [by eauto|].
      destruct (Hfresh Hp Hin) as (t' & Ht'eq & Hnone & a' & b' & Hab' & Ha' & Hb'').
      assert (is_Some (h4 !! q)) by (unfold h4; by rewrite lookup_insert_eq).
      exists t'. split; [done|]. split; [by eapply preserves_None|].
      exists a', b'. split; [done|]. split; by eapply preserves_None.
    + destruct (Hall i l0 kv0) as (Hnin & Hsame & Hfresh).
      { by rewrite list_lookup_insert_ne. }
      { by rewrite list_lookup_insert_ne. }
      split; [|split; [done|]].
      * intros Hn. apply Hnin. intros ?. apply Hn. by right.
      * intros Hp [?|Hin]%elem_of_cons; [done|].
        destruct (Hfresh Hp Hin)
          as (t' & Ht'eq & Hnone & a' & b' & Hab' & Ha' & Hb'').
        exists t'. split; [done|].
        assert (is_Some (h4 !! q)) by (unfold h4; by rewrite lookup_insert_eq).
        split; [by eapply preserves_None|].
        exists a', b'. split; [done|]. split; by eapply preserves_None.
Qed.

(** X16: which objects the list the call returns shares with its
    argument.  At the index of a layer that passes through (in
    [skip_layers], or shorter than [prune_after]) the returned list holds
    the very pair object of the argument, so the two sequences share it;
    at the index of a compacted layer it holds a pair object that did not
    exist before the call, of two tensor objects that did not exist
    either. *)
Theorem returned_list_shares_passed_layers (h h' : heap scalar) p q snap :
  snapshot_at h p = Some snap →
  l2_compress_heap l2norm argsort keep_ratio prune_after skip_layers p h
    = Ok (q, h') →
  ∃ items items',
    items_at h p = Some items ∧ h' !! q = Some (PyList items') ∧
    length items' = length items ∧
    ∀ i l kv,
      items !! i = Some l → snap !! i = Some kv →
      if decide (passes_through prune_after skip_layers i kv)
      then items' !! i = Some l
      else ∃ t, items' !! i = Some t ∧ fresh_pair h h' t.
Proof.
  intros (items & Hp & Hitems)%snapshot_at_Some Hrun.
  unfold l2_compress_heap in Hrun.
  unfold py_bind at 1 in Hrun. unfold items_of at 1 in Hrun.
  assert (match h !! p with
          | Some (PyList items) | Some (PyTuple items) => Ok (items, h)
          | _ => Raise NotASequence
          end = Ok (items, h)) as Hpobj.
  { unfold items_at in Hp.
    by destruct (h !! p) as [[?|?|?]|]; simplify_eq. }
  rewrite Hpobj in Hrun. clear Hpobj.
  unfold py_bind at 1 in Hrun. unfold alloc at 1 in Hrun.
  set (q0 := fresh (dom h)) in Hrun.
  set (h1 := <[q0 := PyList items]> h) in Hrun.
  assert (h !! q0 = None) as Hq by apply not_elem_of_dom, is_fresh.
  assert (preserves q0 h h1) as Hpres.
  { intros l o Hl Ho. unfold h1. by rewrite lookup_insert_ne. }
  assert (q0 ∉ items) as Hnq.
  { intros (i & Hi)%list_elem_of_lookup.
    destruct (Forall2_lookup_l _ _ _ _ _ Hitems Hi) as (kv & _ & Hkv).
    apply pair_at_Some in Hkv as (? & ? & [?|?] & _); congruence. }
  unfold py_bind at 1 in Hrun.
  destruct (for_layers_heap _ _ _ _ _ _ q0 h1) as [[[] h2]|e] eqn:Hloop;
    [|done].
  injection Hrun as <- <-.
  assert (is_Some (h1 !! q0)) as Hq1some
    by (unfold h1; by rewrite lookup_insert_eq).
  destruct (for_layers_heap_items (seq 0 (length items)) q0 h1 h2 items snap)
    as (items' & Hq' & Hlen & Hpres' & Hall).
  - unfold h1. by rewrite lookup_insert_eq.
  - done.
  - apply Forall2_same_length_lookup. split; [by eapply Forall2_length|].
    intros i x y Hx Hy.
    apply (pair_at_preserved q0 h h1); [congruence|done| |].
    + intros ->. apply Hnq. by eapply list_elem_of_lookup_2.
    + exact (Forall2_lookup_lr _ items snap i x y Hitems Hx Hy).
  - apply Forall_forall. intros i Hi%elem_of_seq. lia.
  - done.
  - exists items, items'. split; [done|]. split; [done|]. split; [done|].
    { intros i l kv Hi Hkv.
      destruct (Hall i l kv Hi Hkv) as (_ & Hsame & Hfresh).
      case_decide as Hpass; [by apply Hsame|].
      destruct Hfresh as (t & Ht & Hnone & a & b & Hab & Ha & Hb); [done| |].
      { apply elem_of_seq. apply lookup_lt_Some in Hi. lia. }
      exists t. split; [done|]. split; [by eapply preserves_None|].
      exists a, b. split; [done|]. split; by eapply preserves_None. }
Qed.

End HeapProperties.

Section AnyRatio.
Context {scalar : Type}.
Variable leb : scalar → scalar → bool.
Variable l2norm : list scalar → scalar.
Variable argsort : list scalar → list nat.

#[local] Abbreviation cache := (list (layer_cache (scalar := scalar))).

(** X17: whatever [keep_ratio] is (negative, above 1, a [float] or an
    exact number), whenever the call returns [math.ceil] has returned
    [tokens_to_keep] on every layer it compacted, and in every (batch,
    head) slice of such a layer the output keys are the rows at the
    positions the slice [:tokens_to_keep] leaves of the sorted order:
    their norms are at most those of all positions left out, and they are
    listed in ascending order of norm. *)
Theorem kept_rows_at_any_ratio keep_ratio prune_after skip_layers
    (snap out : cache) :
  sorts leb argsort → well_shaped snap →
  l2_compress l2norm argsort keep_ratio prune_after skip_layers snap = Ok out →
  ∀ i kv o b h krows,
    snap !! i = Some kv → out !! i = Some o →
    ¬ passes_through prune_after skip_layers i kv →
    slice_at kv.1 b h = Some krows →
    ∃ (k : Z) kept_idx dropped_idx,
      ceil_product keep_ratio (size2 kv.1) = Ok k ∧
      kept_idx ++ dropped_idx ≡ₚ seq 0 (length krows) ∧
      length kept_idx = slice_stop k (size2 kv.1) ∧
      slice_at o.1 b h = Some (reorder kept_idx krows) ∧
      StronglySorted (λ r1 r2, leb (l2norm r1) (l2norm r2) = true)
                     (reorder kept_idx krows) ∧
      ∀ p p', p ∈ kept_idx → p' ∈ dropped_idx →
              norm_le leb l2norm krows p p'.
Proof.
  intros Hs Hwf Hout i kv o b h krows Hi Ho Hpass Hk.
  destruct (l2_compress_layers _ _ _ _ _ _ _ _ Hs Hwf Hout) as [_ Hlayers].
  destruct (Hlayers i kv o Hi Ho) as (Hwk & Hwv & Hshape & ->).
  rewrite decide_False by done.
  destruct (slice_at_rect _ _ _ _ Hwk Hk) as [Hlen _].
  exists (tokens_to_keep keep_ratio (size2 kv.1)),
         (kept_order l2norm argsort keep_ratio krows),
         (dropped_order l2norm argsort keep_ratio krows).
  split.
  { eapply l2_compress_ceil; [done..|]. by eapply not_passes_through_visited. }
  split; [by eapply kept_dropped_perm|]. split; [|split; [|split]].
  - rewrite (length_kept_order leb) by done. unfold size2, kept.
    by rewrite Hlen.
  - rewrite slice_at_compacted_keys, Hk. simpl.
    unfold kept_order. by rewrite Hlen.
  - apply reorder_sorted. by apply kept_order_sorted.
  - intros p p'. by apply kept_le_dropped.
Qed.

End AnyRatio.

(** * The claims on the instance *)

Import Exact ExactFacts.

(** Closes a decidable goal about concrete data by computing its decision. *)
Ltac by_decide := apply (bool_decide_unpack _); vm_compute; exact I.

(** [float_0_6] is what the literal [0.6] is read as, and lies within
    [2^-54] of 6/10. *)
Lemma float_0_6_literal :
  float_literal 6 10 = float_0_6 ∧
  ((6 # 10) - (1 # 2 ^ 54) <= float_value float_0_6)%Q ∧
  (float_value float_0_6 <= (6 # 10) + (1 # 2 ^ 54))%Q.
Proof.
  split; [by vm_compute|]. split; vm_compute; discriminate.
Qed.

(** C1 fails on the code: at [keep_ratio = 1] a visited layer that is not
    skipped is stored sorted by key norm, here with its two tokens
    exchanged. *)
Lemma ratio_1_reorders :
  compress 1 2 [] [(keys2, values2)] =
    Ok [(from_rows [[ [[0; 1]; [2; 0]] ]]%Z,
         from_rows [[ [[1; 1]; [0; 0]] ]]%Z)] ∧
  compress 1 2 [] [(keys2, values2)] ≠ Ok [(keys2, values2)].
Proof. split; [by vm_compute|]. vm_compute. discriminate. Qed.

(** At ratio 1.0, a [float], on the three-layer cache. *)
Lemma ratio_1_keeps_every_token_witness :
  ∃ out,
    compress (Float (float_literal 1 1)) 5 [0%Z] demo_cache = Ok out ∧
    length out = 3.
Proof.
  destruct (ratio_1_keeps_every_token Z.leb sqnorm argsort_stable
              (Float (float_literal 1 1)) (float_value (float_literal 1 1))
              5 [0%Z] demo_cache) as (out & Hout & Hlen & _).
  - exact argsort_stable_sorts.
  - by_decide.
  - by_decide.
  - reflexivity.
  - reflexivity.
  - by_decide.
  - exists out. split; [exact Hout|exact Hlen].
Defined.

(** On the three-layer cache, at the ratio and threshold of the notebook:
    8 of the 13 tokens of layer 1 are kept. *)
Lemma kept_tokens_have_smallest_norms_witness :
  ∃ out,
    compress (Float float_0_6) 5 [0%Z] demo_cache = Ok out ∧
    ∀ o, out !! 1 = Some o →
      ∃ kept_idx dropped_idx,
        kept_idx ++ dropped_idx ≡ₚ seq 0 13 ∧
        Z.of_nat (length kept_idx) = 8%Z ∧
        slice_at o.1 0 0 =
          Some (reorder kept_idx
                  [[3]; [1]; [2]; [1]; [0]; [7]; [-1]; [4]; [9]; [-3]; [5];
                   [6]; [8]]%Z).
Proof.
  destruct (kept_tokens_have_smallest_norms Z.leb sqnorm argsort_stable
              (Float float_0_6) (float_value float_0_6) 5 [0%Z] demo_cache)
    as [Hreturns Hkept].
  - exact argsort_stable_sorts.
  - by_decide.
  - reflexivity.
  - reflexivity.
  - vm_compute. discriminate.
  - by_decide.
  - destruct Hreturns as [out Hout]; [by_decide|].
    exists out. split; [exact Hout|]. intros o Ho.
    destruct (Hkept out 1 (keys13, values13) o 0 0
                [[3]; [1]; [2]; [1]; [0]; [7]; [-1]; [4]; [9]; [-3]; [5];
                 [6]; [8]]%Z Hout eq_refl Ho)
      as (kept_idx & dropped_idx & Hperm & Hlen & Hslice & _).
    + by_decide.
    + reflexivity.
    + exists kept_idx, dropped_idx.
      split; [exact Hperm|]. split; [exact Hlen|exact Hslice].
Defined.

(** C3 fails on the code: [keep_ratio = 2] with [prune_after = -1] is
    accepted and a cache is returned, as is the [float] 1.5, and so are
    values that hold one token more than the keys. *)
Lemma out_of_range_arguments_accepted :
  compress 2 (-1) [] [(keys2, values2)] =
    Ok [(from_rows [[ [[0; 1]; [2; 0]] ]]%Z,
         from_rows [[ [[1; 1]; [0; 0]] ]]%Z)] ∧
  compress (Float (float_literal 3 2)) (-1) [] [(keys2, values2)] =
    Ok [(from_rows [[ [[0; 1]; [2; 0]] ]]%Z,
         from_rows [[ [[1; 1]; [0; 0]] ]]%Z)] ∧
  compress (1 # 2) 0 []
    [(keys2, from_rows [[ [[0; 0]; [1; 1]; [2; 2]] ]]%Z)] =
    Ok [(from_rows [[ [[0; 1]] ]]%Z, from_rows [[ [[1; 1]] ]]%Z)].
Proof. repeat split; by vm_compute. Qed.

(** At a negative [float] ratio and a negative threshold the call
    returns; at NaN it raises [ValueError]. *)
Lemma no_argument_validation_witness :
  (∃ out, compress (Float (float_literal (-7) 2)) (-1) [0%Z] demo_cache
            = Ok out ∧ length out = 3) ∧
  compress (Float S754_nan) (-1) [0%Z] demo_cache = Raise ValueError.
Proof.
  split.
  - destruct (no_argument_validation Z.leb sqnorm argsort_stable
                (Float (float_literal (-7) 2)) (-1) [0%Z])
      as (Hreturns & _).
    + exact argsort_stable_sorts.
    + apply (Hreturns demo_cache).
      * by_decide.
      * by_decide.
      * by_decide.
  - destruct (no_argument_validation Z.leb sqnorm argsort_stable
                (Float S754_nan) (-1) [0%Z])
      as (_ & _ & Hraises & _).
    + exact argsort_stable_sorts.
    + apply (Hraises demo_cache 0 (keys13, values13)).
      * reflexivity.
      * by_decide.
      * by_decide.
      * reflexivity.
Defined.

(** C4 fails on the code: a layer of one token with [seq_len = prune_after]
    is neither left unchanged when it is listed in [skip_layers] nor
    compacted when it is not; the call raises. *)
Theorem single_token_layer_not_passed_through :
  compress (1 # 2) 1 [0%Z] [(keys1, values1)] = Raise ExpandLeadingDim ∧
  compress (1 # 2) 1 [] [(keys1, values1)] = Raise ExpandLeadingDim ∧
  compress (Float (float_literal 1 2)) 1 [0%Z] [(keys1, values1)]
    = Raise ExpandLeadingDim.
Proof. repeat split; by vm_compute. Qed.

(** C5 fails on the code.  A negative [keep_ratio] is not clamped to no
    token: at -0.5 a layer of 13 tokens keeps 7, where the claim has
    [max(0, min(ceil(-6.5), 13)) = 0].  And the ceiling is taken of the
    rounded product: at 0.1 a layer of 10 tokens keeps 1, though the
    [float] 0.1 is above 1/10 and the ceiling of its exact product with 10
    is 2; at 0.07 a layer of 100 tokens keeps 8, though the ceiling of
    7/100 times 100 is 7. *)
Lemma retained_count_not_as_claimed :
  (seq_lens (compress (Float (float_literal (-1) 2)) 0 []
               [(keys13, values13)]) = Ok [(7, 7)] ∧
   Z.max 0 (Z.min (Qceiling ((-1 # 2) * inject_Z 13)) 13) = 0%Z) ∧
  (seq_lens (compress (Float (float_literal 1 10)) 0 []
               [(counting 10, counting 10)]) = Ok [(1, 1)] ∧
   Qceiling (float_value (float_literal 1 10) * inject_Z 10) = 2%Z) ∧
  (seq_lens (compress (Float (float_literal 7 100)) 0 []
               [(counting 100, counting 100)]) = Ok [(8, 8)] ∧
   Qceiling ((7 # 100) * inject_Z 100) = 7%Z).
Proof. repeat split; by vm_compute. Qed.

(** On the three-layer cache at the [float] 0.6 layer 1 keeps 8 tokens. *)
Lemma retained_token_count_witness :
  ∃ out, compress (Float float_0_6) 5 [0%Z] demo_cache = Ok out ∧
         ∀ o, out !! 1 = Some o → size2 o.1 = 8 ∧ size2 o.2 = 8.
Proof.
  destruct (retained_token_count Z.leb sqnorm argsort_stable
              (Float float_0_6) 5 [0%Z] demo_cache) as [Hreturns Hcount].
  - exact argsort_stable_sorts.
  - by_decide.
  - destruct Hreturns as [out Hout]; [by_decide|by_decide|].
    exists out. split; [exact Hout|]. intros o Ho.
    destruct (Hcount out 1 (keys13, values13) o Hout eq_refl Ho)
      as (k & _ & H1 & H2 & _ & _ & H8).
    + by_decide.
    + destruct H8 as [_ H8]; [by left|reflexivity|].
      rewrite H8 in H1, H2. split; [exact H1|exact H2].
Defined.

(** On the three-layer cache, whose value rows hold their positions, the
    value row at an output position names the position its key row came
    from. *)
Lemma keys_and_values_share_positions_witness :
  ∃ out,
    compress (Float float_0_6) 5 [0%Z] demo_cache = Ok out ∧
    ∀ o, out !! 1 = Some o →
      ∃ idx okrows ovrows,
        slice_at o.1 0 0 = Some okrows ∧ slice_at o.2 0 0 = Some ovrows ∧
        length okrows = length idx ∧ length ovrows = length idx ∧
        ∀ t p, idx !! t = Some p → ovrows !! t = Some [Z.of_nat p].
Proof.
  destruct (keys_and_values_share_positions Z.leb sqnorm argsort_stable
              (Float float_0_6) 5 [0%Z] demo_cache) as [Hreturns Hpairs].
  - exact argsort_stable_sorts.
  - by_decide.
  - destruct Hreturns as [out Hout]; [by_decide|by_decide|].
    exists out. split; [exact Hout|]. intros o Ho.
    destruct (Hpairs out 1 (keys13, values13) o 0 0
                [[3]; [1]; [2]; [1]; [0]; [7]; [-1]; [4]; [9]; [-3]; [5];
                 [6]; [8]]%Z
                [[0]; [1]; [2]; [3]; [4]; [5]; [6]; [7]; [8]; [9]; [10];
                 [11]; [12]]%Z Hout eq_refl Ho)
      as (idx & okrows & ovrows & Hk & Hv & Hlk & Hlv & Hsame).
    + by_decide.
    + reflexivity.
    + reflexivity.
    + exists idx, okrows, ovrows.
      split; [exact Hk|]. split; [exact Hv|].
      split; [exact Hlk|]. split; [exact Hlv|].
      intros t p Hp. destruct (Hsame t p Hp) as (k & v & _ & Hvp & _ & Hov).
      rewrite Hov. f_equal.
      do 13 (destruct p as [|p]; [by injection Hvp as <-|]).
      discriminate.
Defined.

(** C8 fails on the code: a cache that meets every precondition, with a
    second layer of one token, gets no output cache at all. *)
Theorem single_token_layer_aborts_call :
  well_shaped [(keys13, values13); (keys1, values1)] ∧
  compress (3 # 5) 0 [] [(keys13, values13); (keys1, values1)] =
    Raise ExpandLeadingDim ∧
  compress (Float float_0_6) 0 [] [(keys13, values13); (keys1, values1)] =
    Raise ExpandLeadingDim.
Proof. split; [by_decide|split; by vm_compute]. Qed.

(** On the heap that holds the three-layer cache as a tuple of tuples. *)
Lemma l2_compress_heap_frame_witness :
  ∃ q h',
    l2_compress_heap sqnorm argsort_stable (Float float_0_6) 5 [0%Z]
      1%positive demo_heap = Ok (q, h') ∧
    demo_heap ⊆ h' ∧ demo_heap !! q = None.
Proof.
  pose proof (l2_compress_heap_frame sqnorm argsort_stable (Float float_0_6)
                5 [0%Z] demo_heap 1%positive demo_cache) as H.
  destruct (l2_compress sqnorm argsort_stable (Float float_0_6) 5 [0%Z]
              demo_cache)
    as [out|e] eqn:Hout; [|vm_compute in Hout; discriminate].
  destruct H as (q & h' & _ & _ & Hrun & Hsub & Hq & _).
  - vm_compute. reflexivity.
  - exists q, h'. split; [exact Hrun|]. split; [exact Hsub|exact Hq].
Defined.

(** C10 fails on the code: at the [float] 1e308, which is above 1, the
    product with 13 is infinite and [math.ceil] raises; on a visited layer
    without tokens the number asked for at [keep_ratio = 2] is 0, which
    does not exceed [seq_len]; and on a visited layer of one token the
    call raises. *)
Lemma ratio_above_1_not_always_as_claimed :
  (binary64 (Float (float_literal (10 ^ 308) 1)) ∧
   (1 < float_value (float_literal (10 ^ 308) 1))%Q ∧
   compress (Float (float_literal (10 ^ 308) 1)) 0 [] [(keys13, values13)]
     = Raise OverflowError) ∧
  (compress 2 0 [] [(keys0, values0)] = Ok [(keys0, values0)] ∧
   ¬ passes_through 0 [] 0 (keys0, values0) ∧
   ¬ (Z.of_nat (size2 keys0) < tokens_to_keep 2 (size2 keys0))%Z) ∧
  compress 2 0 [] [(keys1, values1)] = Raise ExpandLeadingDim.
Proof.
  split; [|split; [|by vm_compute]].
  - split; [by vm_compute|]. split; [reflexivity|by vm_compute].
  - split; [by vm_compute|]. split.
    + intros [Hskip|Hshort]; [by apply not_elem_of_nil in Hskip|].
      vm_compute in Hshort. discriminate.
    + vm_compute. discriminate.
Qed.

(** At the [float] 2.5 on the three-layer cache. *)
Lemma ratio_above_1_keeps_every_token_witness :
  ∃ out, compress (Float (float_literal 5 2)) 5 [0%Z] demo_cache = Ok out.
Proof.
  destruct (ratio_above_1_keeps_every_token Z.leb sqnorm argsort_stable
              (Float (float_literal 5 2)) (float_value (float_literal 5 2))
              5 [0%Z] demo_cache) as (out & Hout & _).
  - exact argsort_stable_sorts.
  - by_decide.
  - by_decide.
  - reflexivity.
  - reflexivity.
  - by_decide.
  - by_decide.
  - by_decide.
  - exists out. exact Hout.
Defined.

(** ** Further properties on the instance *)

(** A one-token layer whose values do not match its keys, below the
    threshold, and a skipped layer. *)
Lemma passed_through_layers_untouched_witness :
  ∃ out,
    compress (Float float_0_6) 5 [1%Z]
      [(keys1, values13); (keys13, values13)] = Ok out ∧
    length out = 2 ∧
    out !! 0 = Some (keys1, values13) ∧ out !! 1 = Some (keys13, values13).
Proof.
  destruct (compress (Float float_0_6) 5 [1%Z]
              [(keys1, values13); (keys13, values13)])
    as [out|e] eqn:Hout; [|vm_compute in Hout; discriminate].
  destruct (passed_through_layers_untouched sqnorm argsort_stable
              (Float float_0_6) 5 [1%Z]
              [(keys1, values13); (keys13, values13)] out Hout)
    as [Hlen Hpass].
  exists out. split; [reflexivity|]. split; [exact Hlen|]. split.
  - apply Hpass; [reflexivity|by_decide].
  - apply Hpass; [reflexivity|by_decide].
Defined.

(** At the default threshold, on layers whose values do not match their
    keys. *)
Lemma below_threshold_is_identity_witness :
  compress (Float float_0_6) 2048 [] [(keys1, values13); (keys13, values2)] =
  Ok [(keys1, values13); (keys13, values2)].
Proof.
  apply (below_threshold_is_identity sqnorm argsort_stable (Float float_0_6)
           2048 [] [(keys1, values13); (keys13, values2)]).
  by_decide.
Defined.

(** Layer 1 of the three-layer cache, in another cache. *)
Lemma layers_are_independent_witness :
  ∃ out out',
    compress (Float float_0_6) 5 [0%Z] demo_cache = Ok out ∧
    compress (Float float_0_6) 5 [0%Z] [(keys2, values2); (keys13, values13)]
      = Ok out' ∧
    out !! 1 = out' !! 1.
Proof.
  destruct (compress (Float float_0_6) 5 [0%Z] demo_cache)
    as [out|e] eqn:Hout; [|vm_compute in Hout; discriminate].
  destruct (compress (Float float_0_6) 5 [0%Z]
              [(keys2, values2); (keys13, values13)])
    as [out'|e] eqn:Hout'; [|vm_compute in Hout'; discriminate].
  exists out, out'. split; [reflexivity|]. split; [reflexivity|].
  exact (layers_are_independent sqnorm argsort_stable (Float float_0_6) 5
           [0%Z] demo_cache [(keys2, values2); (keys13, values13)] out out' 1
           Hout Hout' eq_refl).
Defined.

(** A failing first layer, and the first two layers of the three-layer
    cache. *)
Lemma prefix_of_cache_witness :
  compress (Float float_0_6) 0 [] ([(keys1, values1)] ++ [(keys13, values13)])
    = Raise ExpandLeadingDim ∧
  ∃ out,
    compress (Float float_0_6) 5 [0%Z]
      ([(keys13, values13); (keys13, values13)] ++ [(keys2, values2)])
      = Ok out ∧
    compress (Float float_0_6) 5 [0%Z] [(keys13, values13); (keys13, values13)]
      = Ok (take 2 out).
Proof.
  split.
  - apply (prefix_of_cache sqnorm argsort_stable (Float float_0_6) 0 []
             [(keys1, values1)] [(keys13, values13)]).
    vm_compute. reflexivity.
  - destruct (compress (Float float_0_6) 5 [0%Z]
                ([(keys13, values13); (keys13, values13)]
                   ++ [(keys2, values2)]))
      as [out|e] eqn:Hout; [|vm_compute in Hout; discriminate].
    exists out. split; [reflexivity|].
    exact (proj2 (prefix_of_cache sqnorm argsort_stable (Float float_0_6) 5
                    [0%Z] [(keys13, values13); (keys13, values13)]
                    [(keys2, values2)]) out Hout).
Defined.


(** Ratios 3/5 and 1 on the three-layer cache. *)
Lemma larger_ratio_keeps_more_witness :
  ∃ out1 out2,
    compress (3 # 5) 5 [0%Z] demo_cache = Ok out1 ∧
    compress 1 5 [0%Z] demo_cache = Ok out2 ∧
    ∀ o1 o2, out1 !! 1 = Some o1 → out2 !! 1 = Some o2 →
      size2 o1.1 ≤ size2 o2.1.
Proof.
  destruct (compress (3 # 5) 5 [0%Z] demo_cache)
    as [out1|e] eqn:Hout1; [|vm_compute in Hout1; discriminate].
  destruct (compress 1 5 [0%Z] demo_cache)
    as [out2|e] eqn:Hout2; [|vm_compute in Hout2; discriminate].
  exists out1, out2. split; [reflexivity|]. split; [reflexivity|].
  intros o1 o2 Ho1 Ho2.
  destruct (larger_ratio_keeps_more Z.leb sqnorm argsort_stable
              (3 # 5) 1 5 [0%Z] demo_cache out1 out2) with (i := 1)
              (kv := (keys13, values13)) (o1 := o1) (o2 := o2) as [Hle _].
  - exact argsort_stable_sorts.
  - by_decide.
  - discriminate.
  - discriminate.
  - exact Hout1.
  - exact Hout2.
  - reflexivity.
  - exact Ho1.
  - exact Ho2.
  - by_decide.
  - exact Hle.
Defined.

(** Thirteen tokens of different norms, sorted at ratio 1.0 and then cut
    at ratio 0.6. *)
Lemma second_call_keeps_a_prefix_witness :
  ∃ out1 out2,
    compress (Float (float_literal 1 1)) 5 [] [(keys13d, values13)]
      = Ok out1 ∧
    compress (Float float_0_6) 5 [] out1 = Ok out2 ∧
    ∀ o1 o2 krows, out1 !! 0 = Some o1 → out2 !! 0 = Some o2 →
      slice_at o1.1 0 0 = Some krows →
      slice_at o2.1 0 0 = Some (take 8 krows).
Proof.
  destruct (compress (Float (float_literal 1 1)) 5 [] [(keys13d, values13)])
    as [out1|e] eqn:Hout1; [|vm_compute in Hout1; discriminate].
  destruct (compress (Float float_0_6) 5 [] out1)
    as [out2|e] eqn:Hout2;
    [|injection Hout1 as <-; vm_compute in Hout2; discriminate].
  exists out1, out2. split; [reflexivity|]. split; [exact Hout2|].
  intros o1 o2 krows Ho1 Ho2 Hk.
  assert (size2 o1.1 = 13) as H13.
  { injection Hout1 as <-. by injection Ho1 as <-. }
  assert (is_Some (slice_at o1.2 0 0)) as [vrows Hv].
  { injection Hout1 as <-. injection Ho1 as <-. by eexists. }
  destruct (second_call_keeps_a_prefix Z.leb sqnorm argsort_stable
              (Float (float_literal 1 1)) 5 [] (Float float_0_6) 5 []
              [(keys13d, values13)] out1 out2)
    with (i := 0) (kv := (keys13d, values13)) (o1 := o1) (o2 := o2)
    as [_ Hslices].
  - exact argsort_stable_sorts.
  - by_decide.
  - exact Hout1.
  - exact Hout2.
  - reflexivity.
  - exact Ho1.
  - exact Ho2.
  - by_decide.
  - intros [Hin|Hlt]; [by apply not_elem_of_nil in Hin|].
    rewrite H13 in Hlt. lia.
  - by_decide.
  - destruct (Hslices 0 0 krows vrows Hk Hv) as [Hk2 _].
    rewrite H13 in Hk2. exact Hk2.
Defined.

(** Thirteen tokens of different norms compressed at ratio 0.6, and again
    at ratio 1.0. *)
Lemma second_call_at_ratio_1_changes_nothing_witness :
  ∃ out,
    compress (Float float_0_6) 5 [] [(keys13d, values13)] = Ok out ∧
    compress (Float (float_literal 1 1)) 5 [] out = Ok out.
Proof.
  destruct (compress (Float float_0_6) 5 [] [(keys13d, values13)])
    as [out|e] eqn:Hout; [|vm_compute in Hout; discriminate].
  exists out. split; [reflexivity|].
  refine (second_call_at_ratio_1_changes_nothing Z.leb sqnorm argsort_stable
           (Float float_0_6) (Float (float_literal 1 1))
           (float_value (float_literal 1 1)) 5 [] [(keys13d, values13)] out
           _ _ _ _ _ Hout _ _ _).
  - exact argsort_stable_sorts.
  - by_decide.
  - by_decide.
  - reflexivity.
  - vm_compute. discriminate.
  - injection Hout as <-. by_decide.
  - injection Hout as <-. by_decide.
  - injection Hout as <-. by_decide.
Defined.

(** Layer 1 of the three-layer cache at ratio 0.6. *)
Lemma kept_pairs_are_input_pairs_witness :
  ∃ out,
    compress (Float float_0_6) 5 [0%Z] demo_cache = Ok out ∧
    ∀ o, out !! 1 = Some o →
      ∃ okrows ovrows,
        slice_at o.1 0 0 = Some okrows ∧ slice_at o.2 0 0 = Some ovrows ∧
        length okrows = length ovrows ∧
        zip okrows ovrows ⊆+
          zip [[3]; [1]; [2]; [1]; [0]; [7]; [-1]; [4]; [9]; [-3]; [5];
               [6]; [8]]%Z
              [[0]; [1]; [2]; [3]; [4]; [5]; [6]; [7]; [8]; [9]; [10];
               [11]; [12]]%Z.
Proof.
  destruct (compress (Float float_0_6) 5 [0%Z] demo_cache)
    as [out|e] eqn:Hout; [|vm_compute in Hout; discriminate].
  exists out. split; [reflexivity|]. intros o Ho.
  refine (kept_pairs_are_input_pairs Z.leb sqnorm argsort_stable
            (Float float_0_6) 5 [0%Z] demo_cache out _ _ Hout 1
            (keys13, values13) o 0 0 _ _ eq_refl Ho eq_refl eq_refl).
  - exact argsort_stable_sorts.
  - by_decide.
Defined.

(** Values with one more head entry, token and column than the keys. *)
Lemma compacted_layer_takes_keys_shape_witness :
  ∃ out,
    compress 1 2 []
      [(keys2, from_rows [[ [[0; 0; 7]; [1; 1; 7]; [2; 2; 7]];
                            [[3; 3; 7]; [4; 4; 7]; [5; 5; 7]] ]]%Z)] = Ok out ∧
    ∀ o, out !! 0 = Some o →
      same_shape o.1 o.2 ∧ t_heads o.1 = 1 ∧ t_dim o.1 = 2 ∧ size2 o.1 = 2.
Proof.
  destruct (compress 1 2 []
              [(keys2, from_rows [[ [[0; 0; 7]; [1; 1; 7]; [2; 2; 7]];
                                    [[3; 3; 7]; [4; 4; 7]; [5; 5; 7]] ]]%Z)])
    as [out|e] eqn:Hout; [|vm_compute in Hout; discriminate].
  exists out. split; [reflexivity|]. intros o Ho.
  destruct (compacted_layer_takes_keys_shape sqnorm argsort_stable 1 2 []
              _ out Hout 0 _ o eq_refl Ho)
    as (_ & _ & (_ & HH & HD) & Hsame & HS & _).
  - by_decide.
  - split; [exact Hsame|]. split; [exact HH|]. split; [exact HD|exact HS].
Defined.

(** Thirteen keys with two values. *)
Lemma fewer_value_tokens_raise_witness :
  ∃ e, compress (Float float_0_6) 5 [] [(keys13, values2)] = Raise e.
Proof.
  apply (fewer_value_tokens_raise Z.leb sqnorm argsort_stable
           (Float float_0_6) 5 [] [(keys13, values2)] 0 (keys13, values2)).
  - exact argsort_stable_sorts.
  - reflexivity.
  - by_decide.
  - by_decide.
  - by_decide.
  - by_decide.
  - by_decide.
  - by_decide.
  - by_decide.
Defined.

(** A one-token layer in [skip_layers], between a well-shaped layer and a
    layer whose values do not match its keys. *)
Lemma single_token_layer_error_witness :
  compress (Float float_0_6) 0 [1%Z]
    ([(keys13, values13)] ++ (keys1, values1) :: [(keys13, values2)])
  = Raise ExpandLeadingDim.
Proof.
  apply (single_token_layer_error Z.leb sqnorm argsort_stable
           (Float float_0_6) 0 [1%Z]
           [(keys13, values13)] [(keys13, values2)] (keys1, values1)).
  - exact argsort_stable_sorts.
  - by_decide.
  - by_decide.
  - by_decide.
  - by_decide.
  - reflexivity.
Defined.

(** Values with one more head entry, token and column than the keys: the
    result is that of the values cut to the keys. *)
Lemma larger_values_are_cropped_witness :
  ∃ out,
    compress 1 2 []
      [(keys2, from_rows [[ [[0; 0; 7]; [1; 1; 7]; [2; 2; 7]];
                            [[3; 3; 7]; [4; 4; 7]; [5; 5; 7]] ]]%Z)] = Ok out ∧
    compress 1 2 [] [(keys2, values2)] = Ok out.
Proof.
  destruct (larger_values_are_cropped Z.leb sqnorm argsort_stable 1 2 []
              [(keys2, from_rows [[ [[0; 0; 7]; [1; 1; 7]; [2; 2; 7]];
                                    [[3; 3; 7]; [4; 4; 7]; [5; 5; 7]] ]]%Z)])
    as [Hreturns Hlayers].
  - exact argsort_stable_sorts.
  - by_decide.
  - destruct Hreturns as [out Hout]; [by_decide|by_decide|].
    exists out. split; [exact Hout|].
    destruct out as [|o [|? ?]];
      [vm_compute in Hout; discriminate| |vm_compute in Hout; discriminate].
    rewrite (Hlayers [o] 0 _ o Hout eq_refl eq_refl).
    vm_compute. reflexivity.
Defined.

(** The call of the notebook on a cache of three layers of 13 tokens. *)
Lemma notebook_call_keeps_8_of_13_witness :
  ∃ out,
    compress (Float float_0_6) 5 [0; 1]%Z
      [(keys13, values13); (keys13, values13); (keys13, values13)] = Ok out ∧
    length out = 3 ∧
    out !! 0 = Some (keys13, values13) ∧
    ∀ o, out !! 2 = Some o → size2 o.1 = 8 ∧ size2 o.2 = 8.
Proof.
  destruct (notebook_call_keeps_8_of_13 Z.leb sqnorm argsort_stable
              (Float float_0_6)
              [(keys13, values13); (keys13, values13); (keys13, values13)])
    as (out & Hout & Hlen & Hlayers).
  - exact argsort_stable_sorts.
  - by_decide.
  - by_decide.
  - by left.
  - exists out. split; [exact Hout|]. split; [exact Hlen|]. split.
    + destruct (out !! 0) as [o|] eqn:Ho.
      * f_equal. exact (Hlayers 0 (keys13, values13) o eq_refl Ho).
      * exfalso. apply lookup_ge_None_1 in Ho.
        unfold layer_cache in *. simpl in Hlen. lia.
    + intros o Ho.
      destruct (Hlayers 2 (keys13, values13) o eq_refl Ho) as (H1 & H2 & _).
      split; [exact H1|exact H2].
Defined.

(** On the heap that holds the three-layer cache: the returned list shares
    the pair objects at locations 2 and 8 and holds a new pair at index
    1. *)
Lemma returned_list_shares_passed_layers_witness :
  ∃ q h' items',
    l2_compress_heap sqnorm argsort_stable (Float float_0_6) 5 [0%Z]
      1%positive demo_heap = Ok (q, h') ∧
    h' !! q = Some (PyList items') ∧
    items' !! 0 = Some 2%positive ∧ items' !! 2 = Some 8%positive ∧
    ∃ t, items' !! 1 = Some t ∧ fresh_pair demo_heap h' t.
Proof.
  destruct (l2_compress_heap sqnorm argsort_stable (Float float_0_6) 5 [0%Z]
              1%positive demo_heap) as [[q h']|e] eqn:Hrun;
    [|vm_compute in Hrun; discriminate].
  destruct (returned_list_shares_passed_layers sqnorm argsort_stable
              (Float float_0_6) 5 [0%Z] demo_heap h' 1%positive q demo_cache)
    as (items & items' & Hitems & Hq & _ & Hshare).
  - vm_compute. reflexivity.
  - exact Hrun.
  - exists q, h', items'. split; [reflexivity|]. split; [exact Hq|].
    assert (items = [2; 5; 8]%positive) as ->.
    { vm_compute in Hitems. by injection Hitems as <-. }
    split; [|split].
    + exact (Hshare 0 2%positive (keys13, values13) eq_refl eq_refl).
    + exact (Hshare 2 8%positive (keys2, values2) eq_refl eq_refl).
    + exact (Hshare 1 5%positive (keys13, values13) eq_refl eq_refl).
Defined.

(** At the [float] 1e300 layer 1 of the three-layer cache keeps its 13
    tokens. *)
Lemma kept_rows_at_any_ratio_witness :
  ∃ out,
    compress (Float (float_literal (10 ^ 300) 1)) 5 [0%Z] demo_cache
      = Ok out ∧
    ∀ o, out !! 1 = Some o → ∃ krows,
      slice_at o.1 0 0 = Some krows ∧ length krows = 13.
Proof.
  destruct (compress (Float (float_literal (10 ^ 300) 1)) 5 [0%Z] demo_cache)
    as [out|e] eqn:Hout; [|vm_compute in Hout; discriminate].
  exists out. split; [reflexivity|]. intros o Ho.
  destruct (kept_rows_at_any_ratio Z.leb sqnorm argsort_stable
              (Float (float_literal (10 ^ 300) 1)) 5 [0%Z] demo_cache out)
    with (i := 1) (kv := (keys13, values13)) (o := o) (b := 0) (h := 0)
         (krows := [[3]; [1]; [2]; [1]; [0]; [7]; [-1]; [4]; [9]; [-3]; [5];
                    [6]; [8]]%Z)
    as (k & kept_idx & dropped_idx & Hk & _ & Hlen & Hslice & _).
  - exact argsort_stable_sorts.
  - by_decide.
  - exact Hout.
  - reflexivity.
  - exact Ho.
  - by_decide.
  - reflexivity.
  - eexists. split; [exact Hslice|].
    rewrite length_reorder, Hlen.
    assert (ceil_product (Float (float_literal (10 ^ 300) 1)) 13 =
            ceil_product (Float (float_literal (10 ^ 300) 1))
              (size2 (keys13, values13).1)) as Heq by reflexivity.
    rewrite <-Heq in Hk. vm_compute in Hk. injection Hk as <-.
    reflexivity.
Defined.
